(** * HTML structural heuristic analyzer (dist/index.js)

    A shallow embedding of [content_density_evaluator] and
    [accessibility_surface_check] and of the regular expressions they scan
    the page with.

    A JavaScript string is a sequence of UTF-16 code units; the patterns of
    the source carry no [u] flag, so they are matched one code unit at a
    time.  Strings are therefore lists of code units ([N]).  The page has
    already been fetched: every function below starts from [html]. *)

From Stdlib Require Import Ascii String.
From Stdlib Require Import List NArith ZArith QArith Qround Bool Lia.
From Stdlib Require DecimalString.
Import ListNotations.
Close Scope Q_scope.

Set Implicit Arguments.

(** ** Code units and strings *)

Definition char := N.
Definition str := list char.

Definition ch (a : ascii) : char := N_of_ascii a.
Arguments ch : simpl never.

(** A Rocq string literal read as a JavaScript string. *)
Definition js (s : string) : str := map ch (list_ascii_of_string s).

(** The double quote and the apostrophe. *)
Definition dq : char := 34%N.
Definition sq : char := 39%N.

Local Open Scope N_scope.

Definition in_range (lo hi x : char) : bool := (lo <=? x) && (x <=? hi).

(** WhiteSpace and LineTerminator of ECMAScript: the set behind both [\s]
    and [String.prototype.trim]. *)
Definition is_space (x : char) : bool :=
  in_range 9 13 x || (x =? 32) || (x =? 160) || (x =? 5760)
  || in_range 8192 8202 x || (x =? 8232) || (x =? 8233) || (x =? 8239)
  || (x =? 8287) || (x =? 12288) || (x =? 65279).

(** [\w]: letters, digits and the underscore. *)
Definition is_word (x : char) : bool :=
  in_range 97 122 x || in_range 65 90 x || in_range 48 57 x || (x =? 95).

(** Canonicalize of the [i] flag, on the ASCII letters.  Without the [u]
    flag a code unit above 127 never canonicalizes to one below 128, and
    every letter written in the patterns of the source is ASCII, so the
    comparisons made below agree with the full case table. *)
Definition canon (x : char) : char :=
  if in_range 97 122 x then x - 32 else x.

(** The lower-case form of an ASCII letter. *)
Definition lower (x : char) : char :=
  if in_range 65 90 x then x + 32 else x.

Local Close Scope N_scope.

(** ** Patterns *)

Inductive cls : Type :=
| CLit (c : char)            (* a literal character *)
| CRange (lo hi : char)      (* [lo-hi] *)
| CNot (c : char)            (* [^c] *)
| CSpace                     (* \s *)
| CAny.                      (* [\s\S] *)

Inductive atom : Type :=
| One (k : cls)              (* k *)
| Star (k : cls)             (* k*, greedy *)
| LazyStar (k : cls)         (* k*?, lazy *)
| WordB                      (* \b *)
| GOpen (n : nat)            (* opening parenthesis of group n *)
| GClose (n : nat)           (* closing parenthesis of group n *)
| Backref (n : nat).         (* \n *)

(** A pattern is a sequence of atoms: the patterns of the source have no
    alternation, and they quantify character classes only.  [k+] is [k]
    followed by [k*]. *)
Definition regex := list atom.

Definition ceq (ic : bool) (a b : char) : bool :=
  if ic then (canon a =? canon b)%N else (a =? b)%N.

Definition cls_match (ic : bool) (k : cls) (x : char) : bool :=
  match k with
  | CLit c => ceq ic c x
  | CRange lo hi =>
      if ic
      then in_range lo hi (canon x) || in_range lo hi (lower (canon x))
      else in_range lo hi x
  | CNot c => negb (ceq ic c x)
  | CSpace => is_space x
  | CAny => true
  end.

(** State of one group along one path of the matcher. *)
Inductive gstate : Type :=
| GNone                      (* not entered *)
| GRec (racc : str)          (* open: characters read so far, reversed *)
| GDone (v : str).           (* closed with value [v] *)

Definition groups : Type := nat -> gstate.

Definition gnone : groups := fun _ => GNone.

Definition gset (n : nat) (v : gstate) (g : groups) : groups :=
  fun m => if Nat.eqb m n then v else g m.

(** A character read while a group is open belongs to that group. *)
Definition gpush (x : char) (g : groups) : groups :=
  fun m => match g m with
           | GRec a => GRec (x :: a)
           | v => v
           end.

Definition gvalue (g : groups) (n : nat) : option str :=
  match g n with
  | GDone v => Some v
  | _ => None
  end.

(** [prev] is the character before the current position, for [\b]. *)
Definition at_boundary (prev : option char) (s : str) : bool :=
  let a := match prev with Some p => is_word p | None => false end in
  let b := match s with x :: _ => is_word x | [] => false end in
  xorb a b.

(** A successful match: the text matched, what follows it, the groups. *)
Definition mres : Type := str * str * groups.

Definition mcons (x : char) (r : option mres) : option mres :=
  match r with
  | Some (w, rest, g) => Some (x :: w, rest, g)
  | None => None
  end.

Section Quantifiers.
Variable ic : bool.
Variable k : cls.
(** the rest of the pattern *)
Variable cont : option char -> str -> groups -> option mres.

(** [k*]: one more character first, the rest of the pattern on failure. *)
Fixpoint star_greedy (prev : option char) (s : str) (g : groups)
  : option mres :=
  match s with
  | x :: s' =>
      if cls_match ic k x then
        match mcons x (star_greedy (Some x) s' (gpush x g)) with
        | Some r => Some r
        | None => cont prev s g
        end
      else cont prev s g
  | [] => cont prev s g
  end.

(** [k*?]: the rest of the pattern first, one more character on failure. *)
Fixpoint star_lazy (prev : option char) (s : str) (g : groups)
  : option mres :=
  match cont prev s g with
  | Some r => Some r
  | None =>
      match s with
      | x :: s' =>
          if cls_match ic k x
          then mcons x (star_lazy (Some x) s' (gpush x g))
          else None
      | [] => None
      end
  end.

(** A backreference: the captured text again, compared under
    Canonicalize. *)
Fixpoint backref (v : str) (prev : option char) (s : str) (g : groups)
  : option mres :=
  match v with
  | [] => cont prev s g
  | c :: v' =>
      match s with
      | x :: s' =>
          if ceq ic c x
          then mcons x (backref v' (Some x) s' (gpush x g))
          else None
      | [] => None
      end
  end.
End Quantifiers.

(** The backtracking matcher, anchored at the current position: the first
    success in the priority order of the ECMAScript semantics. *)
Fixpoint rmatch (ic : bool) (r : regex) (prev : option char) (s : str)
  (g : groups) {struct r} : option mres :=
  match r with
  | [] => Some ([], s, g)
  | One k :: r' =>
      match s with
      | x :: s' =>
          if cls_match ic k x
          then mcons x (rmatch ic r' (Some x) s' (gpush x g))
          else None
      | [] => None
      end
  | Star k :: r' => star_greedy ic k (rmatch ic r') prev s g
  | LazyStar k :: r' => star_lazy ic k (rmatch ic r') prev s g
  | WordB :: r' => if at_boundary prev s then rmatch ic r' prev s g else None
  | GOpen n :: r' => rmatch ic r' prev s (gset n (GRec []) g)
  | GClose n :: r' =>
      match g n with
      | GRec a => rmatch ic r' prev s (gset n (GDone (rev a)) g)
      | _ => rmatch ic r' prev s g
      end
  | Backref n :: r' =>
      match g n with
      | GDone v => backref ic (rmatch ic r') v prev s g
      | _ => rmatch ic r' prev s g
      end
  end.

(** One occurrence: the text skipped before it, match[0], the text after
    it and the groups match[1], match[2], ... *)
Record hit : Type := mkHit {
  h_pre : str;
  h_whole : str;
  h_rest : str;
  h_group : nat -> option str
}.

Definition hcons (x : char) (h : option hit) : option hit :=
  match h with
  | Some h => Some (mkHit (x :: h_pre h) (h_whole h) (h_rest h) (h_group h))
  | None => None
  end.

(** RegExpBuiltinExec: the leftmost position at which the pattern matches. *)
Fixpoint rsearch (ic : bool) (r : regex) (prev : option char) (s : str)
  : option hit :=
  match rmatch ic r prev s gnone with
  | Some (w, rest, g) => Some (mkHit [] w rest (gvalue g))
  | None =>
      match s with
      | [] => None
      | x :: s' => hcons x (rsearch ic r (Some x) s')
      end
  end.

Definition last_char (prev : option char) (w : str) : option char :=
  match rev w with
  | x :: _ => Some x
  | [] => prev
  end.

(** The [g] flag: search again from [lastIndex], the end of the previous
    match, until the search fails.  After an empty match [lastIndex] is
    advanced by one character, which [skipped] carries over to the text
    before the next occurrence (no pattern of the source matches the empty
    string).  The loop runs at most once per character: [fuel]. *)
Fixpoint exec_loop (fuel : nat) (ic : bool) (r : regex) (prev : option char)
  (skipped : str) (s : str) : list hit * str :=
  match fuel with
  | O => ([], skipped ++ s)
  | S fuel' =>
      match rsearch ic r prev s with
      | None => ([], skipped ++ s)
      | Some h =>
          let h' :=
            mkHit (skipped ++ h_pre h) (h_whole h) (h_rest h) (h_group h) in
          match h_whole h, h_rest h with
          | [], [] => ([h'], [])
          | [], x :: rest' =>
              let '(hs, tl) := exec_loop fuel' ic r (Some x) [x] rest' in
              (h' :: hs, tl)
          | w, rest =>
              let '(hs, tl) :=
                exec_loop fuel' ic r (last_char prev (h_pre h ++ w)) [] rest
              in (h' :: hs, tl)
          end
      end
  end.

Definition exec_all (ic : bool) (r : regex) (s : str) : list hit * str :=
  exec_loop (S (length s)) ic r None [] s.

(** ** String methods *)

(** [s.match(re)] for a pattern with the [g] flag: every match[0] (the
    source turns the null of "no match" into the empty array). *)
Definition match_all (ic : bool) (r : regex) (s : str) : list str :=
  map h_whole (fst (exec_all ic r s)).

(** [s.replace(re, rep)] for a pattern with the [g] flag and a replacement
    without dollar signs. *)
Definition replace_all (ic : bool) (r : regex) (rep : str) (s : str) : str :=
  let '(hs, tl) := exec_all ic r s in
  concat (map (fun h => h_pre h ++ rep) hs) ++ tl.

(** [s.split(re)] for a pattern without groups that cannot match the empty
    string: the texts between the occurrences and the text after the last. *)
Definition split_re (ic : bool) (r : regex) (s : str) : list str :=
  let '(hs, tl) := exec_all ic r s in
  map h_pre hs ++ [tl].

Fixpoint drop_space (s : str) : str :=
  match s with
  | x :: s' => if is_space x then drop_space s' else s
  | [] => []
  end.

(** [s.trim()] *)
Definition trim (s : str) : str := rev (drop_space (rev (drop_space s))).

(** [a.filter(Boolean)] on strings: the empty string is the falsy one. *)
Definition nonempty (s : str) : bool :=
  match s with
  | [] => false
  | _ :: _ => true
  end.

(** [a.join(sep)] *)
Fixpoint join (sep : str) (a : list str) : str :=
  match a with
  | [] => []
  | [x] => x
  | x :: a' => x ++ sep ++ join sep a'
  end.

Definition lit (a : ascii) : atom := One (CLit (ch a)).

Definition lits (s : str) : regex := map (fun c => One (CLit c)) s.

Definition space : str := js " ".

(** ** content_density_evaluator *)

(** [new RegExp(`<${tag}\\b[^>]*>([\\s\\S]*?)<\\/${tag}>`, "gi")]; the
    only tag the source passes is "p", whose letters stand for themselves
    in a pattern. *)
Definition tag_regex (tag : str) : regex :=
  lit "<" :: lits tag
  ++ [WordB; Star (CNot (ch ">")); lit ">";
      GOpen 1; LazyStar CAny; GClose 1; lit "<"; lit "/"]
  ++ lits tag ++ [lit ">"].

(** match[1] of an occurrence; in the patterns below group 1 takes part in
    every match. *)
Definition group1 (h : hit) : str :=
  match h_group h 1 with
  | Some v => v
  | None => []
  end.

Definition getTagContents (html tag : str) : list str :=
  map group1 (fst (exec_all true (tag_regex tag) html)).

(** /<[^>]*>/g *)
Definition re_markup : regex := [lit "<"; Star (CNot (ch ">")); lit ">"].

(** /\s+/g *)
Definition re_spaces : regex := [One CSpace; Star CSpace].

Definition stripTags (s : str) : str :=
  trim (replace_all false re_spaces space (replace_all false re_markup space s)).

(** /<img\b[^>]*>/gi *)
Definition re_img : regex :=
  [lit "<"; lit "i"; lit "m"; lit "g"; WordB; Star (CNot (ch ">")); lit ">"].

(** /<h[1-6]\b[^>]*>/gi *)
Definition re_heading_open : regex :=
  [lit "<"; lit "h"; One (CRange (ch "1") (ch "6")); WordB;
   Star (CNot (ch ">")); lit ">"].

Definition paragraphTexts (html : str) : list str :=
  filter nonempty (map stripTags (getTagContents html (js "p"))).

(** [p.split(/\s+/).filter(Boolean)] *)
Definition words (p : str) : list str :=
  filter nonempty (split_re false re_spaces p).

Definition wordCount (html : str) : nat :=
  length (words (join space (paragraphTexts html))).

Definition imageCount (html : str) : nat :=
  length (match_all true re_img html).

Definition headingCount (html : str) : nat :=
  length (match_all true re_heading_open html).

Definition paragraphWordCounts (html : str) : list nat :=
  map (fun p => length (words p)) (paragraphTexts html).

(** [a.reduce((a, b) => a + b, 0)] *)
Definition sum (a : list nat) : nat := fold_left Nat.add a 0%nat.

(** The counts are integers far below 2^53, on which the arithmetic of
    doubles is exact.  The quotient is kept as an exact rational.  It is
    only compared with 80 and 100 and rounded to an integer; when it
    differs from an integer or from a half-integer it does so by at least
    1/(2 * length), which is more than the rounding error of one division
    as long as the sum is below 2^52, so that the double takes the same
    side in each of these tests. *)
Definition avgParagraphLength (html : str) : Q :=
  let counts := paragraphWordCounts html in
  match length counts with
  | O => 0%Q
  | S _ =>
      (inject_Z (Z.of_nat (sum counts)) / inject_Z (Z.of_nat (length counts)))%Q
  end.

(** [x > y] *)
Definition Qgtb (x y : Q) : bool := negb (Qle_bool x y).

(** [Math.round]: the nearest integer, a half going up. *)
Definition round (x : Q) : Z := Qfloor (x + (1 # 2))%Q.

Local Open Scope Z_scope.

(** [scanabilityScore] after the three penalties, before the clamp. *)
Definition scanabilityPenalized (html : str) : Z :=
  let score := 100 in
  let score := if Qgtb (avgParagraphLength html) 100 then score - 20 else score in
  let score := if Nat.eqb (imageCount html) 0 then score - 20 else score in
  let score := if Nat.eqb (headingCount html) 0 then score - 20 else score in
  score.

Definition scanabilityScore (html : str) : Z :=
  let score := scanabilityPenalized html in
  if score <? 0 then 0 else score.

Definition density_notes (html : str) : list string :=
  let notes := [] in
  let notes :=
    if Qgtb (avgParagraphLength html) 80
    then notes ++ ["Paragraphs are long; consider splitting large blocks of text."%string]
    else notes ++ ["Paragraph length seems reasonable."%string] in
  let notes :=
    if Nat.eqb (imageCount html) 0
    then notes ++ ["No images found; consider adding supporting visuals."%string]
    else notes ++ ["Contains imagery to break up text."%string] in
  let notes :=
    if Nat.eqb (headingCount html) 0
    then notes ++ ["No headings found; add subheadings to improve scanning."%string]
    else notes ++ ["Has headings to guide the reader."%string] in
  notes.

Record density : Type := mkDensity {
  d_wordCount : nat;
  d_imageCount : nat;
  d_headingCount : nat;
  d_avgParagraphLength : Z;
  d_scanabilityScore : Z;
  d_notes : list string
}.

(** The record returned for the page text [html] (its [url] field repeats
    the argument of the call). *)
Definition content_density_evaluator (html : str) : density :=
  mkDensity (wordCount html) (imageCount html) (headingCount html)
    (round (avgParagraphLength html)) (scanabilityScore html)
    (density_notes html).

Local Close Scope Z_scope.

(** ** accessibility_surface_check *)

(** /<h1\b[^>]*>([\s\S]*?)<\/h1>/gi *)
Definition re_h1 : regex :=
  [lit "<"; lit "h"; lit "1"; WordB; Star (CNot (ch ">")); lit ">";
   GOpen 1; LazyStar CAny; GClose 1; lit "<"; lit "/"; lit "h"; lit "1";
   lit ">"].

Definition h1Count (html : str) : nat := length (match_all true re_h1 html).

(** [s.match(re)] for a pattern without the [g] flag: the first occurrence
    or null. *)
Definition match_first (ic : bool) (r : regex) (s : str) : option hit :=
  rsearch ic r None s.

(** /\balt\s*=\s*Q(V)Q/i, where Q is the double quote and V is [^Q]* *)
Definition re_alt_double : regex :=
  [WordB; lit "a"; lit "l"; lit "t"; Star CSpace; lit "="; Star CSpace;
   One (CLit dq); GOpen 1; Star (CNot dq); GClose 1; One (CLit dq)].

(** /\balt\s*=\s*Q(V)Q/i, where Q is the apostrophe and V is [^Q]* *)
Definition re_alt_single : regex :=
  [WordB; lit "a"; lit "l"; lit "t"; Star CSpace; lit "="; Star CSpace;
   One (CLit sq); GOpen 1; Star (CNot sq); GClose 1; One (CLit sq)].

(** The value of [altValue]; [None] is null. *)
Definition altValue (imgTag : str) : option str :=
  match match_first true re_alt_double imgTag with
  | Some altMatchDouble => Some (group1 altMatchDouble)
  | None =>
      match match_first true re_alt_single imgTag with
      | Some altMatchSingle => Some (group1 altMatchSingle)
      | None => None
      end
  end.

(** The test of the loop over [imgTags]. *)
Definition missing_alt (imgTag : str) : bool :=
  match altValue imgTag with
  | None => true
  | Some v => negb (nonempty (trim v))
  end.

Definition imgTags (html : str) : list str := match_all true re_img html.

Definition imagesMissingAlt (html : str) : nat :=
  fold_left (fun n imgTag => if missing_alt imgTag then S n else n)
    (imgTags html) 0%nat.

(** /<button\b[^>]*>([\s\S]*?)<\/button>/gi, and the same pattern with
    the flag [i] alone inside the loop. *)
Definition re_button : regex :=
  [lit "<"; lit "b"; lit "u"; lit "t"; lit "t"; lit "o"; lit "n"; WordB;
   Star (CNot (ch ">")); lit ">"; GOpen 1; LazyStar CAny; GClose 1;
   lit "<"; lit "/"; lit "b"; lit "u"; lit "t"; lit "t"; lit "o"; lit "n";
   lit ">"].

(** Every [btnMatch[0]]. *)
Definition buttonBlocks (html : str) : list str :=
  map h_whole (fst (exec_all true re_button html)).

Definition innerHtml (block : str) : str :=
  match rsearch true re_button None block with
  | Some innerMatch => group1 innerMatch
  | None => []
  end.

Definition visibleText (block : str) : str :=
  trim (replace_all false re_spaces space
          (replace_all false re_markup space (innerHtml block))).

(** /\baria-label\s*=\s*Q(V)Q/i, where Q is the double quote and V is
    [^Q]* *)
Definition re_aria_double : regex :=
  [WordB; lit "a"; lit "r"; lit "i"; lit "a"; lit "-"; lit "l"; lit "a";
   lit "b"; lit "e"; lit "l"; Star CSpace; lit "="; Star CSpace;
   One (CLit dq); GOpen 1; Star (CNot dq); GClose 1; One (CLit dq)].

(** /\baria-label\s*=\s*Q(V)Q/i, where Q is the apostrophe and V is
    [^Q]* *)
Definition re_aria_single : regex :=
  [WordB; lit "a"; lit "r"; lit "i"; lit "a"; lit "-"; lit "l"; lit "a";
   lit "b"; lit "e"; lit "l"; Star CSpace; lit "="; Star CSpace;
   One (CLit sq); GOpen 1; Star (CNot sq); GClose 1; One (CLit sq)].

Definition ariaVal (block : str) : option str :=
  match match_first true re_aria_double block with
  | Some ariaLabelMatchDouble => Some (group1 ariaLabelMatchDouble)
  | None =>
      match match_first true re_aria_single block with
      | Some ariaLabelMatchSingle => Some (group1 ariaLabelMatchSingle)
      | None => None
      end
  end.

(** [!s || s.length === 0] on a string, and on a string or null. *)
Definition blank (s : str) : bool := negb (nonempty s) || Nat.eqb (length s) 0.

Definition blank_or_null (v : option str) : bool :=
  match v with
  | None => true
  | Some s => blank s
  end.

(** The test of the loop over [buttonBlocks]. *)
Definition unlabeled (block : str) : bool :=
  blank (visibleText block) && blank_or_null (ariaVal block).

Definition unlabeledButtons (html : str) : nat :=
  fold_left (fun n block => if unlabeled block then S n else n)
    (buttonBlocks html) 0%nat.

(** /<(h[1-6])\b[^>]*>([\s\S]*?)<\/\1>/gi *)
Definition re_heading : regex :=
  [lit "<"; GOpen 1; lit "h"; One (CRange (ch "1") (ch "6")); GClose 1;
   WordB; Star (CNot (ch ">")); lit ">"; GOpen 2; LazyStar CAny; GClose 2;
   lit "<"; lit "/"; Backref 1; lit ">"].

Local Open Scope N_scope.

(** [toLowerCase], on the ASCII letters: the only text it is applied to is
    what (h[1-6]) matched. *)
Definition toLowerCase (s : str) : str := map lower s.

(** [s.replace("h", empty)]: the first "h" is removed. *)
Fixpoint remove_h (s : str) : str :=
  match s with
  | [] => []
  | x :: s' => if x =? ch "h" then s' else x :: remove_h s'
  end.

Definition digit (x : char) : option Z :=
  if in_range 48 57 x then Some (Z.of_N (x - 48)) else None.

Local Close Scope N_scope.
Local Open Scope Z_scope.

(** The decimal digits at the front of [s], read from the value [acc]. *)
Fixpoint digits (acc : Z) (s : str) : Z :=
  match s with
  | [] => acc
  | x :: s' =>
      match digit x with
      | Some d => digits (10 * acc + d) s'
      | None => acc
      end
  end.

(** A JavaScript number that may be NaN ([None]). *)
Definition number : Type := option Z.

(** [parseInt(s, 10)]: white space, a sign, then digits up to the first
    other character; NaN when there is no digit. *)
Definition parseInt (s : str) : number :=
  let s := drop_space s in
  let '(sign, s) :=
    match s with
    | x :: s' =>
        if (x =? ch "-")%N then (-1, s')
        else if (x =? ch "+")%N then (1, s')
        else (1, s)
    | [] => (1, s)
    end in
  match s with
  | x :: _ =>
      match digit x with
      | Some _ => Some (sign * digits 0 s)
      | None => None
      end
  | [] => None
  end.

Definition headingLevels (html : str) : list number :=
  map (fun hMatch =>
         let tagName := toLowerCase (group1 hMatch) in
         parseInt (remove_h tagName))
    (fst (exec_all true re_heading html)).

(** [curr - prev > 2]; a comparison with NaN is false. *)
Definition jump (prev curr : number) : bool :=
  match prev, curr with
  | Some p, Some c => c - p >? 2
  | _, _ => false
  end.

(** The loop [for (let i = 1; i < headingLevels.length; i++)]: [todo]
    iterations are left, [i] is the index and [issues] the counter.  An
    index read outside the array would give undefined, which is NaN in the
    subtraction. *)
Fixpoint order_loop (levels : list number) (todo i issues : nat) : nat :=
  match todo with
  | O => issues
  | S todo' =>
      let prev := nth (i - 1) levels None in
      let curr := nth i levels None in
      order_loop levels todo' (S i) (if jump prev curr then S issues else issues)
  end.

Definition count_jumps (levels : list number) : nat :=
  order_loop levels (length levels - 1) 1 0.

Definition headingOrderIssues (html : str) : nat :=
  count_jumps (headingLevels html).

Definition accessibilityScore (html : str) : Z :=
  let score := 100 in
  let score := if Nat.eqb (h1Count html) 0 then score - 10 else score in
  let score := if Nat.ltb 1 (h1Count html) then score - 10 else score in
  let score := score - Z.of_nat (imagesMissingAlt html) * 2 in
  let score := score - Z.of_nat (unlabeledButtons html) * 3 in
  let score := score - Z.of_nat (headingOrderIssues html) * 5 in
  if score <? 0 then 0 else score.

Record accessibility : Type := mkAccessibility {
  a_h1Count : nat;
  a_imagesMissingAlt : nat;
  a_unlabeledButtons : nat;
  a_headingOrderIssues : nat;
  a_accessibilityScore : Z
}.

(** The numeric fields of the record returned for the page text [html];
    its four notes only repeat the counts in words. *)
Definition accessibility_surface_check (html : str) : accessibility :=
  mkAccessibility (h1Count html) (imagesMissingAlt html)
    (unlabeledButtons html) (headingOrderIssues html)
    (accessibilityScore html).

Local Close Scope Z_scope.

(** ** The notes of accessibility_surface_check *)

(** The text of a count in a template literal: its decimal digits. *)
Definition decimal (n : nat) : str :=
  js (DecimalString.NilZero.string_of_uint (Nat.to_uint n)).

(** The characters of the notes that are not ASCII: the em dash, the white
    heavy check mark and the rightwards arrow. *)
Definition em_dash : char := 8212%N.
Definition check_mark : char := 9989%N.
Definition arrow : char := 8594%N.

Definition accessibility_notes (html : str) : list str :=
  let notes := [] in
  let notes :=
    if Nat.eqb (h1Count html) 0
    then notes ++ [js "No <h1> found " ++ [em_dash]
                   ++ js " every page should have a single main heading."]
    else if Nat.ltb 1 (h1Count html)
    then notes ++ [js "Multiple <h1> elements found " ++ [em_dash]
                   ++ js " usually you only want one."]
    else notes ++ [js "Single <h1> present " ++ [check_mark]] in
  let notes :=
    if Nat.ltb 0 (imagesMissingAlt html)
    then notes ++ [decimal (imagesMissingAlt html)
                   ++ js " image(s) missing alt text."]
    else notes ++ [js "All images appear to include alt text "
                   ++ [check_mark]] in
  let notes :=
    if Nat.ltb 0 (unlabeledButtons html)
    then notes ++ [decimal (unlabeledButtons html)
                   ++ js " <button> element(s) have no visible text or aria-label."]
    else notes ++ [js "All buttons appear to have labels or aria-labels "
                   ++ [check_mark]] in
  let notes :=
    if Nat.ltb 0 (headingOrderIssues html)
    then notes ++ [decimal (headingOrderIssues html)
                   ++ js " heading level jump(s) detected (e.g. h2 "
                   ++ [arrow] ++ js " h5)."]
    else notes ++ [js "Heading level progression mostly looks consistent "
                   ++ [check_mark]] in
  notes.

(** ** sgc_greeting *)




(** ** src/index.ts: getDaySegment and formatGreeting *)

Inductive DaySegment : Type :=
| early_morning | morning | forenoon | midday | afternoon | evening
| late_evening | night.

Local Open Scope Z_scope.

(** The segment of the hour [h] that [d.getHours()] gives: a whole number
    from 0 to 23, or NaN for an invalid date, with which every comparison is
    false. *)
Definition getDaySegment (h : number) : DaySegment :=
  let ge (n : Z) := match h with Some h => n <=? h | None => false end in
  let lt (n : Z) := match h with Some h => h <? n | None => false end in
  if ge 4 && lt 6 then early_morning
  else if ge 6 && lt 10 then morning
  else if ge 10 && lt 12 then forenoon
  else if ge 12 && lt 13 then midday
  else if ge 13 && lt 17 then afternoon
  else if ge 17 && lt 21 then evening
  else if ge 21 && lt 23 then late_evening
  else night.

Local Close Scope Z_scope.

(** [s] without the prefix [p], when it has it. *)
Fixpoint strip_prefix (p s : str) : option str :=
  match p with
  | [] => Some s
  | c :: p' =>
      match s with
      | x :: s' => if (c =? x)%N then strip_prefix p' s' else None
      | [] => None
      end
  end.

(** [s.indexOf(pat)]: the text before the first occurrence of [pat] and
    the text after it. *)
Fixpoint find_first (pat s : str) : option (str * str) :=
  match strip_prefix pat s with
  | Some rest => Some ([], rest)
  | None =>
      match s with
      | [] => None
      | x :: s' =>
          match find_first pat s' with
          | Some (before, after) => Some (x :: before, after)
          | None => None
          end
      end
  end.

(** GetSubstitution for a search string, which has no groups: "$$" is a
    dollar sign, "$&" the text found, "$`" the text before it, "$'" the
    text after it, and any other dollar sign stands for itself. *)
Fixpoint substitution (matched before after rep : str) : str :=
  match rep with
  | [] => []
  | c :: rep' =>
      if (c =? ch "$")%N then
        match rep' with
        | [] => [c]
        | d :: rep'' =>
            if (d =? ch "$")%N
            then ch "$" :: substitution matched before after rep''
            else if (d =? ch "&")%N
            then matched ++ substitution matched before after rep''
            else if (d =? ch "`")%N
            then before ++ substitution matched before after rep''
            else if (d =? sq)%N
            then after ++ substitution matched before after rep''
            else c :: substitution matched before after rep'
        end
      else c :: substitution matched before after rep'
  end.

(** [s.replace(pat, rep)] for two strings: the first occurrence only. *)
Definition replace_first (pat rep s : str) : str :=
  match find_first pat s with
  | Some (before, after) =>
      before ++ substitution pat before after rep ++ after
  | None => s
  end.

Definition formatGreeting (tpl name : str) : str :=
  replace_first (js "{name}") name tpl.

(** * Reference definitions *)

(** The definitions of this part do not come from the source: they say
    directly, without patterns, what the lemmas below prove the code to
    compute. *)

(** ** The normalizer and the word count, read off the text *)

(** The text after the first ">" of [s]. *)
Fixpoint after_gt (s : str) : option str :=
  match s with
  | [] => None
  | x :: s' => if (x =? ch ">")%N then Some s' else after_gt s'
  end.

Definition has_gt (s : str) : bool := existsb (fun x => (x =? ch ">")%N) s.

(** Every tag, from a "<" that has a ">" after it up to the first such ">",
    gives way to [rep]; [inside] tells that a tag is open. *)
Fixpoint markup_scan (rep : str) (inside : bool) (s : str) : str :=
  match s with
  | [] => []
  | x :: s' =>
      if inside then
        if (x =? ch ">")%N then rep ++ markup_scan rep false s'
        else markup_scan rep true s'
      else if (x =? ch "<")%N && has_gt s' then markup_scan rep true s'
      else x :: markup_scan rep false s'
  end.

(** Every run of white space gives way to [rep]; [in_ws] tells that the
    previous character was white space. *)
Fixpoint collapse_scan (rep : str) (in_ws : bool) (s : str) : str :=
  match s with
  | [] => []
  | x :: s' =>
      if is_space x then
        if in_ws then collapse_scan rep true s'
        else rep ++ collapse_scan rep true s'
      else x :: collapse_scan rep false s'
  end.

(** The white space at the end of [s] removed. *)
Fixpoint trim_end (s : str) : str :=
  match s with
  | [] => []
  | x :: s' =>
      match trim_end s' with
      | [] => if is_space x then [] else [x]
      | t => x :: t
      end
  end.

(** No "<" with a ">" somewhere after it: nothing a tag pattern matches. *)
Fixpoint notag (s : str) : bool :=
  match s with
  | [] => true
  | x :: s' => negb ((x =? ch "<")%N && has_gt s') && notag s'
  end.

Definition head_space (s : str) : bool :=
  match s with
  | x :: _ => is_space x
  | [] => false
  end.

(** Every white space character is a single space between two words or at
    an end of the text. *)
Fixpoint clean (s : str) : bool :=
  match s with
  | [] => true
  | x :: s' =>
      (if is_space x then (x =? 32)%N && negb (head_space s') else true)
      && clean s'
  end.

(** The number of maximal runs of characters other than white space;
    [in_tok] tells that the previous character belongs to a run. *)
Fixpoint count_tokens (in_tok : bool) (s : str) : nat :=
  match s with
  | [] => 0
  | x :: s' =>
      if is_space x then count_tokens false s'
      else ((if in_tok then 0 else 1) + count_tokens true s')%nat
  end.

Definition token_count (p : str) : nat := count_tokens false p.

(** The mean of a list of counts, 0 for the empty list. *)
Definition mean (l : list nat) : Q :=
  match l with
  | [] => 0%Q
  | _ :: _ =>
      (inject_Z (Z.of_nat (list_sum l)) / inject_Z (Z.of_nat (length l)))%Q
  end.

(** ** Attributes, read off the tag *)

(** [name], whatever the case of its letters, at the front of [s]: what
    follows it. *)
Fixpoint match_name (name s : str) : option str :=
  match name with
  | [] => Some s
  | c :: name' =>
      match s with
      | x :: s' => if ceq true c x then match_name name' s' else None
      | [] => None
      end
  end.

(** The text before the next [q]. *)
Fixpoint take_until (q : char) (s : str) : option str :=
  match s with
  | [] => None
  | x :: s' =>
      if ceq true q x then Some []
      else option_map (cons x) (take_until q s')
  end.

(** A value between two [q]. *)
Definition quoted_value (q : char) (s : str) : option str :=
  match s with
  | x :: s' => if ceq true q x then take_until q s' else None
  | [] => None
  end.

(** "=", white space or none, a quoted value. *)
Definition equals_value (q : char) (s : str) : option str :=
  match s with
  | x :: s' =>
      if ceq true (ch "=") x then quoted_value q (drop_space s') else None
  | [] => None
  end.

(** The token name = value at the front of [s]; any white space may
    surround the "=". *)
Definition attr_at (q : char) (name s : str) : option str :=
  match match_name name s with
  | Some s1 => equals_value q (drop_space s1)
  | None => None
  end.

(** The value of the leftmost such token that starts at a word boundary. *)
Fixpoint find_attr (q : char) (name : str) (prev : option char) (s : str)
  : option str :=
  match (if at_boundary prev s then attr_at q name s else None) with
  | Some v => Some v
  | None =>
      match s with
      | [] => None
      | x :: s' => find_attr q name (Some x) s'
      end
  end.

(** The attribute as the source reads it: a double-quoted token anywhere in
    the tag first, a single-quoted one otherwise. *)
Definition attribute (name tag : str) : option str :=
  match find_attr dq name None tag with
  | Some v => Some v
  | None => find_attr sq name None tag
  end.

(** The attribute called [name] in the sense of the data model: the token
    counts only when [name] is the whole name of the attribute, that is
    when white space comes before it. *)
Definition after_space (prev : option char) : bool :=
  match prev with
  | Some p => is_space p
  | None => false
  end.

Fixpoint find_named (q : char) (name : str) (prev : option char) (s : str)
  : option str :=
  match (if after_space prev then attr_at q name s else None) with
  | Some v => Some v
  | None =>
      match s with
      | [] => None
      | x :: s' => find_named q name (Some x) s'
      end
  end.

Definition named_attribute (name tag : str) : option str :=
  match find_named dq name None tag with
  | Some v => Some v
  | None => find_named sq name None tag
  end.

(** The patterns of the four attribute lookups. *)
Definition value_regex (q : char) : regex :=
  [One (CLit q); GOpen 1; Star (CNot q); GClose 1; One (CLit q)].

Definition attr_regex (q : char) (name : str) : regex :=
  WordB :: lits name ++ Star CSpace :: lit "=" :: Star CSpace :: value_regex q.

(** ** Heading levels and jumps *)

(** What (h[1-6]) captured, as [headingLevels] reads it. *)
Definition level_of (tag : str) : number :=
  parseInt (remove_h (toLowerCase tag)).

Definition is_level (l : number) : Prop :=
  exists k, l = Some k /\ (1 <= k <= 6)%Z.

(** The pairs of neighbours of a sequence, in order. *)
Fixpoint adjacent (l : list number) : list (number * number) :=
  match l with
  | [] => []
  | x :: t =>
      match t with
      | [] => []
      | y :: _ => (x, y) :: adjacent t
      end
  end.

Definition jumps (l : list number) : nat :=
  length (filter (fun pc => jump (fst pc) (snd pc)) (adjacent l)).

(** ** Reference readings of the specification *)

(** The normalizer in words: every tag gives way to [rep], every run of
    white space to one space, and the ends are trimmed.  With the empty
    [rep] the tags are deleted. *)
Definition normalize_with (rep : str) (s : str) : str :=
  trim_end (drop_space (collapse_scan space false (markup_scan rep false s))).

(** An image without a usable alt text: no alt token, or a value of white
    space only. *)
Definition lacks_alt (imgTag : str) : bool :=
  match attribute (js "alt") imgTag with
  | None => true
  | Some v => forallb is_space v
  end.

(** The same with the attribute called alt. *)
Definition lacks_named_alt (imgTag : str) : bool :=
  match named_attribute (js "alt") imgTag with
  | None => true
  | Some v => forallb is_space v
  end.

(** A button without a label: no visible text and no aria-label token, or
    an empty one. *)
Definition lacks_label (block : str) : bool :=
  negb (nonempty (normalize_with space (innerHtml block)))
  && match attribute (js "aria-label") block with
     | None => true
     | Some v => negb (nonempty v)
     end.

(** The same with the attribute called aria-label. *)
Definition lacks_named_label (block : str) : bool :=
  negb (nonempty (normalize_with space (innerHtml block)))
  && match named_attribute (js "aria-label") block with
     | None => true
     | Some v => negb (nonempty v)
     end.

(** ** Example pages *)

(** [s] between double quotes. *)
Definition quoted (s : string) : str := dq :: js s ++ [dq].

(** A paragraph of [n] one-letter words. *)
Definition paragraph_of (n : nat) : str :=
  js "<p>" ++ concat (repeat (js "a ") n) ++ js "</p>".

Definition img_no_alt : str := js "<img src=" ++ quoted "a.png" ++ js ">".

Definition img_empty_alt : str :=
  js "<img src=" ++ quoted "a.png" ++ js " alt=" ++ quoted EmptyString ++ js ">".

Definition img_alt_cat : str :=
  js "<img src=" ++ quoted "a.png" ++ js " alt=" ++ quoted "cat" ++ js ">".

Definition img_data_alt : str :=
  js "<img src=" ++ quoted "x.png" ++ js " data-alt=" ++ quoted "cat"
  ++ js ">".

Definition img_data_alt_underscore : str :=
  js "<img src=" ++ quoted "x.png" ++ js " data_alt=" ++ quoted "cat"
  ++ js ">".

Definition button_empty : str := js "<button></button>".

Definition button_aria : str :=
  js "<button aria-label=" ++ quoted "Close" ++ js "></button>".

Definition button_text : str := js "<button>Close</button>".

Definition button_data_aria : str :=
  js "<button data-aria-label=" ++ quoted "Close" ++ js "></button>".

Definition headings_125 : str := js "<h1>a</h1><h2>b</h2><h5>c</h5>".

Definition headings_123 : str := js "<h1>a</h1><h2>b</h2><h3>c</h3>".

(** ** Normal forms, tags and closing tags *)

(** A text the normalizer has nothing to do on: no tag, white space only as
    single spaces between words, none at either end. *)
Definition normal (t : str) : bool :=
  notag t && clean t && negb (head_space t) && negb (head_space (rev t)).

Definition has_lt (s : str) : bool := existsb (fun x => (x =? ch "<")%N) s.

Definition head_word (s : str) : bool :=
  match s with
  | x :: _ => is_word x
  | [] => false
  end.

(** "<", the letters i, m, g in either case, no letter, digit or underscore
    next, and a single ">", as the last character. *)
Definition is_img_tag (t : str) : bool :=
  match t with
  | x :: a :: b :: c :: rest =>
      (x =? ch "<")%N && ceq true (ch "i") a && ceq true (ch "m") b
      && ceq true (ch "g") c && negb (head_word rest)
      && match after_gt rest with
         | Some [] => true
         | _ => false
         end
  | _ => false
  end.

(** [s] starts with the closing tag of a paragraph, in either case. *)
Definition starts_close (s : str) : bool :=
  match s with
  | a :: b :: c :: d :: _ =>
      ceq true (ch "<") a && ceq true (ch "/") b && ceq true (ch "p") c
      && ceq true (ch ">") d
  | _ => false
  end.

(** The text before the first closing tag of [s], and the text from it on. *)
Fixpoint until_close (s : str) : option (str * str) :=
  if starts_close s then Some ([], s)
  else
    match s with
    | [] => None
    | x :: s' =>
        match until_close s' with
        | Some (a, b) => Some (x :: a, b)
        | None => None
        end
    end.

(** The content of a paragraph element: what lies between the first ">" of
    the element and the first closing tag after it; the closing tag itself
    is all that follows. *)
Definition content_of (whole : str) : option str :=
  match after_gt whole with
  | Some body =>
      match until_close body with
      | Some (inner, [_; _; _; _]) => Some inner
      | _ => None
      end
  | None => None
  end.

(** The last character of a note. *)
Definition last_of (s : str) : char := last s 0%N.

(** The hours of the segments, as the comments of the type give them. *)
Definition segment_table : list DaySegment :=
  [night; night; night; night; early_morning; early_morning;
   morning; morning; morning; morning; forenoon; forenoon; midday;
   afternoon; afternoon; afternoon; afternoon;
   evening; evening; evening; evening; late_evening; late_evening; night].

Definition has_char (c : char) (s : str) : bool :=
  existsb (fun x => (x =? c)%N) s.

(** ** Elements, read off the text *)

(** One scan of a text from left to right: where [at_front] finds an
    element at the front of the text, the scan keeps what it gives and goes
    on after the element; elsewhere it moves one character on.  Every step
    shortens the text, so that the fuel of [scan] is never used up. *)
Fixpoint scan_loop (A : Type) (at_front : str -> option (A * str))
  (fuel : nat) (s : str) : list A :=
  match fuel with
  | O => []
  | S fuel' =>
      match at_front s with
      | Some (a, rest) => a :: scan_loop at_front fuel' rest
      | None =>
          match s with
          | [] => []
          | _ :: s' => scan_loop at_front fuel' s'
          end
      end
  end.

Definition scan (A : Type) (at_front : str -> option (A * str)) (s : str)
  : list A :=
  scan_loop at_front (S (length s)) s.

(** An opening tag whose name has just been read goes on with [s]: no
    letter, digit or underscore continues the name, and the tag ends at the
    first ">".  The text after the tag. *)
Definition tag_end (s : str) : option str :=
  if head_word s then None else after_gt s.

(** The closing tag of [name], "<", "/", the name in either case of its
    letters, ">", at the front of [s]: the text after it. *)
Definition closing_tag (name s : str) : option str :=
  match s with
  | a :: b :: s' =>
      if (a =? ch "<")%N && (b =? ch "/")%N then
        match match_name name s' with
        | Some (c :: rest) => if (c =? ch ">")%N then Some rest else None
        | _ => None
        end
      else None
  | _ => None
  end.

(** The text before the first closing tag of [name] in [s], and the text
    after that tag. *)
Fixpoint until_closing (name s : str) : option (str * str) :=
  match closing_tag name s with
  | Some rest => Some ([], rest)
  | None =>
      match s with
      | [] => None
      | x :: s' =>
          match until_closing name s' with
          | Some (inner, rest) => Some (x :: inner, rest)
          | None => None
          end
      end
  end.

(** A paragraph element at the front of [s]: an opening tag p or P, then
    the content up to the first closing tag of p.  The content, and the
    text after the element. *)
Definition paragraph_at (s : str) : option (str * str) :=
  match s with
  | x :: c :: s' =>
      if (x =? ch "<")%N && ((c =? ch "p")%N || (c =? ch "P")%N) then
        match tag_end s' with
        | Some body => until_closing (js "p") body
        | None => None
        end
      else None
  | _ => None
  end.

(** A heading element at the front of [s]: an opening tag h1 to h6, in
    either case of the letter, then the content up to the first closing tag
    of the same level.  The level, and the text after the element. *)
Definition heading_at (s : str) : option (Z * str) :=
  match s with
  | x :: c1 :: c2 :: s' =>
      if (x =? ch "<")%N && ((c1 =? ch "h")%N || (c1 =? ch "H")%N)
         && ((49 <=? c2)%N && (c2 <=? 54)%N) then
        match tag_end s' with
        | Some body =>
            match until_closing [c1; c2] body with
            | Some (_, rest) => Some (Z.of_N (c2 - 48), rest)
            | None => None
            end
        | None => None
        end
      else None
  | _ => None
  end.

(** An opening heading tag at the front of [s], closed or not: its level,
    and the text after the tag. *)
Definition heading_tag_at (s : str) : option (Z * str) :=
  match s with
  | x :: c1 :: c2 :: s' =>
      if (x =? ch "<")%N && ((c1 =? ch "h")%N || (c1 =? ch "H")%N)
         && ((49 <=? c2)%N && (c2 <=? 54)%N) then
        match tag_end s' with
        | Some rest => Some (Z.of_N (c2 - 48), rest)
        | None => None
        end
      else None
  | _ => None
  end.

(** An img tag at the front of [s]: the text after the tag. *)
Definition img_tag_at (s : str) : option (unit * str) :=
  match s with
  | x :: a :: b :: c :: s' =>
      if (x =? ch "<")%N && ((a =? ch "i")%N || (a =? ch "I")%N)
         && ((b =? ch "m")%N || (b =? ch "M")%N)
         && ((c =? ch "g")%N || (c =? ch "G")%N) then
        match tag_end s' with
        | Some rest => Some (tt, rest)
        | None => None
        end
      else None
  | _ => None
  end.

(** The paragraphs as the specification words them: the contents of the p
    elements, normalized with [rep] in the place of every tag, the empty
    results left out. *)
Definition paragraphs_with (rep : str) (html : str) : list str :=
  filter nonempty (map (normalize_with rep) (scan paragraph_at html)).

(** The levels of the heading elements and those of the heading tags, in
    document order. *)
Definition heading_element_levels (html : str) : list number :=
  map Some (scan heading_at html).

Definition heading_tag_levels (html : str) : list number :=
  map Some (scan heading_tag_at html).

(** A paragraph of 101 words that only line breaks separate. *)
Definition breaks_101 : str :=
  js "<p>" ++ concat (repeat (js "a<br>") 101) ++ js "</p>".

(** An h3 that is never closed between an h1 and an h5, and an h5 inside an
    h1. *)
Definition headings_unclosed : str := js "<h1>a</h1><h3>b<h5>c</h5>".

Definition headings_nested : str := js "<h1>Title <h5>sub</h5></h1>".

(** ** Auxiliary notions of the proofs *)

Definition splits (cont : option char -> str -> groups -> option mres) : Prop :=
  forall prev s g w rest g',
    cont prev s g = Some (w, rest, g') -> s = w ++ rest.

Definition touches (n : nat) (r : regex) : bool :=
  existsb (fun a => match a with
                    | GOpen m | GClose m => Nat.eqb m n
                    | _ => false
                    end) r.

Definition keeps (n : nat) (v : str)
  (cont : option char -> str -> groups -> option mres) : Prop :=
  forall prev s g w rest g',
    g n = GDone v -> cont prev s g = Some (w, rest, g') -> g' n = GDone v.

(** match[1] of a success of the matcher. *)
Definition value_of (r : option mres) : option str :=
  match r with
  | Some (_, _, g) =>
      Some (match gvalue g 1 with Some v => v | None => [] end)
  | None => None
  end.

(** The loop started in the middle of a text, with enough fuel. *)
Definition exec_from (ic : bool) (r : regex) (prev : option char)
  (sk s : str) : list hit * str :=
  exec_loop (S (length s)) ic r prev sk s.

(** An occurrence-free prefix moves into the text before the first
    occurrence, or into the tail when there is none. *)
Definition prepend (sk : str) (p : list hit * str) : list hit * str :=
  match p with
  | ([], tl) => ([], sk ++ tl)
  | (h :: hs, tl) =>
      (mkHit (sk ++ h_pre h) (h_whole h) (h_rest h) (h_group h) :: hs, tl)
  end.

(** The text built by [replace]. *)
Definition render (rep : str) (p : list hit * str) : str :=
  concat (map (fun h => h_pre h ++ rep) (fst p)) ++ snd p.

(** [replace] started in the middle of a text. *)
Definition replace_from (ic : bool) (r : regex) (rep : str)
  (prev : option char) (s : str) : str :=
  render rep (exec_from ic r prev [] s).

(** The array built by [split]. *)
Definition pieces (p : list hit * str) : list str :=
  map h_pre (fst p) ++ [snd p].

(** An opening heading tag starts [s]: "<", h, a digit from 1 to 6, no
    letter, digit or underscore next, and a ">" somewhere after. *)
Definition opens_heading (s : str) : bool :=
  match s with
  | x :: c1 :: c2 :: s3 =>
      ceq true (ch "<") x && ceq true (ch "h") c1
      && cls_match true (CRange (ch "1") (ch "6")) c2
      && at_boundary (Some c2) s3 && has_gt s3
  | _ => false
  end.

(** The pattern reads a character after every [\b]: where it does, no
    [\b] is tested at the end of the text matched. *)
Definition consuming (r : regex) : bool :=
  existsb (fun a => match a with One _ => true | _ => false end) r.

Fixpoint safe (r : regex) : bool :=
  match r with
  | [] => true
  | WordB :: r' => consuming r' && safe r'
  | _ :: r' => safe r'
  end.

(** A matcher that does not look behind the text it matches: a match that
    ends inside [s1] is found on [s1] alone, and a match on [s1] alone is
    not lost when more text follows. *)
Definition local (f : option char -> str -> groups -> option mres) : Prop :=
  forall prev s1 s2 g,
    (forall w rest g',
        f prev (s1 ++ s2) g = Some (w, rest, g') ->
        (length w <= length s1)%nat ->
        exists t, f prev s1 g = Some (w, t, g'))
    /\ (f prev s1 g <> None -> f prev (s1 ++ s2) g <> None).

Definition consumes (f : option char -> str -> groups -> option mres) : Prop :=
  forall prev s g w rest g', f prev s g = Some (w, rest, g') -> w <> [].

(** The end of the pattern of a paragraph, from the closing parenthesis of
    the group on. *)
Definition re_close_p : regex :=
  [GClose 1; lit "<"; lit "/"; lit "p"; lit ">"].

(** The groups after the characters of [a] have been read. *)
Fixpoint gpushes (a : str) (g : groups) : groups :=
  match a with
  | [] => g
  | x :: a' => gpushes a' (gpush x g)
  end.

(** A match that comes after the text [a]. *)
Definition mapp (a : str) (r : option mres) : option mres :=
  match r with
  | Some (w, rest, g) => Some (a ++ w, rest, g)
  | None => None
  end.

(** What a success of the matcher hands to the loop: match[1], and the
    level that [headingLevels] reads in it. *)
Definition first_group (grp : nat -> option str) : str :=
  match grp 1%nat with
  | Some v => v
  | None => []
  end.

Definition group_level (grp : nat -> option str) : number :=
  parseInt (remove_h (toLowerCase (first_group grp))).

(** * Properties *)

(** ** The matcher consumes a prefix of its input *)

Lemma mcons_some (x : char) (r : option mres) w rest g :
  mcons x r = Some (w, rest, g) ->
  exists w', w = x :: w' /\ r = Some (w', rest, g).
Proof.
  destruct r as [[[w0 rest0] g0]|]; simpl; intros H; [|discriminate].
  injection H as <- <- <-. eauto.
Qed.

Section QuantifierSplits.
Variable ic : bool.
Variable k : cls.
Variable cont : option char -> str -> groups -> option mres.
Hypothesis Hcont : splits cont.

Lemma star_greedy_splits : splits (star_greedy ic k cont).
Proof.
  intros prev s; revert prev.
  induction s as [|x s IH]; intros prev g w rest g' H; simpl in H.
  - eauto.
  - destruct (cls_match ic k x); [|eauto].
    destruct (mcons x (star_greedy ic k cont (Some x) s (gpush x g)))
      as [r|] eqn:E; [|eauto].
    injection H as ->.
    apply mcons_some in E as (w' & -> & E).
    apply IH in E. simpl. now f_equal.
Qed.

Lemma star_lazy_splits : splits (star_lazy ic k cont).
Proof.
  intros prev s; revert prev.
  induction s as [|x s IH]; intros prev g w rest g' H; simpl in H.
  - destruct (cont prev [] g) as [r|] eqn:E; [|discriminate].
    injection H as ->. eauto.
  - destruct (cont prev (x :: s) g) as [r|] eqn:E.
    + injection H as ->. eauto.
    + destruct (cls_match ic k x); [|discriminate].
      apply mcons_some in H as (w' & -> & H).
      apply IH in H. simpl. now f_equal.
Qed.

Lemma backref_splits (v : str) : splits (backref ic cont v).
Proof.
  induction v as [|c v IH]; intros prev s g w rest g' H; simpl in H.
  - eauto.
  - destruct s as [|x s]; [discriminate|].
    destruct (ceq ic c x); [|discriminate].
    apply mcons_some in H as (w' & -> & H).
    apply IH in H. simpl. now f_equal.
Qed.
End QuantifierSplits.

Lemma rmatch_splits (ic : bool) (r : regex) : splits (rmatch ic r).
Proof.
  induction r as [|a r IH]; intros prev s g w rest g' H.
  - simpl in H. now injection H as <- <- <-.
  - destruct a as [k|k|k| |n|n|n]; simpl in H.
    + destruct s as [|x s]; [discriminate|].
      destruct (cls_match ic k x); [|discriminate].
      apply mcons_some in H as (w' & -> & H).
      apply IH in H. simpl. now f_equal.
    + eapply star_greedy_splits; eauto.
    + eapply star_lazy_splits; eauto.
    + destruct (at_boundary prev s); [eauto|discriminate].
    + eauto.
    + destruct (g n); eauto.
    + destruct (g n); eauto. eapply backref_splits; eauto.
Qed.

Lemma hcons_some (x : char) (o : option hit) (h : hit) :
  hcons x o = Some h ->
  exists h0, o = Some h0 /\
    h = mkHit (x :: h_pre h0) (h_whole h0) (h_rest h0) (h_group h0).
Proof.
  destruct o as [h0|]; simpl; intros H; [|discriminate].
  injection H as <-. eauto.
Qed.

Lemma rsearch_splits (ic : bool) (r : regex) (prev : option char) (s : str)
  (h : hit) :
  rsearch ic r prev s = Some h -> s = h_pre h ++ h_whole h ++ h_rest h.
Proof.
  revert prev h.
  induction s as [|x s IH]; intros prev h H; simpl in H.
  - destruct (rmatch ic r prev [] gnone) as [[[w rest] g]|] eqn:E;
      [|discriminate].
    injection H as <-. simpl. eapply rmatch_splits; eauto.
  - destruct (rmatch ic r prev (x :: s) gnone) as [[[w rest] g]|] eqn:E.
    + injection H as <-. simpl. eapply rmatch_splits; eauto.
    + apply hcons_some in H as (h0 & H & ->). simpl.
      f_equal. eauto.
Qed.

(** ** The loop of the [g] flag *)

(** A pattern that starts with a character never matches the empty text:
    this is why the [while] loops around [exec] in the source end. *)
Lemma rmatch_one_nonempty (ic : bool) (k : cls) (r : regex)
  (prev : option char) (s : str) (g : groups) (w rest : str) (g' : groups) :
  rmatch ic (One k :: r) prev s g = Some (w, rest, g') -> w <> [].
Proof.
  simpl. destruct s as [|x s]; [discriminate|].
  destruct (cls_match ic k x); [|discriminate].
  intros H. apply mcons_some in H as (w' & -> & _). discriminate.
Qed.

(** Any fuel above the length of the text gives the same occurrences: the
    loop of [exec_all] ends because the search fails, never for want of
    fuel. *)
Lemma exec_loop_fuel (ic : bool) (r : regex) (f1 f2 : nat) :
  forall prev sk s,
    (length s < f1)%nat -> (length s < f2)%nat ->
    exec_loop f1 ic r prev sk s = exec_loop f2 ic r prev sk s.
Proof.
  revert f2.
  induction f1 as [|f1 IH]; intros f2 prev sk s H1 H2; [lia|].
  destruct f2 as [|f2]; [lia|].
  simpl.
  destruct (rsearch ic r prev s) as [h|] eqn:E; [|reflexivity].
  apply rsearch_splits in E.
  assert (L : length s = (length (h_pre h) + (length (h_whole h) + length (h_rest h)))%nat)
    by (rewrite E at 1; now rewrite !length_app).
  destruct (h_whole h) as [|y w]; destruct (h_rest h) as [|x rest];
    try reflexivity; simpl in L.
  - rewrite (IH f2); [reflexivity|lia..].
  - rewrite (IH f2); [reflexivity|simpl; lia..].
  - rewrite (IH f2); [reflexivity|simpl; lia..].
Qed.

Lemma last_char_cons (prev : option char) (x : char) (l : str) :
  last_char prev (x :: l) = last_char (Some x) l.
Proof.
  unfold last_char. simpl.
  destruct (rev l) as [|y t]; reflexivity.
Qed.

Section Positions.
Variable ic : bool.
Variable r : regex.

Lemma exec_loop_skip (f : nat) (prev : option char) (sk : str)
  (x : char) (s : str) :
  rmatch ic r prev (x :: s) gnone = None ->
  exec_loop f ic r prev sk (x :: s)
  = exec_loop f ic r (Some x) (sk ++ [x]) s.
Proof.
  intros H. destruct f as [|f]; simpl.
  - now rewrite <- app_assoc.
  - rewrite H.
    destruct (rsearch ic r (Some x) s) as [h|]; simpl.
    + rewrite <- app_assoc. simpl.
      destruct (h_whole h) as [|y w]; destruct (h_rest h) as [|z rest];
        try reflexivity.
      * simpl. now rewrite !last_char_cons.
      * simpl. now rewrite !last_char_cons.
    + now rewrite <- app_assoc.
Qed.

Lemma exec_from_nil (prev : option char) (sk : str) :
  rmatch ic r prev [] gnone = None ->
  exec_from ic r prev sk [] = ([], sk).
Proof.
  intros H. unfold exec_from. simpl. rewrite H. now rewrite app_nil_r.
Qed.

Lemma exec_from_skip (prev : option char) (sk : str) (x : char) (s : str) :
  rmatch ic r prev (x :: s) gnone = None ->
  exec_from ic r prev sk (x :: s) = exec_from ic r (Some x) (sk ++ [x]) s.
Proof.
  intros H. unfold exec_from. rewrite exec_loop_skip by assumption.
  apply exec_loop_fuel; simpl; lia.
Qed.

Lemma exec_loop_hit (f : nat) (prev : option char) (sk s w rest : str)
  (g : groups) :
  rmatch ic r prev s gnone = Some (w, rest, g) -> w <> [] ->
  exec_loop (S f) ic r prev sk s
  = (mkHit sk w rest (gvalue g)
       :: fst (exec_loop f ic r (last_char prev w) [] rest),
     snd (exec_loop f ic r (last_char prev w) [] rest)).
Proof.
  intros H Hw.
  assert (E : rsearch ic r prev s = Some (mkHit [] w rest (gvalue g)))
    by (destruct s; simpl; now rewrite H).
  cbn [exec_loop]. rewrite E. cbn [h_whole h_rest h_pre h_group].
  rewrite app_nil_r.
  destruct w as [|y w]; [easy|]. cbn [app].
  destruct (exec_loop f ic r (last_char prev (y :: w)) [] rest).
  reflexivity.
Qed.

Lemma exec_from_hit (prev : option char) (sk s w rest : str) (g : groups) :
  rmatch ic r prev s gnone = Some (w, rest, g) -> w <> [] ->
  exec_from ic r prev sk s
  = (mkHit sk w rest (gvalue g)
       :: fst (exec_from ic r (last_char prev w) [] rest),
     snd (exec_from ic r (last_char prev w) [] rest)).
Proof.
  intros H Hw. unfold exec_from.
  rewrite (@exec_loop_hit (length s) prev sk s w rest g H Hw).
  apply rmatch_splits in H.
  assert (L : (length rest < length s)%nat).
  { subst s. rewrite length_app. destruct w; [easy|simpl; lia]. }
  now rewrite (exec_loop_fuel ic r (f1 := length s) (f2 := S (length rest)))
    by lia.
Qed.
End Positions.

(** The occurrences lie in the text in the order in which the loop finds
    them, without overlap: the text is the occurrences, each after the text
    skipped before it, followed by the tail. *)
Lemma exec_loop_partition (ic : bool) (r : regex) (f : nat) :
  forall prev sk s,
    concat (map (fun h => h_pre h ++ h_whole h)
              (fst (exec_loop f ic r prev sk s)))
    ++ snd (exec_loop f ic r prev sk s) = sk ++ s.
Proof.
  induction f as [|f IH]; intros prev sk s; simpl; [reflexivity|].
  destruct (rsearch ic r prev s) as [h|] eqn:E; [|reflexivity].
  apply rsearch_splits in E. rewrite E. clear E.
  destruct (h_whole h) as [|y w]; destruct (h_rest h) as [|x rest].
  - simpl. now rewrite !app_nil_r.
  - specialize (IH (Some x) [x] rest).
    destruct (exec_loop f ic r (Some x) [x] rest) as [hs tl].
    simpl in *. rewrite <- !app_assoc. simpl. now rewrite IH.
  - specialize (IH (last_char prev (h_pre h ++ y :: w)) [] []).
    destruct (exec_loop f ic r (last_char prev (h_pre h ++ y :: w)) [] [])
      as [hs tl].
    simpl in *. rewrite <- !app_assoc. simpl. now rewrite IH.
  - specialize (IH (last_char prev (h_pre h ++ y :: w)) [] (x :: rest)).
    destruct (exec_loop f ic r (last_char prev (h_pre h ++ y :: w)) []
                (x :: rest)) as [hs tl].
    simpl in *. rewrite <- !app_assoc. simpl. now rewrite IH.
Qed.

(** The occurrences come from successful matches: what holds of every
    success of the matcher holds of every occurrence. *)
Lemma exec_loop_hits (ic : bool) (r : regex) (P : str -> (nat -> option str) -> Prop) :
  (forall prev s w rest g,
      rmatch ic r prev s gnone = Some (w, rest, g) -> P w (gvalue g)) ->
  forall f prev sk s,
    Forall (fun h => P (h_whole h) (h_group h)) (fst (exec_loop f ic r prev sk s)).
Proof.
  intros HP.
  assert (S1 : forall s prev h, rsearch ic r prev s = Some h ->
                                P (h_whole h) (h_group h)).
  { induction s as [|x s IH]; intros prev h H; simpl in H.
    - destruct (rmatch ic r prev [] gnone) as [[[w rest] g]|] eqn:E;
        [|discriminate].
      injection H as <-. simpl. eauto.
    - destruct (rmatch ic r prev (x :: s) gnone) as [[[w rest] g]|] eqn:E.
      + injection H as <-. simpl. eauto.
      + apply hcons_some in H as (h0 & H & ->). simpl. eauto. }
  induction f as [|f IH]; intros prev sk s; simpl; [constructor|].
  destruct (rsearch ic r prev s) as [h|] eqn:E; [|constructor].
  apply S1 in E.
  destruct (h_whole h) as [|y w]; destruct (h_rest h) as [|x rest].
  - constructor; [exact E|constructor].
  - specialize (IH (Some x) [x] rest).
    destruct (exec_loop f ic r (Some x) [x] rest) as [hs tl].
    constructor; [exact E|exact IH].
  - specialize (IH (last_char prev (h_pre h ++ y :: w)) [] []).
    destruct (exec_loop f ic r (last_char prev (h_pre h ++ y :: w)) [] [])
      as [hs tl].
    constructor; [exact E|exact IH].
  - specialize (IH (last_char prev (h_pre h ++ y :: w)) [] (x :: rest)).
    destruct (exec_loop f ic r (last_char prev (h_pre h ++ y :: w)) []
                (x :: rest)) as [hs tl].
    constructor; [exact E|exact IH].
Qed.

Lemma length_induction (P : str -> Prop) :
  (forall s, (forall t, (length t < length s)%nat -> P t) -> P s) ->
  forall s, P s.
Proof.
  intros H s.
  assert (G : forall n t, (length t < n)%nat -> P t).
  { induction n as [|n IH]; intros t L; [lia|].
    apply H. intros u Lu. apply IH. lia. }
  apply (G (S (length s))). lia.
Qed.

Lemma exec_loop_prepend (ic : bool) (r : regex) (f : nat)
  (prev : option char) (sk s : str) :
  exec_loop f ic r prev sk s = prepend sk (exec_loop f ic r prev [] s).
Proof.
  destruct f as [|f]; simpl; [reflexivity|].
  destruct (rsearch ic r prev s) as [h|]; [|reflexivity].
  destruct (h_whole h) as [|y w]; destruct (h_rest h) as [|x rest]; simpl.
  - reflexivity.
  - destruct (exec_loop f ic r (Some x) [x] rest); reflexivity.
  - destruct (exec_loop f ic r (last_char prev (h_pre h ++ y :: w)) [] []);
      reflexivity.
  - destruct (exec_loop f ic r (last_char prev (h_pre h ++ y :: w)) []
                (x :: rest)); reflexivity.
Qed.

Lemma replace_all_render (ic : bool) (r : regex) (rep s : str) :
  replace_all ic r rep s = render rep (exec_from ic r None [] s).
Proof.
  unfold replace_all, exec_all, exec_from, render.
  destruct (exec_loop (S (length s)) ic r None [] s); reflexivity.
Qed.

Lemma render_prepend (rep sk : str) (p : list hit * str) :
  render rep (prepend sk p) = sk ++ render rep p.
Proof.
  destruct p as [[|h hs] tl]; unfold render; simpl.
  - reflexivity.
  - now rewrite <- !app_assoc.
Qed.

Section Replace.
Variable ic : bool.
Variable r : regex.
Variable rep : str.

Lemma replace_from_nil (prev : option char) :
  rmatch ic r prev [] gnone = None -> replace_from ic r rep prev [] = [].
Proof.
  intros H. unfold replace_from. now rewrite exec_from_nil.
Qed.

Lemma replace_from_skip (prev : option char) (x : char) (s : str) :
  rmatch ic r prev (x :: s) gnone = None ->
  replace_from ic r rep prev (x :: s) = x :: replace_from ic r rep (Some x) s.
Proof.
  intros H. unfold replace_from.
  rewrite exec_from_skip by assumption.
  unfold exec_from. rewrite exec_loop_prepend, render_prepend.
  reflexivity.
Qed.

Lemma replace_from_hit (prev : option char) (s w rest : str) (g : groups) :
  rmatch ic r prev s gnone = Some (w, rest, g) -> w <> [] ->
  replace_from ic r rep prev s = rep ++ replace_from ic r rep (last_char prev w) rest.
Proof.
  intros H Hw. unfold replace_from.
  rewrite (@exec_from_hit ic r prev [] s w rest g H Hw).
  unfold render. simpl. now rewrite <- app_assoc.
Qed.
End Replace.

(** ** Markup removal and white space *)

Lemma has_gt_after (s : str) :
  has_gt s = match after_gt s with Some _ => true | None => false end.
Proof.
  induction s as [|x s IH]; simpl; [reflexivity|].
  destruct (x =? ch ">")%N; simpl; [reflexivity|exact IH].
Qed.

Lemma after_gt_length (s rest : str) :
  after_gt s = Some rest -> (length rest < length s)%nat.
Proof.
  revert rest. induction s as [|x s IH]; intros rest H; simpl in *.
  - discriminate.
  - destruct (x =? ch ">")%N.
    + injection H as <-. lia.
    + apply IH in H. lia.
Qed.

Lemma markup_scan_inside (rep s rest : str) :
  after_gt s = Some rest ->
  markup_scan rep true s = rep ++ markup_scan rep false rest.
Proof.
  revert rest. induction s as [|x s IH]; intros rest H; simpl in *.
  - discriminate.
  - destruct (x =? ch ">")%N.
    + now injection H as <-.
    + eauto.
Qed.

(** [^>]*> from the current position. *)
Lemma star_to_gt (prev : option char) (s : str) (g : groups) :
  match star_greedy false (CNot (ch ">")) (rmatch false [lit ">"]) prev s g with
  | Some (_, rest, _) => after_gt s = Some rest
  | None => after_gt s = None
  end.
Proof.
  revert prev g. induction s as [|x s IH]; intros prev g.
  - reflexivity.
  - cbn [star_greedy after_gt cls_match ceq].
    rewrite (N.eqb_sym (ch ">") x).
    destruct (x =? ch ">")%N eqn:E; cbn [negb].
    + cbn [rmatch lit cls_match ceq mcons].
      rewrite (N.eqb_sym (ch ">") x), E. reflexivity.
    + specialize (IH (Some x) (gpush x g)).
      destruct (star_greedy false (CNot (ch ">")) (rmatch false [lit ">"])
                  (Some x) s (gpush x g)) as [[[w rest] g']|]; cbn [mcons].
      * exact IH.
      * cbn [rmatch lit cls_match ceq mcons].
        rewrite (N.eqb_sym (ch ">") x), E. exact IH.
Qed.

Lemma rmatch_markup (prev : option char) (s : str) (g : groups) :
  match rmatch false re_markup prev s g with
  | Some (w, rest, _) =>
      w <> [] /\ exists s', s = ch "<" :: s' /\ after_gt s' = Some rest
  | None =>
      match s with
      | [] => True
      | x :: s' => (x =? ch "<")%N && has_gt s' = false
      end
  end.
Proof.
  destruct s as [|x s]; [exact I|].
  unfold re_markup.
  change (rmatch false [lit "<"; Star (CNot (ch ">")); lit ">"] prev (x :: s) g)
    with (if (ch "<" =? x)%N
          then mcons x (star_greedy false (CNot (ch ">"))
                          (rmatch false [lit ">"]) (Some x) s (gpush x g))
          else None).
  rewrite (N.eqb_sym (ch "<") x).
  destruct (x =? ch "<")%N eqn:E; [|reflexivity].
  apply N.eqb_eq in E. subst x.
  pose proof (star_to_gt (Some (ch "<")) s (gpush (ch "<") g)) as H.
  rewrite has_gt_after.
  destruct (star_greedy false (CNot (ch ">")) (rmatch false [lit ">"])
              (Some (ch "<")) s (gpush (ch "<") g)) as [[[w rest] g']|];
    cbn [mcons andb].
  - split; [discriminate|]. eauto.
  - now rewrite H.
Qed.

(** [s.replace(/<[^>]*>/g, rep)] is the scan that drops the tags. *)
Lemma replace_markup (rep s : str) :
  replace_all false re_markup rep s = markup_scan rep false s.
Proof.
  rewrite replace_all_render. fold (replace_from false re_markup rep None s).
  generalize (@None char) as prev.
  induction s as [s IH] using length_induction. intros prev.
  pose proof (rmatch_markup prev s gnone) as H.
  destruct (rmatch false re_markup prev s gnone) as [[[w rest] g']|] eqn:E.
  - destruct H as (Hw & s' & -> & Hgt).
    rewrite (@replace_from_hit false re_markup rep prev _ w rest g' E Hw). simpl.
    rewrite has_gt_after, Hgt.
    rewrite (markup_scan_inside rep _ Hgt). f_equal.
    apply IH. apply after_gt_length in Hgt. simpl. lia.
  - destruct s as [|x s].
    + now rewrite replace_from_nil.
    + rewrite replace_from_skip by assumption. simpl. rewrite H.
      f_equal. apply IH. simpl. lia.
Qed.

(** \s* at the end of a pattern takes the whole run of white space. *)
Lemma star_space (prev : option char) (s : str) (g : groups) :
  exists w g',
    star_greedy false CSpace (rmatch false []) prev s g
    = Some (w, drop_space s, g').
Proof.
  revert prev g. induction s as [|x s IH]; intros prev g.
  - cbn. eauto.
  - cbn [star_greedy drop_space cls_match].
    destruct (is_space x).
    + destruct (IH (Some x) (gpush x g)) as (w & g' & ->). cbn. eauto.
    + cbn. eauto.
Qed.

Lemma rmatch_spaces (prev : option char) (s : str) (g : groups) :
  match rmatch false re_spaces prev s g with
  | Some (w, rest, _) =>
      w <> [] /\ exists x s',
        s = x :: s' /\ is_space x = true /\ rest = drop_space s'
  | None =>
      match s with
      | [] => True
      | x :: _ => is_space x = false
      end
  end.
Proof.
  destruct s as [|x s]; [exact I|].
  unfold re_spaces.
  change (rmatch false [One CSpace; Star CSpace] prev (x :: s) g)
    with (if is_space x
          then mcons x (star_greedy false CSpace (rmatch false [])
                          (Some x) s (gpush x g))
          else None).
  destruct (is_space x) eqn:E; [|reflexivity].
  destruct (star_space (Some x) s (gpush x g)) as (w & g' & ->).
  cbn [mcons]. split; [discriminate|]. eauto 6.
Qed.

Lemma drop_space_length (s : str) : (length (drop_space s) <= length s)%nat.
Proof.
  induction s as [|x s IH]; simpl; [lia|].
  destruct (is_space x); simpl; lia.
Qed.

Lemma collapse_scan_in_ws (rep s : str) :
  collapse_scan rep true s = collapse_scan rep false (drop_space s).
Proof.
  induction s as [|x s IH]; simpl; [reflexivity|].
  destruct (is_space x) eqn:E; [exact IH|].
  simpl. now rewrite E.
Qed.

(** [s.replace(/\s+/g, rep)] is the scan that folds the runs. *)
Lemma replace_spaces (rep s : str) :
  replace_all false re_spaces rep s = collapse_scan rep false s.
Proof.
  rewrite replace_all_render. fold (replace_from false re_spaces rep None s).
  generalize (@None char) as prev.
  induction s as [s IH] using length_induction. intros prev.
  pose proof (rmatch_spaces prev s gnone) as H.
  destruct (rmatch false re_spaces prev s gnone) as [[[w rest] g']|] eqn:E.
  - destruct H as (Hw & x & s' & -> & Hx & ->).
    rewrite (@replace_from_hit false re_spaces rep prev _ w _ g' E Hw).
    simpl. rewrite Hx, collapse_scan_in_ws. f_equal.
    apply IH. pose proof (drop_space_length s'). simpl. lia.
  - destruct s as [|x s].
    + now rewrite replace_from_nil.
    + rewrite replace_from_skip by assumption. simpl. rewrite H.
      f_equal. apply IH. simpl. lia.
Qed.

(** The normalizer without its patterns: tags become a space, runs of white
    space become a space, the ends are trimmed. *)
Lemma stripTags_scan (s : str) :
  stripTags s = trim (collapse_scan space false (markup_scan space false s)).
Proof.
  unfold stripTags. now rewrite replace_markup, replace_spaces.
Qed.

(** ** Normal forms of the normalizer *)

Lemma space_not_lt (x : char) : is_space x = true -> (x =? ch "<")%N = false.
Proof.
  intros H. destruct (x =? ch "<")%N eqn:E; [|reflexivity].
  apply N.eqb_eq in E. subst x. discriminate H.
Qed.

Lemma space_not_gt (x : char) : is_space x = true -> (x =? ch ">")%N = false.
Proof.
  intros H. destruct (x =? ch ">")%N eqn:E; [|reflexivity].
  apply N.eqb_eq in E. subst x. discriminate H.
Qed.

Lemma drop_space_app_one (l : str) (x : char) :
  drop_space (l ++ [x])
  = match drop_space l with
    | [] => if is_space x then [] else [x]
    | t => t ++ [x]
    end.
Proof.
  induction l as [|y l IH]; simpl.
  - destruct (is_space x); reflexivity.
  - destruct (is_space y); [exact IH|reflexivity].
Qed.

Lemma trim_end_rev (s : str) : rev (drop_space (rev s)) = trim_end s.
Proof.
  induction s as [|x s IH]; simpl; [reflexivity|].
  rewrite drop_space_app_one.
  destruct (drop_space (rev s)) as [|y t] eqn:E; simpl in IH; rewrite <- IH.
  - destruct (is_space x); reflexivity.
  - rewrite rev_app_distr. simpl.
    destruct (rev t ++ [y]) eqn:E2; [|reflexivity].
    now destruct (rev t).
Qed.

Lemma trim_ends (s : str) : trim s = trim_end (drop_space s).
Proof. unfold trim. apply trim_end_rev. Qed.

Lemma stripTags_normalize (s : str) : stripTags s = normalize_with space s.
Proof.
  unfold normalize_with. rewrite stripTags_scan. apply trim_ends.
Qed.

Lemma trim_end_head (s : str) (y : char) (t : str) :
  trim_end s = y :: t -> exists t', s = y :: t'.
Proof.
  destruct s as [|x s]; simpl; [discriminate|].
  destruct (trim_end s).
  - destruct (is_space x); [discriminate|].
    intros H. injection H as -> <-. eauto.
  - intros H. injection H as -> <-. eauto.
Qed.

Lemma head_space_trim_end (s : str) :
  head_space s = false -> head_space (trim_end s) = false.
Proof.
  intros H. destruct (trim_end s) as [|y t] eqn:E; [reflexivity|].
  apply trim_end_head in E as (t' & ->). exact H.
Qed.

Lemma head_space_drop (s : str) : head_space (drop_space s) = false.
Proof.
  induction s as [|x s IH]; simpl; [reflexivity|].
  destruct (is_space x) eqn:E; [exact IH|]. simpl. exact E.
Qed.

Lemma drop_space_id (s : str) : head_space s = false -> drop_space s = s.
Proof.
  destruct s as [|x s]; simpl; [reflexivity|]. now intros ->.
Qed.

Lemma trim_end_idem (s : str) : trim_end (trim_end s) = trim_end s.
Proof.
  induction s as [|x s IH]; simpl; [reflexivity|].
  destruct (trim_end s) as [|y t] eqn:E.
  - destruct (is_space x) eqn:Ex; simpl; [reflexivity|]. now rewrite Ex.
  - change (trim_end (x :: y :: t))
      with (match trim_end (y :: t) with
            | [] => if is_space x then [] else [x]
            | u => x :: u
            end).
    now rewrite IH.
Qed.

Lemma trim_idem (s : str) : trim (trim s) = trim s.
Proof.
  rewrite !trim_ends.
  rewrite (drop_space_id (trim_end (drop_space s))).
  - apply trim_end_idem.
  - apply head_space_trim_end, head_space_drop.
Qed.

(** *** Tags *)

Lemma markup_scan_notag (rep s : str) :
  notag s = true -> markup_scan rep false s = s.
Proof.
  induction s as [|x s IH]; simpl; [reflexivity|].
  intros H. apply andb_true_iff in H as [H1 H2].
  apply negb_true_iff in H1. rewrite H1. f_equal. auto.
Qed.

Lemma has_gt_markup_scan (b : bool) (s : str) :
  has_gt s = false -> has_gt (markup_scan space b s) = false.
Proof.
  revert b. induction s as [|x s IH]; intros b; simpl; [reflexivity|].
  intros H. apply orb_false_iff in H as [H1 H2].
  rewrite H1, H2, andb_false_r. destruct b; simpl; [auto|].
  rewrite H1. simpl. auto.
Qed.

Lemma notag_markup_scan (b : bool) (s : str) :
  notag (markup_scan space b s) = true.
Proof.
  revert b. induction s as [|x s IH]; intros b; simpl; [reflexivity|].
  destruct b.
  - destruct (x =? ch ">")%N; [|apply IH].
    simpl. apply IH.
  - destruct ((x =? ch "<")%N && has_gt s) eqn:E; [apply IH|].
    simpl. rewrite IH, andb_true_r. apply negb_true_iff.
    apply andb_false_iff in E as [E|E].
    + now rewrite E.
    + rewrite (has_gt_markup_scan false s E). apply andb_false_r.
Qed.

Lemma has_gt_collapse_scan (b : bool) (s : str) :
  has_gt (collapse_scan space b s) = has_gt s.
Proof.
  revert b. induction s as [|x s IH]; intros b; simpl; [reflexivity|].
  destruct (is_space x) eqn:E.
  - rewrite (space_not_gt x E). destruct b; simpl; apply IH.
  - simpl. now rewrite IH.
Qed.

Lemma notag_collapse_scan (b : bool) (s : str) :
  notag s = true -> notag (collapse_scan space b s) = true.
Proof.
  revert b. induction s as [|x s IH]; intros b; simpl; [reflexivity|].
  intros H. apply andb_true_iff in H as [H1 H2].
  destruct (is_space x) eqn:E.
  - destruct b; simpl; auto.
  - simpl. rewrite has_gt_collapse_scan, H1. simpl. auto.
Qed.

Lemma notag_drop_space (s : str) :
  notag s = true -> notag (drop_space s) = true.
Proof.
  induction s as [|x s IH]; simpl; [reflexivity|].
  intros H. destruct (is_space x); [|exact H].
  apply andb_true_iff in H as [_ H]. auto.
Qed.

Lemma has_gt_trim_end (s : str) : has_gt (trim_end s) = has_gt s.
Proof.
  induction s as [|x s IH]; simpl; [reflexivity|].
  destruct (trim_end s) as [|y t] eqn:E.
  - rewrite <- IH. simpl.
    destruct (is_space x) eqn:Ex; simpl.
    + now rewrite (space_not_gt x Ex).
    + reflexivity.
  - rewrite <- IH. reflexivity.
Qed.

Lemma notag_trim_end (s : str) :
  notag s = true -> notag (trim_end s) = true.
Proof.
  induction s as [|x s IH]; simpl; [reflexivity|].
  intros H. apply andb_true_iff in H as [H1 H2].
  specialize (IH H2). pose proof (has_gt_trim_end s) as G.
  destruct (trim_end s) as [|y t] eqn:E.
  - destruct (is_space x) eqn:Ex; [reflexivity|].
    simpl. now rewrite andb_false_r.
  - change (notag (x :: y :: t))
      with (negb ((x =? ch "<")%N && has_gt (y :: t)) && notag (y :: t)).
    now rewrite G, H1, IH.
Qed.

(** *** White space *)

Lemma collapse_scan_head (s : str) :
  head_space s = false ->
  collapse_scan space true s = collapse_scan space false s.
Proof.
  destruct s as [|x s]; simpl; [reflexivity|]. now intros ->.
Qed.

Lemma collapse_scan_clean (s : str) :
  clean s = true -> collapse_scan space false s = s.
Proof.
  induction s as [|x s IH]; simpl; [reflexivity|].
  intros H. apply andb_true_iff in H as [H1 H2].
  destruct (is_space x).
  - apply andb_true_iff in H1 as [Hx Hs].
    apply N.eqb_eq in Hx. apply negb_true_iff in Hs. subst x.
    rewrite (collapse_scan_head s Hs). simpl. f_equal. auto.
  - f_equal. auto.
Qed.

Lemma head_space_collapse_scan (s : str) :
  head_space (collapse_scan space true s) = false.
Proof.
  induction s as [|x s IH]; simpl; [reflexivity|].
  destruct (is_space x) eqn:E; [exact IH|]. simpl. exact E.
Qed.

Lemma clean_collapse_scan (b : bool) (s : str) :
  clean (collapse_scan space b s) = true.
Proof.
  revert b. induction s as [|x s IH]; intros b; simpl; [reflexivity|].
  destruct (is_space x) eqn:E.
  - destruct b; [apply IH|].
    simpl. rewrite head_space_collapse_scan. simpl. apply IH.
  - simpl. rewrite E. simpl. apply IH.
Qed.

Lemma clean_drop_space (s : str) :
  clean s = true -> clean (drop_space s) = true.
Proof.
  induction s as [|x s IH]; simpl; [reflexivity|].
  intros H. destruct (is_space x) eqn:E.
  - apply andb_true_iff in H as [_ H]. auto.
  - simpl. now rewrite E.
Qed.

Lemma clean_trim_end (s : str) :
  clean s = true -> clean (trim_end s) = true.
Proof.
  induction s as [|x s IH]; simpl; [reflexivity|].
  intros H. apply andb_true_iff in H as [H1 H2]. specialize (IH H2).
  destruct (trim_end s) as [|y t] eqn:E.
  - destruct (is_space x) eqn:Ex; [reflexivity|].
    simpl. now rewrite Ex.
  - apply trim_end_head in E as E'. destruct E' as (t' & ->).
    change (clean (x :: y :: t))
      with ((if is_space x then (x =? 32)%N && negb (is_space y) else true)
            && clean (y :: t)).
    simpl in H1. now rewrite H1, IH.
Qed.

(** ** Loops *)

Lemma count_loop (A : Type) (p : A -> bool) (l : list A) (n : nat) :
  fold_left (fun n x => if p x then S n else n) l n
  = (n + length (filter p l))%nat.
Proof.
  revert n. induction l as [|x l IH]; intros n; simpl; [lia|].
  rewrite IH. destruct (p x); simpl; lia.
Qed.

Lemma sum_list_sum (l : list nat) : sum l = list_sum l.
Proof.
  unfold sum.
  assert (G : forall n, fold_left Nat.add l n = (n + list_sum l)%nat).
  { induction l as [|x l IH]; intros n; simpl; [lia|]. rewrite IH. lia. }
  apply G.
Qed.

Lemma order_loop_adjacent (t pre : list number) (x : number) (n : nat) :
  order_loop (pre ++ x :: t) (length t) (S (length pre)) n
  = (n + jumps (x :: t))%nat.
Proof.
  revert pre x n. induction t as [|y t IH]; intros pre x n.
  - simpl. unfold jumps. simpl. lia.
  - cbn [order_loop length].
    replace (S (length pre) - 1)%nat with (length pre) by lia.
    rewrite nth_middle.
    replace (nth (S (length pre)) (pre ++ x :: y :: t) None) with y.
    2:{ change (pre ++ x :: y :: t) with (pre ++ [x] ++ y :: t).
        rewrite app_assoc.
        replace (S (length pre)) with (length (pre ++ [x]))
          by (rewrite length_app; simpl; lia).
        now rewrite nth_middle. }
    specialize (IH (pre ++ [x]) y (if jump x y then S n else n)).
    rewrite <- app_assoc in IH. simpl in IH.
    replace (length (pre ++ [x])) with (S (length pre)) in IH
      by (rewrite length_app; simpl; lia).
    rewrite IH. unfold jumps.
    change (adjacent (x :: y :: t)) with ((x, y) :: adjacent (y :: t)).
    cbn [filter fst snd]. destruct (jump x y); simpl; lia.
Qed.

Lemma count_jumps_adjacent (l : list number) : count_jumps l = jumps l.
Proof.
  unfold count_jumps. destruct l as [|x t]; [reflexivity|].
  replace (length (x :: t) - 1)%nat with (length t) by (simpl; lia).
  apply (order_loop_adjacent t [] x 0).
Qed.

(** ** A closed group keeps its value *)

Lemma gpush_done (x : char) (g : groups) (n : nat) (v : str) :
  g n = GDone v -> gpush x g n = GDone v.
Proof. unfold gpush. now intros ->. Qed.

Section QuantifierKeeps.
Variable ic : bool.
Variable k : cls.
Variable cont : option char -> str -> groups -> option mres.
Variable n : nat.
Variable v : str.
Hypothesis Hcont : keeps n v cont.

Lemma star_greedy_keeps : keeps n v (star_greedy ic k cont).
Proof.
  intros prev s; revert prev.
  induction s as [|x s IH]; intros prev g w rest g' Hg H; simpl in H.
  - eauto.
  - destruct (cls_match ic k x); [|eauto].
    destruct (mcons x (star_greedy ic k cont (Some x) s (gpush x g)))
      as [r|] eqn:E; [|eauto].
    injection H as ->.
    apply mcons_some in E as (w' & -> & E).
    eapply IH; [|exact E]. now apply gpush_done.
Qed.

Lemma star_lazy_keeps : keeps n v (star_lazy ic k cont).
Proof.
  intros prev s; revert prev.
  induction s as [|x s IH]; intros prev g w rest g' Hg H; simpl in H.
  - destruct (cont prev [] g) as [r|] eqn:E; [|discriminate].
    injection H as ->. eauto.
  - destruct (cont prev (x :: s) g) as [r|] eqn:E.
    + injection H as ->. eauto.
    + destruct (cls_match ic k x); [|discriminate].
      apply mcons_some in H as (w' & -> & H).
      eapply IH; [|exact H]. now apply gpush_done.
Qed.

Lemma backref_keeps (u : str) : keeps n v (backref ic cont u).
Proof.
  induction u as [|c u IH]; intros prev s g w rest g' Hg H; simpl in H.
  - eauto.
  - destruct s as [|x s]; [discriminate|].
    destruct (ceq ic c x); [|discriminate].
    apply mcons_some in H as (w' & -> & H).
    eapply IH; [|exact H]. now apply gpush_done.
Qed.
End QuantifierKeeps.

Lemma rmatch_keeps (ic : bool) (n : nat) (v : str) (r : regex) :
  touches n r = false -> keeps n v (rmatch ic r).
Proof.
  induction r as [|a r IH]; intros T prev s g w rest g' Hg H.
  - simpl in H. now injection H as <- <- <-.
  - simpl in T. apply orb_false_iff in T as [Ta T]. specialize (IH T).
    destruct a as [k|k|k| |m|m|m]; simpl in H.
    + destruct s as [|x s]; [discriminate|].
      destruct (cls_match ic k x); [|discriminate].
      apply mcons_some in H as (w' & -> & H).
      eapply IH; [|exact H]. now apply gpush_done.
    + eapply star_greedy_keeps; eauto.
    + eapply star_lazy_keeps; eauto.
    + destruct (at_boundary prev s); [eauto|discriminate].
    + eapply IH; [|exact H]. unfold gset. now rewrite Nat.eqb_sym, Ta.
    + destruct (g m) eqn:Em; eauto.
      eapply IH; [|exact H]. unfold gset. now rewrite Nat.eqb_sym, Ta.
    + destruct (g m) eqn:Em; eauto. eapply backref_keeps; eauto.
Qed.

(** ** Heading levels *)

Local Open Scope N_scope.

Lemma ceq_h (x : char) :
  ceq true (ch "h") x = true -> x = ch "h" \/ x = ch "H".
Proof.
  unfold ceq. change (canon (ch "h")) with 72.
  change (ch "h") with 104. change (ch "H") with 72.
  unfold canon, in_range.
  destruct (97 <=? x) eqn:E1; destruct (x <=? 122) eqn:E2; cbn [andb];
    intros H; apply N.eqb_eq in H;
    try apply N.leb_le in E1; try apply N.leb_le in E2;
    try apply N.leb_gt in E1; try apply N.leb_gt in E2; lia.
Qed.

Lemma range_digit (x : char) :
  cls_match true (CRange (ch "1") (ch "6")) x = true -> 49 <= x <= 54.
Proof.
  unfold cls_match, lower, canon, in_range. change (ch "1") with 49.
  change (ch "6") with 54.
  destruct (97 <=? x) eqn:E1; destruct (x <=? 122) eqn:E2; cbn [andb];
    try apply N.leb_le in E1; try apply N.leb_le in E2;
    try apply N.leb_gt in E1; try apply N.leb_gt in E2;
    match goal with
    | |- context [(65 <=? ?y) && (?y <=? 90)] =>
        destruct (65 <=? y) eqn:E3; destruct (y <=? 90) eqn:E4; cbn [andb];
        try apply N.leb_le in E3; try apply N.leb_le in E4;
        try apply N.leb_gt in E3; try apply N.leb_gt in E4
    end;
    intros H; apply orb_true_iff in H as [H|H];
    apply andb_true_iff in H as [H1 H2];
    apply N.leb_le in H1; apply N.leb_le in H2; lia.
Qed.

Local Close Scope N_scope.

Lemma level_of_tag (c1 c2 : char) :
  c1 = ch "h" \/ c1 = ch "H" -> (49 <= c2 <= 54)%N ->
  is_level (level_of [c1; c2]).
Proof.
  intros H1 H2.
  assert (E : (c2 = 49 \/ c2 = 50 \/ c2 = 51 \/ c2 = 52 \/ c2 = 53
               \/ c2 = 54)%N) by lia.
  unfold is_level.
  destruct H1 as [-> | ->];
    destruct E as [-> | [-> | [-> | [-> | [-> | ->]]]]];
    vm_compute; eexists; (split; [reflexivity|split; discriminate]).
Qed.

Lemma rmatch_tag_group (tail : regex) (prev : option char)
  (s w rest : str) (g : groups) :
  touches 1 tail = false ->
  rmatch true
    (lit "<" :: GOpen 1 :: lit "h" :: One (CRange (ch "1") (ch "6"))
       :: GClose 1 :: tail) prev s gnone = Some (w, rest, g) ->
  exists c1 c2,
    gvalue g 1 = Some [c1; c2]
    /\ (c1 = ch "h" \/ c1 = ch "H") /\ (49 <= c2 <= 54)%N.
Proof.
  intros T H.
  destruct s as [|x [|c1 [|c2 s]]]; cbn [rmatch lit] in H.
  - discriminate.
  - destruct (cls_match true (CLit (ch "<")) x); discriminate.
  - destruct (cls_match true (CLit (ch "<")) x); [|discriminate].
    cbn [mcons] in H.
    destruct (cls_match true (CLit (ch "h")) c1); discriminate.
  - destruct (cls_match true (CLit (ch "<")) x); [|discriminate].
    destruct (cls_match true (CLit (ch "h")) c1) eqn:E1.
    2:{ cbn [mcons] in H. discriminate. }
    destruct (cls_match true (CRange (ch "1") (ch "6")) c2) eqn:E2.
    2:{ cbn [mcons] in H. discriminate. }
    apply mcons_some in H as (w1 & -> & H).
    apply mcons_some in H as (w2 & -> & H).
    apply mcons_some in H as (w3 & -> & H).
    match type of H with
    | match ?g0 1%nat with _ => _ end = _ =>
        change (g0 1%nat) with (GRec [c2; c1]) in H
    end.
    cbv beta iota in H.
    exists c1, c2. split; [|split].
    + unfold gvalue.
      erewrite (@rmatch_keeps true 1 [c1; c2] tail T); [reflexivity| |exact H].
      reflexivity.
    + now apply ceq_h.
    + now apply range_digit.
Qed.

Lemma headingLevels_valid (html : str) : Forall is_level (headingLevels html).
Proof.
  unfold headingLevels, exec_all.
  apply Forall_map.
  eapply Forall_impl;
    [|apply (@exec_loop_hits true re_heading
               (fun _ grp => exists c1 c2, grp 1%nat = Some [c1; c2]
                  /\ (c1 = ch "h" \/ c1 = ch "H") /\ (49 <= c2 <= 54)%N))].
  - intros h (c1 & c2 & G & H1 & H2). unfold group1. rewrite G.
    now apply level_of_tag.
  - intros prev s w rest g H. eapply rmatch_tag_group; [|exact H].
    reflexivity.
Qed.

(** ** Words *)

Lemma split_re_pieces (ic : bool) (r : regex) (s : str) :
  split_re ic r s = pieces (exec_from ic r None [] s).
Proof.
  unfold split_re, exec_all, exec_from, pieces.
  destruct (exec_loop (S (length s)) ic r None [] s); reflexivity.
Qed.

Lemma count_tokens_drop_space (s : str) :
  count_tokens false (drop_space s) = count_tokens false s.
Proof.
  induction s as [|x s IH]; simpl; [reflexivity|].
  destruct (is_space x) eqn:E; [exact IH|]. simpl. now rewrite E.
Qed.

Lemma nonempty_app_one (sk : str) (x : char) : nonempty (sk ++ [x]) = true.
Proof. destruct sk; reflexivity. Qed.

Lemma pieces_spaces (s : str) :
  forall prev sk,
    length (filter nonempty (pieces (exec_from false re_spaces prev sk s)))
    = ((if nonempty sk then 1 else 0) + count_tokens (nonempty sk) s)%nat.
Proof.
  induction s as [s IH] using length_induction. intros prev sk.
  pose proof (rmatch_spaces prev s gnone) as H.
  destruct (rmatch false re_spaces prev s gnone) as [[[w rest] g']|] eqn:E.
  - destruct H as (Hw & x & s' & -> & Hx & ->).
    rewrite (@exec_from_hit false re_spaces prev sk _ w _ g' E Hw).
    unfold pieces. cbn [fst snd map app filter h_pre count_tokens].
    rewrite Hx.
    fold (pieces (exec_from false re_spaces (last_char prev w) []
                    (drop_space s'))).
    assert (L : (length (drop_space s') < length (x :: s'))%nat)
      by (pose proof (drop_space_length s'); simpl; lia).
    specialize (IH _ L (last_char prev w) []). simpl in IH.
    rewrite count_tokens_drop_space in IH.
    destruct (nonempty sk); simpl; rewrite IH; reflexivity.
  - destruct s as [|x s].
    + rewrite exec_from_nil by assumption.
      unfold pieces. simpl. destruct (nonempty sk); reflexivity.
    + rewrite exec_from_skip by assumption.
      rewrite IH by (simpl; lia). rewrite nonempty_app_one.
      simpl. rewrite H. destruct (nonempty sk); reflexivity.
Qed.

(** [p.split(/\s+/).filter(Boolean).length] counts the words of [p]. *)
Lemma words_count (p : str) : length (words p) = token_count p.
Proof.
  unfold words, token_count. rewrite split_re_pieces.
  now rewrite pieces_spaces.
Qed.

(** ** Averages *)

Lemma avgParagraphLength_mean (html : str) :
  avgParagraphLength html = mean (map token_count (paragraphTexts html)).
Proof.
  unfold avgParagraphLength, paragraphWordCounts.
  rewrite sum_list_sum.
  rewrite (map_ext (fun p => length (words p)) token_count words_count).
  destruct (map token_count (paragraphTexts html)); reflexivity.
Qed.

(** The comparison of a quotient with a whole number, in integers. *)
Lemma Qdiv_le_Z (a b c : Z) :
  (0 < b)%Z ->
  Qle_bool (inject_Z a / inject_Z b) (inject_Z c) = (a <=? c * b)%Z.
Proof.
  intros Hb. destruct b as [|p|p]; try lia.
  unfold Qle_bool, Qdiv, Qmult, Qinv, inject_Z. simpl.
  rewrite !Z.mul_1_r.
  reflexivity.
Qed.

Lemma mean_gt (l : list nat) (c : Z) :
  l <> [] ->
  Qgtb (mean l) (inject_Z c)
  = (c * Z.of_nat (length l) <? Z.of_nat (list_sum l))%Z.
Proof.
  intros Hl. unfold Qgtb, mean.
  destruct l as [|x l]; [easy|].
  rewrite Qdiv_le_Z by (simpl length; lia).
  rewrite Z.ltb_antisym. reflexivity.
Qed.

(** ** The attribute lookups *)

Lemma value_of_mcons (x : char) (r : option mres) :
  value_of (mcons x r) = value_of r.
Proof. destruct r as [[[w rest] g]|]; reflexivity. Qed.

Lemma star_value (q : char) (s : str) :
  forall prev g acc,
    g 1%nat = GRec acc ->
    value_of (star_greedy true (CNot q) (rmatch true [GClose 1; One (CLit q)])
                prev s g)
    = option_map (fun v => rev acc ++ v) (take_until q s).
Proof.
  induction s as [|x s IH]; intros prev g acc Hg.
  - cbn [star_greedy rmatch take_until]. rewrite Hg. reflexivity.
  - cbn [star_greedy take_until cls_match].
    assert (C : value_of (rmatch true [GClose 1; One (CLit q)] prev (x :: s) g)
                = if ceq true q x then Some (rev acc) else None).
    { cbn [rmatch cls_match]. rewrite Hg. cbn [rmatch cls_match].
      destruct (ceq true q x); [|reflexivity].
      cbn. now rewrite app_nil_r || reflexivity. }
    destruct (ceq true q x) eqn:E; cbn [negb].
    + rewrite C. simpl. now rewrite app_nil_r.
    + assert (Hg' : gpush x g 1%nat = GRec (x :: acc))
        by (unfold gpush; now rewrite Hg).
      specialize (IH (Some x) (gpush x g) (x :: acc) Hg').
      rewrite <- (value_of_mcons x) in IH.
      destruct (mcons x (star_greedy true (CNot q)
                  (rmatch true [GClose 1; One (CLit q)]) (Some x) s
                  (gpush x g))) as [res|].
      * rewrite IH.
        destruct (take_until q s); simpl; [|reflexivity].
        now rewrite <- app_assoc.
      * rewrite C.
        destruct (take_until q s); [discriminate IH|reflexivity].
Qed.

Lemma value_regex_value (q : char) (prev : option char) (s : str) (g : groups) :
  value_of (rmatch true (value_regex q) prev s g) = quoted_value q s.
Proof.
  destruct s as [|x s]; [reflexivity|].
  unfold value_regex, quoted_value.
  change (rmatch true
            [One (CLit q); GOpen 1; Star (CNot q); GClose 1; One (CLit q)]
            prev (x :: s) g)
    with (if ceq true q x
          then mcons x (star_greedy true (CNot q)
                          (rmatch true [GClose 1; One (CLit q)]) (Some x) s
                          (gset 1 (GRec []) (gpush x g)))
          else None).
  destruct (ceq true q x); [|reflexivity].
  rewrite value_of_mcons, (star_value q s _ _ (acc := [])) by reflexivity.
  destruct (take_until q s); reflexivity.
Qed.

Section SpaceThen.
Variable cont : option char -> str -> groups -> option mres.
Variable F : str -> option str.
Hypothesis Hcont : forall prev s g, value_of (cont prev s g) = F s.
Hypothesis Hspace : forall x s, is_space x = true -> F (x :: s) = None.

(** \s* before something that cannot start with white space. *)
Lemma star_space_then (prev : option char) (s : str) (g : groups) :
  value_of (star_greedy true CSpace cont prev s g) = F (drop_space s).
Proof.
  revert prev g. induction s as [|x s IH]; intros prev g.
  - apply Hcont.
  - cbn [star_greedy drop_space cls_match].
    destruct (is_space x) eqn:E; [|apply Hcont].
    specialize (IH (Some x) (gpush x g)).
    rewrite <- (value_of_mcons x) in IH.
    destruct (mcons x (star_greedy true CSpace cont (Some x) s (gpush x g)))
      as [res|].
    + exact IH.
    + rewrite Hcont, (Hspace x s E). exact IH.
Qed.
End SpaceThen.

Local Open Scope N_scope.

(** Under the [i] flag a character that is not a letter stands for itself. *)
Lemma ceq_plain (c x : char) : c < 65 -> ceq true c x = (c =? x).
Proof.
  intros Hc. unfold ceq, canon, in_range.
  destruct (97 <=? c) eqn:E1; [apply N.leb_le in E1; lia|]. cbn [andb].
  destruct (97 <=? x) eqn:E2; destruct (x <=? 122) eqn:E3; cbn [andb];
    try reflexivity.
  apply N.leb_le in E2. apply N.leb_le in E3.
  destruct (c =? x - 32) eqn:A; destruct (c =? x) eqn:B; try reflexivity;
    try apply N.eqb_eq in A; try apply N.eqb_eq in B; lia.
Qed.

Lemma ceq_space (c x : char) :
  c < 65 -> is_space c = false -> is_space x = true -> ceq true c x = false.
Proof.
  intros Hc Hs Hx. rewrite ceq_plain by assumption.
  destruct (c =? x) eqn:E; [|reflexivity].
  apply N.eqb_eq in E. subst x. congruence.
Qed.

Local Close Scope N_scope.

Section AttrRegex.
Variable q : char.
Hypothesis Hq : (q < 65)%N.
Hypothesis Hqs : is_space q = false.

Lemma quoted_value_space (x : char) (s : str) :
  is_space x = true -> quoted_value q (x :: s) = None.
Proof.
  intros Hx. unfold quoted_value. now rewrite ceq_space.
Qed.

Lemma equals_value_space (x : char) (s : str) :
  is_space x = true -> equals_value q (x :: s) = None.
Proof.
  intros Hx. unfold equals_value. now rewrite ceq_space.
Qed.

Lemma equals_regex_value (prev : option char) (s : str) (g : groups) :
  value_of (rmatch true (lit "=" :: Star CSpace :: value_regex q) prev s g)
  = equals_value q s.
Proof.
  destruct s as [|x s]; [reflexivity|].
  unfold equals_value.
  change (rmatch true (lit "=" :: Star CSpace :: value_regex q) prev
            (x :: s) g)
    with (if ceq true (ch "=") x
          then mcons x (star_greedy true CSpace (rmatch true (value_regex q))
                          (Some x) s (gpush x g))
          else None).
  destruct (ceq true (ch "=") x); [|reflexivity].
  rewrite value_of_mcons.
  apply (star_space_then (rmatch true (value_regex q)) (quoted_value q)).
  - intros. apply value_regex_value.
  - apply quoted_value_space.
Qed.

Lemma name_regex_value (name : str) (prev : option char) (s : str)
  (g : groups) :
  value_of (rmatch true
              (lits name ++ Star CSpace :: lit "=" :: Star CSpace
                 :: value_regex q) prev s g)
  = attr_at q name s.
Proof.
  unfold attr_at.
  revert prev s g. induction name as [|c name IH]; intros prev s g.
  - cbn [lits map app match_name].
    change (rmatch true (Star CSpace :: lit "=" :: Star CSpace
                           :: value_regex q) prev s g)
      with (star_greedy true CSpace
              (rmatch true (lit "=" :: Star CSpace :: value_regex q))
              prev s g).
    apply (star_space_then
             (rmatch true (lit "=" :: Star CSpace :: value_regex q))
             (equals_value q)).
    + intros. apply equals_regex_value.
    + apply equals_value_space.
  - destruct s as [|x s]; [reflexivity|].
    cbn [lits map app match_name].
    fold (lits name).
    cbn [rmatch cls_match].
    destruct (ceq true c x); [|reflexivity].
    rewrite value_of_mcons. apply IH.
Qed.

Lemma attr_regex_value (name : str) (prev : option char) (s : str)
  (g : groups) :
  value_of (rmatch true (attr_regex q name) prev s g)
  = if at_boundary prev s then attr_at q name s else None.
Proof.
  unfold attr_regex. cbn [rmatch].
  destruct (at_boundary prev s); [|reflexivity].
  apply name_regex_value.
Qed.

(** The search for the pattern is the search for the token. *)
Lemma rsearch_attr (name : str) (prev : option char) (s : str) :
  option_map group1 (rsearch true (attr_regex q name) prev s)
  = find_attr q name prev s.
Proof.
  revert prev. induction s as [|x s IH]; intros prev;
    cbn [rsearch find_attr];
    rewrite <- (attr_regex_value name prev _ gnone);
    destruct (rmatch true (attr_regex q name) prev _ gnone)
      as [[[w rest] g]|]; cbn [value_of option_map]; try reflexivity.
  rewrite <- IH.
  destruct (rsearch true (attr_regex q name) (Some x) s); reflexivity.
Qed.
End AttrRegex.

(** The four patterns of the source are instances of [attr_regex]. *)
Lemma re_alt_double_attr : re_alt_double = attr_regex dq (js "alt").
Proof. reflexivity. Qed.

Lemma re_alt_single_attr : re_alt_single = attr_regex sq (js "alt").
Proof. reflexivity. Qed.

Lemma re_aria_double_attr : re_aria_double = attr_regex dq (js "aria-label").
Proof. reflexivity. Qed.

Lemma re_aria_single_attr : re_aria_single = attr_regex sq (js "aria-label").
Proof. reflexivity. Qed.

Lemma read_attribute (name : str) (s : str) :
  match option_map group1 (rsearch true (attr_regex dq name) None s) with
  | Some v => Some v
  | None => option_map group1 (rsearch true (attr_regex sq name) None s)
  end = attribute name s.
Proof.
  unfold attribute.
  rewrite !rsearch_attr by reflexivity. reflexivity.
Qed.

Lemma altValue_attribute (imgTag : str) :
  altValue imgTag = attribute (js "alt") imgTag.
Proof.
  rewrite <- read_attribute. unfold altValue, match_first.
  rewrite re_alt_double_attr, re_alt_single_attr.
  destruct (rsearch true (attr_regex dq (js "alt")) None imgTag);
    [reflexivity|].
  destruct (rsearch true (attr_regex sq (js "alt")) None imgTag);
    reflexivity.
Qed.

Lemma ariaVal_attribute (block : str) :
  ariaVal block = attribute (js "aria-label") block.
Proof.
  rewrite <- read_attribute. unfold ariaVal, match_first.
  rewrite re_aria_double_attr, re_aria_single_attr.
  destruct (rsearch true (attr_regex dq (js "aria-label")) None block);
    [reflexivity|].
  destruct (rsearch true (attr_regex sq (js "aria-label")) None block);
    reflexivity.
Qed.

(** A value is blank after [trim] exactly when it is white space only. *)
Lemma trim_blank (v : str) :
  negb (nonempty (trim v)) = forallb is_space v.
Proof.
  rewrite trim_ends.
  induction v as [|x v IH]; [reflexivity|].
  cbn [drop_space forallb].
  destruct (is_space x) eqn:E; [exact IH|].
  cbn [trim_end]. destruct (trim_end v); [rewrite E|]; reflexivity.
Qed.

(** Whether the tags are deleted or give way to a space, the normalized
    text is empty in the same cases: when only white space lies outside
    the tags. *)
Lemma forallb_space_markup_scan (b : bool) (s : str) :
  forallb is_space (markup_scan space b s)
  = forallb is_space (markup_scan [] b s).
Proof.
  revert b. induction s as [|x s IH]; intros b; simpl; [reflexivity|].
  destruct b.
  - destruct (x =? ch ">")%N; [|apply IH]. simpl. apply IH.
  - destruct ((x =? ch "<")%N && has_gt s); [apply IH|].
    simpl. now rewrite IH.
Qed.

Lemma forallb_space_collapse_scan (b : bool) (s : str) :
  forallb is_space (collapse_scan space b s) = forallb is_space s.
Proof.
  revert b. induction s as [|x s IH]; intros b; simpl; [reflexivity|].
  destruct (is_space x) eqn:E.
  - destruct b; simpl; apply IH.
  - simpl. now rewrite E.
Qed.

Lemma normalize_with_empty (rep s : str) :
  nonempty (normalize_with rep s)
  = negb (forallb is_space (markup_scan rep false s)).
Proof.
  unfold normalize_with. rewrite <- trim_ends.
  rewrite <- (negb_involutive (nonempty _)), trim_blank.
  now rewrite forallb_space_collapse_scan.
Qed.

Lemma normalize_with_empty_same (s : str) :
  nonempty (normalize_with space s) = nonempty (normalize_with [] s).
Proof.
  rewrite !normalize_with_empty. now rewrite forallb_space_markup_scan.
Qed.

(** ** Elements of the page *)

(** One step of the matcher, atom by atom. *)
Lemma lit_step (c : ascii) (T : regex) (prev : option char) (x : char)
  (s : str) (g : groups) :
  rmatch true (lit c :: T) prev (x :: s) g
  = if ceq true (ch c) x
    then mcons x (rmatch true T (Some x) s (gpush x g)) else None.
Proof. reflexivity. Qed.

Lemma lit_nil (c : ascii) (T : regex) (prev : option char) (g : groups) :
  rmatch true (lit c :: T) prev [] g = None.
Proof. reflexivity. Qed.

Lemma one_step (k : cls) (T : regex) (prev : option char) (x : char)
  (s : str) (g : groups) :
  rmatch true (One k :: T) prev (x :: s) g
  = if cls_match true k x
    then mcons x (rmatch true T (Some x) s (gpush x g)) else None.
Proof. reflexivity. Qed.

Lemma wordb_step (T : regex) (prev : option char) (s : str) (g : groups) :
  rmatch true (WordB :: T) prev s g
  = if at_boundary prev s then rmatch true T prev s g else None.
Proof. reflexivity. Qed.

Lemma star_step (k : cls) (T : regex) (prev : option char) (s : str)
  (g : groups) :
  rmatch true (Star k :: T) prev s g
  = star_greedy true k (rmatch true T) prev s g.
Proof. reflexivity. Qed.

Lemma gopen_lazy_step (n : nat) (k : cls) (T : regex) (prev : option char)
  (s : str) (g : groups) :
  rmatch true (GOpen n :: LazyStar k :: T) prev s g
  = star_lazy true k (rmatch true T) prev s (gset n (GRec []) g).
Proof. reflexivity. Qed.

Lemma gopen_step (n : nat) (T : regex) (prev : option char) (s : str)
  (g : groups) :
  rmatch true (GOpen n :: T) prev s g
  = rmatch true T prev s (gset n (GRec []) g).
Proof. reflexivity. Qed.

Lemma gclose_step (n : nat) (a : str) (T : regex) (prev : option char)
  (s : str) (g : groups) :
  g n = GRec a ->
  rmatch true (GClose n :: T) prev s g
  = rmatch true T prev s (gset n (GDone (rev a)) g).
Proof. intros H. cbn [rmatch]. now rewrite H. Qed.

Lemma backref_step (n : nat) (v : str) (T : regex) (prev : option char)
  (s : str) (g : groups) :
  g n = GDone v ->
  rmatch true (Backref n :: T) prev s g
  = backref true (rmatch true T) v prev s g.
Proof. intros H. cbn [rmatch]. now rewrite H. Qed.

(** What holds of a match holds of the match after one more character. *)
Lemma mcons_elim (P : str -> groups -> Prop) (Q : Prop) (x : char)
  (r : option mres) :
  match r with Some (_, rest, g) => P rest g | None => Q end ->
  match mcons x r with Some (_, rest, g) => P rest g | None => Q end.
Proof. destruct r as [[[w rest] g]|]; auto. Qed.

Lemma mapp_elim (P : str -> groups -> Prop) (Q : Prop) (a : str)
  (r : option mres) :
  match r with Some (_, rest, g) => P rest g | None => Q end ->
  match mapp a r with Some (_, rest, g) => P rest g | None => Q end.
Proof. destruct r as [[[w rest] g]|]; auto. Qed.

Lemma gpushes_done (a : str) (g : groups) (n : nat) (v : str) :
  g n = GDone v -> gpushes a g n = GDone v.
Proof.
  revert g. induction a as [|x a IH]; intros g H; [exact H|].
  cbn [gpushes]. apply IH. now apply gpush_done.
Qed.

Local Open Scope N_scope.

Lemma ceq_mark (c x : char) : c < 65 -> ceq true c x = (x =? c).
Proof. intros H. rewrite ceq_plain by exact H. apply N.eqb_sym. Qed.

Lemma ceq_letter_cases (c x : char) :
  in_range 97 122 c = true -> ceq true c x = ((x =? c) || (x =? c - 32)).
Proof.
  unfold ceq, canon, in_range. intros Hc. rewrite Hc.
  apply andb_true_iff in Hc as [C1 C2].
  apply N.leb_le in C1. apply N.leb_le in C2.
  destruct (N.leb_spec 97 x); destruct (N.leb_spec x 122); cbn [andb];
    destruct (N.eqb_spec x c); destruct (N.eqb_spec x (c - 32));
    cbn [orb];
    match goal with
    | |- (?a =? ?b) = true => apply N.eqb_eq; lia
    | |- (?a =? ?b) = false => apply N.eqb_neq; lia
    end.
Qed.

Lemma range_digit_cases (x : char) :
  cls_match true (CRange (ch "1") (ch "6")) x = ((49 <=? x) && (x <=? 54)).
Proof.
  unfold cls_match, lower, canon, in_range. change (ch "1") with 49.
  change (ch "6") with 54.
  destruct (N.leb_spec 97 x); destruct (N.leb_spec x 122); cbn [andb];
    repeat match goal with
           | |- context [if (?a <=? ?b) && (?c <=? ?d) then _ else _] =>
               destruct (N.leb_spec a b); destruct (N.leb_spec c d);
               cbn [andb]
           end;
    repeat match goal with
           | |- context [(?a <=? ?b)] =>
               destruct (N.leb_spec a b); cbn [andb orb]
           end; try reflexivity; lia.
Qed.

Lemma digit_word (c : char) : (49 <=? c) && (c <=? 54) = true -> is_word c = true.
Proof.
  intros H. apply andb_true_iff in H as [H1 H2].
  apply N.leb_le in H1. apply N.leb_le in H2.
  unfold is_word.
  assert (E : in_range 48 57 c = true).
  { unfold in_range. apply andb_true_iff. split; apply N.leb_le; lia. }
  rewrite E. now rewrite !orb_true_r.
Qed.

Lemma letter_word (l c : char) :
  in_range 97 122 l = true -> (c =? l) || (c =? l - 32) = true ->
  is_word c = true.
Proof.
  unfold in_range. intros Hl H.
  apply andb_true_iff in Hl as [L1 L2].
  apply N.leb_le in L1. apply N.leb_le in L2.
  unfold is_word, in_range.
  apply orb_true_iff in H as [H|H]; apply N.eqb_eq in H; subst c.
  - replace (97 <=? l) with true by (symmetry; apply N.leb_le; lia).
    replace (l <=? 122) with true by (symmetry; apply N.leb_le; lia).
    reflexivity.
  - replace (65 <=? l - 32) with true by (symmetry; apply N.leb_le; lia).
    replace (l - 32 <=? 90) with true by (symmetry; apply N.leb_le; lia).
    cbn [andb]. now rewrite !orb_true_r.
Qed.

Local Close Scope N_scope.

Lemma boundary_after_word (c : char) (s : str) :
  is_word c = true -> at_boundary (Some c) s = negb (head_word s).
Proof.
  intros H. unfold at_boundary, head_word. rewrite H.
  destruct s as [|x s]; [reflexivity|]. now destruct (is_word x).
Qed.

(** [^>]*> before the rest [T] of a pattern: the text up to the first ">",
    then what [T] matches; nothing when no ">" follows. *)
Lemma after_gt_split (s body : str) :
  after_gt s = Some body ->
  exists a, s = a ++ ch ">" :: body /\ has_gt a = false.
Proof.
  revert body. induction s as [|x s IH]; intros body H; [discriminate H|].
  cbn [after_gt] in H. destruct (x =? ch ">")%N eqn:E.
  - injection H as <-. apply N.eqb_eq in E. subst x. now exists [].
  - destruct (IH _ H) as (a & -> & Ha). exists (x :: a). split; [reflexivity|].
    unfold has_gt in *. cbn [existsb]. now rewrite E.
Qed.

Lemma star_gt_exact (T : regex) (a sT : str) :
  has_gt a = false ->
  forall prev g,
    star_greedy true (CNot (ch ">")) (rmatch true (lit ">" :: T)) prev
      (a ++ ch ">" :: sT) g
    = mapp a (mcons (ch ">")
                (rmatch true T (Some (ch ">")) sT
                   (gpush (ch ">") (gpushes a g)))).
Proof.
  induction a as [|x a IH]; intros Ha prev g.
  - cbn [app gpushes star_greedy cls_match].
    rewrite ceq_mark, N.eqb_refl by reflexivity. cbn [negb].
    rewrite lit_step, ceq_mark, N.eqb_refl by reflexivity.
    destruct (rmatch true T (Some (ch ">")) sT (gpush (ch ">") g))
      as [[[w rest] g']|]; reflexivity.
  - unfold has_gt in Ha. cbn [existsb] in Ha.
    apply orb_false_iff in Ha as [Hx Ha].
    change ((x :: a) ++ ch ">" :: sT) with (x :: (a ++ ch ">" :: sT)).
    cbn [star_greedy cls_match gpushes].
    rewrite ceq_mark, Hx by reflexivity. cbn [negb].
    rewrite (IH Ha).
    destruct (rmatch true T (Some (ch ">")) sT
                (gpush (ch ">") (gpushes a (gpush x g))))
      as [[[w rest] g']|]; cbn [mcons mapp]; [reflexivity|].
    rewrite lit_step, ceq_mark, Hx by reflexivity. reflexivity.
Qed.

Lemma star_gt_none (T : regex) (s : str) :
  after_gt s = None ->
  forall prev g,
    star_greedy true (CNot (ch ">")) (rmatch true (lit ">" :: T)) prev s g
    = None.
Proof.
  induction s as [|x s IH]; intros H prev g; [reflexivity|].
  cbn [after_gt] in H. destruct (x =? ch ">")%N eqn:E; [discriminate H|].
  cbn [star_greedy cls_match]. rewrite ceq_mark, E by reflexivity.
  cbn [negb]. rewrite (IH H). cbn [mcons].
  rewrite lit_step, ceq_mark, E by reflexivity. reflexivity.
Qed.

(** The lazy star before a closing tag stops at the first text at which
    the rest of the pattern matches. *)
Section LazyUntil.
Variable cont : option char -> str -> groups -> option mres.
Variable name : str.
Variable Inv : str -> groups -> Prop.
Variable Post : str -> groups -> Prop.
Hypothesis Inv_push :
  forall acc x g, Inv acc g -> Inv (x :: acc) (gpush x g).
Hypothesis Hcont :
  forall acc prev s g,
    Inv acc g ->
    match cont prev s g with
    | Some (_, rest, g') => closing_tag name s = Some rest /\ Post acc g'
    | None => closing_tag name s = None
    end.

Lemma star_lazy_until (s : str) :
  forall acc prev g,
    Inv acc g ->
    match star_lazy true CAny cont prev s g with
    | Some (_, rest, g') =>
        exists inner,
          until_closing name s = Some (inner, rest)
          /\ Post (rev inner ++ acc) g'
    | None => until_closing name s = None
    end.
Proof.
  induction s as [|x s IH]; intros acc prev g Hg.
  - cbn [star_lazy until_closing]. specialize (Hcont prev [] Hg).
    destruct (cont prev [] g) as [[[w rest] g']|].
    + destruct Hcont as [-> P]. now exists [].
    + now rewrite Hcont.
  - cbn [star_lazy until_closing cls_match].
    specialize (Hcont prev (x :: s) Hg).
    destruct (cont prev (x :: s) g) as [[[w rest] g']|].
    + destruct Hcont as [-> P]. now exists [].
    + rewrite Hcont.
      specialize (IH (x :: acc) (Some x) (gpush x g) (Inv_push x Hg)).
      destruct (star_lazy true CAny cont (Some x) s (gpush x g))
        as [[[w rest] g']|]; cbn [mcons].
      * destruct IH as (inner & -> & P). exists (x :: inner).
        split; [reflexivity|]. cbn [rev]. now rewrite <- app_assoc.
      * now rewrite IH.
Qed.
End LazyUntil.

(** The closing tags at the end of the patterns. *)
Lemma closing_p (acc : str) (prev : option char) (s : str) (g : groups) :
  g 1%nat = GRec acc ->
  match rmatch true re_close_p prev s g with
  | Some (_, rest, g') =>
      closing_tag (js "p") s = Some rest /\ gvalue g' 1 = Some (rev acc)
  | None => closing_tag (js "p") s = None
  end.
Proof.
  intros Hg. unfold re_close_p. rewrite (@gclose_step 1 acc _ _ _ _ Hg).
  unfold closing_tag. change (js "p") with [ch "p"].
  destruct s as [|a [|b s]]; [reflexivity| |].
  - rewrite lit_step. destruct (ceq true (ch "<") a); reflexivity.
  - rewrite lit_step, ceq_mark by reflexivity.
    destruct (a =? ch "<")%N; cbn [andb]; [|reflexivity].
    apply mcons_elim. destruct s as [|c s].
    + rewrite lit_step, ceq_mark by reflexivity.
      destruct (b =? ch "/")%N; [|reflexivity].
      apply mcons_elim. reflexivity.
    + rewrite lit_step, ceq_mark by reflexivity.
      destruct (b =? ch "/")%N; [|reflexivity].
      apply mcons_elim. rewrite lit_step. cbn [match_name].
      destruct (ceq true (ch "p") c); [|reflexivity].
      apply mcons_elim. destruct s as [|d rest]; [reflexivity|].
      rewrite lit_step, ceq_mark by reflexivity.
      destruct (d =? ch ">")%N; [|reflexivity].
      cbn [rmatch mcons]. split; reflexivity.
Qed.

Lemma closing_heading (c1 c2 : char) (prev : option char) (s : str)
  (g : groups) :
  g 1%nat = GDone [c1; c2] ->
  match rmatch true [GClose 2; lit "<"; lit "/"; Backref 1; lit ">"]
          prev s g with
  | Some (_, rest, g') =>
      closing_tag [c1; c2] s = Some rest /\ g' 1%nat = GDone [c1; c2]
  | None => closing_tag [c1; c2] s = None
  end.
Proof.
  intros Hg.
  assert (K : forall g1, g1 1%nat = GDone [c1; c2] ->
              match rmatch true [lit "<"; lit "/"; Backref 1; lit ">"]
                      prev s g1 with
              | Some (_, rest, g') =>
                  closing_tag [c1; c2] s = Some rest
                  /\ g' 1%nat = GDone [c1; c2]
              | None => closing_tag [c1; c2] s = None
              end).
  { clear g Hg. intros g Hg. unfold closing_tag.
    destruct s as [|a [|b s]]; [reflexivity| |].
    - rewrite lit_step. destruct (ceq true (ch "<") a); reflexivity.
    - rewrite lit_step, ceq_mark by reflexivity.
      destruct (a =? ch "<")%N; cbn [andb]; [|reflexivity].
      apply mcons_elim.
      assert (G3 : gpush b (gpush a g) 1%nat = GDone [c1; c2])
        by (now apply gpush_done, gpush_done).
      destruct s as [|c s].
      + rewrite lit_step, ceq_mark by reflexivity.
        destruct (b =? ch "/")%N; [|reflexivity].
        apply mcons_elim.
        rewrite (@backref_step 1 [c1; c2] _ _ _ _ G3). reflexivity.
      + rewrite lit_step, ceq_mark by reflexivity.
        destruct (b =? ch "/")%N; [|reflexivity].
        apply mcons_elim. rewrite (@backref_step 1 [c1; c2] _ _ _ _ G3).
        cbn [backref match_name].
        destruct (ceq true c1 c); [|reflexivity].
        apply mcons_elim. destruct s as [|d s]; [reflexivity|].
        destruct (ceq true c2 d); [|reflexivity].
        apply mcons_elim. destruct s as [|e rest]; [reflexivity|].
        rewrite lit_step, ceq_mark by reflexivity.
        destruct (e =? ch ">")%N; [|reflexivity].
        cbn [rmatch mcons]. split; [reflexivity|].
        now repeat apply gpush_done. }
  cbn [rmatch]. destruct (g 2%nat); apply K; exact Hg.
Qed.

(** The pattern of a paragraph, at one position. *)
Lemma rmatch_paragraph_at (prev : option char) (s : str) :
  match rmatch true (tag_regex (js "p")) prev s gnone with
  | Some (_, rest, g') =>
      paragraph_at s = Some (first_group (gvalue g'), rest)
  | None => paragraph_at s = None
  end.
Proof.
  change (tag_regex (js "p"))
    with (lit "<" :: lit "p" :: WordB :: Star (CNot (ch ">")) :: lit ">"
            :: GOpen 1 :: LazyStar CAny :: re_close_p).
  unfold paragraph_at.
  destruct s as [|x [|c s]]; [reflexivity| |].
  - rewrite lit_step. destruct (ceq true (ch "<") x); reflexivity.
  - rewrite lit_step, ceq_mark by reflexivity.
    destruct (x =? ch "<")%N; cbn [andb]; [|reflexivity].
    apply (mcons_elim (fun rest g' => _ = Some (first_group (gvalue g'), rest))).
    rewrite lit_step, ceq_letter_cases by reflexivity.
    change (ch "p" - 32)%N with (ch "P").
    destruct ((c =? ch "p")%N || (c =? ch "P")%N) eqn:Ec; [|reflexivity].
    apply (mcons_elim (fun rest g' => _ = Some (first_group (gvalue g'), rest))).
    rewrite wordb_step, star_step.
    rewrite boundary_after_word
      by (apply (@letter_word (ch "p")); [reflexivity|exact Ec]).
    unfold tag_end. destruct (head_word s); cbn [negb]; [reflexivity|].
    destruct (after_gt s) as [body|] eqn:A.
    + apply after_gt_split in A as (a & -> & Ha).
      rewrite (@star_gt_exact _ a body Ha).
      apply (mapp_elim (fun rest g' => _ = Some (first_group (gvalue g'), rest))).
      apply (mcons_elim (fun rest g' => _ = Some (first_group (gvalue g'), rest))).
      rewrite gopen_lazy_step.
      match goal with
      | |- context [star_lazy true CAny _ ?p body ?g0] =>
          pose proof (@star_lazy_until (rmatch true re_close_p) (js "p")
                        (fun acc g => g 1%nat = GRec acc)
                        (fun acc g' => gvalue g' 1 = Some (rev acc))
                        (fun acc x g H => ltac:(unfold gpush; now rewrite H))
                        (fun acc prev s g H => @closing_p acc prev s g H)
                        body [] p g0 eq_refl) as L;
          destruct (star_lazy true CAny (rmatch true re_close_p) p body g0)
            as [[[w rest] g']|]
      end.
      * destruct L as (inner & -> & P). unfold first_group. rewrite P.
        now rewrite app_nil_r, rev_involutive.
      * now rewrite L.
    + now rewrite (@star_gt_none _ s A).
Qed.

Lemma level_of_digit (c1 c2 : char) :
  ((c1 =? ch "h") || (c1 =? ch "H"))%N = true ->
  ((49 <=? c2) && (c2 <=? 54))%N = true ->
  level_of [c1; c2] = Some (Z.of_N (c2 - 48)).
Proof.
  intros H1 H2.
  apply andb_true_iff in H2 as [L1 L2].
  apply N.leb_le in L1. apply N.leb_le in L2.
  assert (E : (c2 = 49 \/ c2 = 50 \/ c2 = 51 \/ c2 = 52 \/ c2 = 53
               \/ c2 = 54)%N) by lia.
  apply orb_true_iff in H1 as [H1|H1]; apply N.eqb_eq in H1; subst c1;
    destruct E as [-> | [-> | [-> | [-> | [-> | ->]]]]];
    vm_compute; reflexivity.
Qed.

(** The opening of a heading, shared by the pattern of the heading
    elements and the pattern of the heading tags. *)
Lemma heading_open_cases (x c1 c2 : char) :
  ceq true (ch "<") x = (x =? ch "<")%N
  /\ ceq true (ch "h") c1 = ((c1 =? ch "h") || (c1 =? ch "H"))%N
  /\ cls_match true (CRange (ch "1") (ch "6")) c2
     = ((49 <=? c2) && (c2 <=? 54))%N.
Proof.
  split; [now apply ceq_mark|].
  split; [|apply range_digit_cases].
  now rewrite ceq_letter_cases by reflexivity.
Qed.

(** The pattern of a heading element, at one position. *)
Lemma rmatch_heading_at (prev : option char) (s : str) :
  match rmatch true re_heading prev s gnone with
  | Some (_, rest, g') =>
      exists l, heading_at s = Some (l, rest)
                /\ group_level (gvalue g') = Some l
  | None => heading_at s = None
  end.
Proof.
  unfold re_heading, heading_at.
  destruct s as [|x [|c1 [|c2 s]]]; [reflexivity| | |].
  - rewrite lit_step. destruct (ceq true (ch "<") x); reflexivity.
  - rewrite lit_step, gopen_step.
    destruct (ceq true (ch "<") x); [|reflexivity].
    rewrite lit_step. destruct (ceq true (ch "h") c1); reflexivity.
  - destruct (heading_open_cases x c1 c2) as (E0 & E1 & E2).
    rewrite lit_step, E0.
    destruct (x =? ch "<")%N; cbn [andb]; [|reflexivity].
    apply (mcons_elim
             (fun rest g' => exists l, _ = Some (l, rest)
                                       /\ group_level (gvalue g') = Some l)).
    rewrite gopen_step, lit_step, E1.
    destruct ((c1 =? ch "h")%N || (c1 =? ch "H")%N) eqn:H1; cbn [andb];
      [|reflexivity].
    apply (mcons_elim
             (fun rest g' => exists l, _ = Some (l, rest)
                                       /\ group_level (gvalue g') = Some l)).
    rewrite one_step, E2.
    destruct ((49 <=? c2)%N && (c2 <=? 54)%N) eqn:H2; [|reflexivity].
    apply (mcons_elim
             (fun rest g' => exists l, _ = Some (l, rest)
                                       /\ group_level (gvalue g') = Some l)).
    rewrite (@gclose_step 1 [c2; c1]) by reflexivity.
    rewrite wordb_step, star_step.
    rewrite boundary_after_word by (now apply digit_word).
    unfold tag_end. destruct (head_word s); cbn [negb]; [reflexivity|].
    destruct (after_gt s) as [body|] eqn:A.
    + apply after_gt_split in A as (a & -> & Ha).
      rewrite (@star_gt_exact _ a body Ha).
      apply (mapp_elim
               (fun rest g' => exists l, _ = Some (l, rest)
                                         /\ group_level (gvalue g') = Some l)).
      apply (mcons_elim
               (fun rest g' => exists l, _ = Some (l, rest)
                                         /\ group_level (gvalue g') = Some l)).
      rewrite gopen_lazy_step.
      match goal with
      | |- context [star_lazy true CAny ?k ?p body ?g0] =>
          assert (G0 : g0 1%nat = GDone [c1; c2])
            by (unfold gset at 1; cbn [Nat.eqb];
                apply gpush_done, gpushes_done; reflexivity);
          pose proof (@star_lazy_until k [c1; c2]
                        (fun _ g => g 1%nat = GDone [c1; c2])
                        (fun _ g' => g' 1%nat = GDone [c1; c2])
                        (fun acc x g H => gpush_done x g 1 H)
                        (fun acc prev s g H =>
                           @closing_heading c1 c2 prev s g H)
                        body [] p g0 G0) as L;
          destruct (star_lazy true CAny k p body g0) as [[[w rest] g']|]
      end.
      * destruct L as (inner & -> & P). eexists. split; [reflexivity|].
        unfold group_level, first_group, gvalue. rewrite P.
        now apply level_of_digit.
      * now rewrite L.
    + now rewrite (@star_gt_none _ s A).
Qed.

(** The pattern of a heading tag, at one position. *)
Lemma rmatch_heading_tag_at (prev : option char) (s : str) :
  match rmatch true re_heading_open prev s gnone with
  | Some (_, rest, _) => exists l, heading_tag_at s = Some (l, rest)
  | None => heading_tag_at s = None
  end.
Proof.
  unfold re_heading_open, heading_tag_at.
  destruct s as [|x [|c1 [|c2 s]]]; [reflexivity| | |].
  - rewrite lit_step. destruct (ceq true (ch "<") x); reflexivity.
  - rewrite !lit_step.
    destruct (ceq true (ch "<") x); [|reflexivity].
    destruct (ceq true (ch "h") c1); reflexivity.
  - destruct (heading_open_cases x c1 c2) as (E0 & E1 & E2).
    rewrite lit_step, E0.
    destruct (x =? ch "<")%N; cbn [andb]; [|reflexivity].
    apply (mcons_elim (fun rest _ => exists l, _ = Some (l, rest))).
    rewrite lit_step, E1.
    destruct ((c1 =? ch "h")%N || (c1 =? ch "H")%N); cbn [andb];
      [|reflexivity].
    apply (mcons_elim (fun rest _ => exists l, _ = Some (l, rest))).
    rewrite one_step, E2.
    destruct ((49 <=? c2)%N && (c2 <=? 54)%N) eqn:H2; [|reflexivity].
    apply (mcons_elim (fun rest _ => exists l, _ = Some (l, rest))).
    rewrite wordb_step, star_step.
    rewrite boundary_after_word by (now apply digit_word).
    unfold tag_end. destruct (head_word s); cbn [negb]; [reflexivity|].
    destruct (after_gt s) as [rest|] eqn:A.
    + apply after_gt_split in A as (a & -> & Ha).
      rewrite (@star_gt_exact _ a rest Ha).
      cbn [rmatch mcons mapp]. eauto.
    + now rewrite (@star_gt_none _ s A).
Qed.

(** The pattern of an img tag, at one position. *)
Lemma rmatch_img_tag_at (prev : option char) (s : str) :
  match rmatch true re_img prev s gnone with
  | Some (_, rest, _) => img_tag_at s = Some (tt, rest)
  | None => img_tag_at s = None
  end.
Proof.
  unfold re_img, img_tag_at.
  destruct s as [|x [|a [|b [|c s]]]]; [reflexivity| | | |].
  - rewrite lit_step. destruct (ceq true (ch "<") x); reflexivity.
  - rewrite !lit_step.
    destruct (ceq true (ch "<") x); [|reflexivity].
    destruct (ceq true (ch "i") a); reflexivity.
  - rewrite !lit_step.
    destruct (ceq true (ch "<") x); [|reflexivity].
    destruct (ceq true (ch "i") a); [|reflexivity].
    destruct (ceq true (ch "m") b); reflexivity.
  - rewrite lit_step, ceq_mark by reflexivity.
    destruct (x =? ch "<")%N; cbn [andb]; [|reflexivity].
    apply (mcons_elim (fun rest _ => _ = Some (tt, rest))).
    rewrite lit_step, ceq_letter_cases by reflexivity.
    change (ch "i" - 32)%N with (ch "I").
    destruct ((a =? ch "i")%N || (a =? ch "I")%N); cbn [andb];
      [|reflexivity].
    apply (mcons_elim (fun rest _ => _ = Some (tt, rest))).
    rewrite lit_step, ceq_letter_cases by reflexivity.
    change (ch "m" - 32)%N with (ch "M").
    destruct ((b =? ch "m")%N || (b =? ch "M")%N); cbn [andb];
      [|reflexivity].
    apply (mcons_elim (fun rest _ => _ = Some (tt, rest))).
    rewrite lit_step, ceq_letter_cases by reflexivity.
    change (ch "g" - 32)%N with (ch "G").
    destruct ((c =? ch "g")%N || (c =? ch "G")%N) eqn:Ec; [|reflexivity].
    apply (mcons_elim (fun rest _ => _ = Some (tt, rest))).
    rewrite wordb_step, star_step.
    rewrite boundary_after_word
      by (apply (@letter_word (ch "g")); [reflexivity|exact Ec]).
    unfold tag_end. destruct (head_word s); cbn [negb]; [reflexivity|].
    destruct (after_gt s) as [rest|] eqn:A.
    + apply after_gt_split in A as (t & -> & Ha).
      rewrite (@star_gt_exact _ t rest Ha).
      cbn [rmatch mcons mapp]. reflexivity.
    + now rewrite (@star_gt_none _ s A).
Qed.

(** The loop of the [g] flag is the scan, when the pattern finds at each
    position what [at_front] finds there. *)
Section ScanLoop.
Variables A B : Type.
Variable r : regex.
Variable at_front : str -> option (A * str).
Variable payload : (nat -> option str) -> B.
Variable f : A -> B.
Hypothesis Hr :
  forall prev s,
    match rmatch true r prev s gnone with
    | Some (w, rest, g') =>
        w <> [] /\ exists a, at_front s = Some (a, rest)
                             /\ payload (gvalue g') = f a
    | None => at_front s = None
    end.

Lemma at_front_shorter (s rest : str) (a : A) :
  at_front s = Some (a, rest) -> (length rest < length s)%nat.
Proof.
  intros H. specialize (Hr None s).
  destruct (rmatch true r None s gnone) as [[[w rest'] g']|] eqn:E;
    [|congruence].
  destruct Hr as (Hw & a' & E' & _).
  assert (rest' = rest) by congruence. subst rest'.
  apply rmatch_splits in E. subst s. rewrite length_app.
  destruct w; [contradiction|simpl; lia].
Qed.

Lemma scan_loop_fuel (f1 f2 : nat) :
  forall s,
    (length s < f1)%nat -> (length s < f2)%nat ->
    scan_loop at_front f1 s = scan_loop at_front f2 s.
Proof.
  revert f2. induction f1 as [|f1 IH]; intros f2 s H1 H2; [lia|].
  destruct f2 as [|f2]; [lia|]. cbn [scan_loop].
  destruct (at_front s) as [[a rest]|] eqn:E.
  - apply at_front_shorter in E. f_equal. apply IH; lia.
  - destruct s as [|x s]; [reflexivity|]. simpl in H1, H2. apply IH; lia.
Qed.

Lemma exec_from_scan (s : str) :
  forall prev sk,
    map (fun h => payload (h_group h)) (fst (exec_from true r prev sk s))
    = map f (scan at_front s).
Proof.
  induction s as [s IH] using length_induction. intros prev sk.
  pose proof (Hr prev s) as H. unfold scan. cbn [scan_loop].
  destruct (rmatch true r prev s gnone) as [[[w rest] g']|] eqn:E.
  - destruct H as (Hw & a & Ha & P).
    rewrite (@exec_from_hit true r prev sk s w rest g' E Hw).
    rewrite Ha. cbn [fst map h_group]. rewrite P. f_equal.
    pose proof (at_front_shorter Ha) as L.
    rewrite (IH rest L). unfold scan. f_equal.
    apply scan_loop_fuel; lia.
  - rewrite H. destruct s as [|x s].
    + now rewrite exec_from_nil.
    + rewrite exec_from_skip by assumption.
      rewrite IH by (simpl; lia). reflexivity.
Qed.
End ScanLoop.

(** The paragraph contents, the heading levels and the two counts of the
    density evaluator, read off the page. *)
Lemma getTagContents_scan (html : str) :
  getTagContents html (js "p") = scan paragraph_at html.
Proof.
  unfold getTagContents, exec_all.
  change (exec_loop (S (length html)) true (tag_regex (js "p")) None [] html)
    with (exec_from true (tag_regex (js "p")) None [] html).
  rewrite <- (map_id (scan paragraph_at html)).
  apply (@exec_from_scan _ _ (tag_regex (js "p")) paragraph_at first_group
           (fun a => a)).
  intros prev s. pose proof (rmatch_paragraph_at prev s) as H.
  destruct (rmatch true (tag_regex (js "p")) prev s gnone)
    as [[[w rest] g']|] eqn:E; [|exact H].
  split; [|eauto].
  change (tag_regex (js "p"))
    with (One (CLit (ch "<")) :: tl (tag_regex (js "p"))) in E.
  now apply rmatch_one_nonempty in E.
Qed.

Lemma headingLevels_scan (html : str) :
  headingLevels html = heading_element_levels html.
Proof.
  unfold headingLevels, heading_element_levels, exec_all.
  change (exec_loop (S (length html)) true re_heading None [] html)
    with (exec_from true re_heading None [] html).
  apply (@exec_from_scan _ _ re_heading heading_at group_level Some).
  intros prev s. pose proof (rmatch_heading_at prev s) as H.
  destruct (rmatch true re_heading prev s gnone)
    as [[[w rest] g']|] eqn:E; [|exact H].
  split; [|exact H].
  now apply rmatch_one_nonempty in E.
Qed.

Lemma headingCount_scan (html : str) :
  headingCount html = length (scan heading_tag_at html).
Proof.
  unfold headingCount, match_all, exec_all. rewrite length_map.
  change (exec_loop (S (length html)) true re_heading_open None [] html)
    with (exec_from true re_heading_open None [] html).
  rewrite <- (length_map (fun _ => tt) (scan heading_tag_at html)).
  rewrite <- (length_map (fun h => (fun _ => tt) (h_group h))).
  f_equal.
  apply (@exec_from_scan _ _ re_heading_open heading_tag_at
           (fun _ => tt) (fun _ => tt)).
  intros prev s. pose proof (rmatch_heading_tag_at prev s) as H.
  destruct (rmatch true re_heading_open prev s gnone)
    as [[[w rest] g']|] eqn:E; [|exact H].
  destruct H as (l & H). split; [|eauto].
  now apply rmatch_one_nonempty in E.
Qed.

Lemma imageCount_scan (html : str) :
  imageCount html = length (scan img_tag_at html).
Proof.
  unfold imageCount, match_all, exec_all. rewrite length_map.
  change (exec_loop (S (length html)) true re_img None [] html)
    with (exec_from true re_img None [] html).
  rewrite <- (length_map (fun _ => tt) (scan img_tag_at html)).
  rewrite <- (length_map (fun h => (fun _ => tt) (h_group h))).
  f_equal.
  apply (@exec_from_scan _ _ re_img img_tag_at (fun _ => tt) (fun _ => tt)).
  intros prev s. pose proof (rmatch_img_tag_at prev s) as H.
  destruct (rmatch true re_img prev s gnone)
    as [[[w rest] g']|] eqn:E; [|exact H].
  split; [|eauto].
  now apply rmatch_one_nonempty in E.
Qed.

Lemma paragraphTexts_scan (html : str) :
  paragraphTexts html = paragraphs_with space html.
Proof.
  unfold paragraphTexts, paragraphs_with. rewrite getTagContents_scan.
  f_equal. apply map_ext. apply stripTags_normalize.
Qed.

(** * The specification, statement by statement *)

Local Open Scope Z_scope.

(** C3: for every page text the accessibility score is
    max(0, 100 - (10 if h1Count = 0) - (10 if h1Count > 1)
    - 2 * imagesMissingAlt - 3 * unlabeledButtons - 5 * headingOrderIssues),
    each of the two h1 penalties being a conditional of its own: a page
    without h1 and a page with two h1 both score 90, a page with one h1
    scores 100, and sixty images without alt bring the score to 0. *)
Theorem accessibilityScore_formula :
  (forall html,
      accessibilityScore html
      = Z.max 0
          (100
           - (if Nat.eqb (h1Count html) 0 then 10 else 0)
           - (if Nat.ltb 1 (h1Count html) then 10 else 0)
           - 2 * Z.of_nat (imagesMissingAlt html)
           - 3 * Z.of_nat (unlabeledButtons html)
           - 5 * Z.of_nat (headingOrderIssues html)))
  /\ accessibilityScore (js EmptyString) = 90
  /\ accessibilityScore (js "<h1>a</h1>") = 100
  /\ accessibilityScore (js "<h1>a</h1><h1>b</h1>") = 90
  /\ accessibilityScore (concat (repeat (js "<img>") 60)) = 0.
Proof.
  split; [|repeat split; vm_compute; reflexivity].
  intros html. unfold accessibilityScore.
  destruct (Nat.eqb (h1Count html) 0); destruct (Nat.ltb 1 (h1Count html));
    cbv zeta;
    match goal with
    | |- (if ?c then _ else _) = _ => destruct c eqn:E
    end;
    try apply Z.ltb_lt in E; try apply Z.ltb_ge in E; lia.
Qed.

(** C4, as the code has it: for every page text the scanability score is
    max(0, 100 - (20 if the average paragraph length exceeds 100)
    - (20 if there is no image) - (20 if there is no heading)).  The
    average is the mean number of words of the paragraphs: the contents of
    the p elements of the page, each normalized with a space in the place
    of every tag, the empty results left out; it is 0 when there is none.
    The image count is the number of img tags and the heading count the
    number of opening heading tags. *)
Theorem scanabilityScore_formula (html : str) :
  scanabilityScore html
  = Z.max 0
      (100
       - (if Qgtb (avgParagraphLength html) 100 then 20 else 0)
       - (if Nat.eqb (imageCount html) 0 then 20 else 0)
       - (if Nat.eqb (headingCount html) 0 then 20 else 0))
  /\ avgParagraphLength html
     = mean (map token_count (paragraphs_with space html))
  /\ imageCount html = length (scan img_tag_at html)
  /\ headingCount html = length (scan heading_tag_at html)
  /\ mean [] = 0%Q.
Proof.
  split; [|split; [|split; [|split]]].
  - unfold scanabilityScore, scanabilityPenalized.
    destruct (Qgtb (avgParagraphLength html) 100);
      destruct (Nat.eqb (imageCount html) 0);
      destruct (Nat.eqb (headingCount html) 0); reflexivity.
  - now rewrite avgParagraphLength_mean, paragraphTexts_scan.
  - apply imageCount_scan.
  - apply headingCount_scan.
  - reflexivity.
Qed.

(** C4 fails as stated: with the normalizer of the specification, which
    deletes the tags, the one paragraph of this page is a single word, and
    the formula gives 60; the code puts a space in the place of each of the
    101 line breaks, counts 101 words and takes the penalty: the score is
    40. *)
Lemma scanabilityScore_deletion_counterexample :
  map token_count (paragraphs_with [] breaks_101) = [1%nat]
  /\ map token_count (paragraphs_with space breaks_101) = [101%nat]
  /\ scanabilityScore breaks_101 = 40
  /\ scanabilityScore breaks_101
     <> Z.max 0
          (100
           - (if Qgtb (mean (map token_count (paragraphs_with [] breaks_101)))
                   100
              then 20 else 0)
           - (if Nat.eqb (imageCount breaks_101) 0 then 20 else 0)
           - (if Nat.eqb (headingCount breaks_101) 0 then 20 else 0)).
Proof.
  split; [vm_compute; reflexivity|].
  split; [vm_compute; reflexivity|].
  split; [vm_compute; reflexivity|].
  vm_compute. discriminate.
Qed.

(** C9: the scanability score is one of 40, 60, 80 and 100, and each of
    them is the score of some page; the score before the clamp is at least
    40, so the clamp never changes it. *)
Theorem scanabilityScore_values :
  (forall html,
      In (scanabilityScore html) [40; 60; 80; 100]
      /\ 40 <= scanabilityPenalized html
      /\ scanabilityScore html = scanabilityPenalized html)
  /\ scanabilityScore (paragraph_of 101) = 40
  /\ scanabilityScore (js EmptyString) = 60
  /\ scanabilityScore img_alt_cat = 80
  /\ scanabilityScore (img_alt_cat ++ headings_123) = 100.
Proof.
  split; [|repeat split; vm_compute; reflexivity].
  intros html. unfold scanabilityScore, scanabilityPenalized.
  destruct (Qgtb (avgParagraphLength html) 100);
    destruct (Nat.eqb (imageCount html) 0);
    destruct (Nat.eqb (headingCount html) 0); simpl; intuition lia.
Qed.

Local Close Scope Z_scope.

(** C1, as the code has it: the notes are three, in the order paragraph
    length, images, headings; the image note and the heading note are the
    negative ones exactly when the count is 0, as their penalties; the
    paragraph note is the negative one exactly when the average paragraph
    length exceeds 80. *)
Theorem density_notes_spec (html : str) :
  d_notes (content_density_evaluator html)
  = [ (if Qgtb (avgParagraphLength html) 80
       then "Paragraphs are long; consider splitting large blocks of text."
       else "Paragraph length seems reasonable.")%string;
      (if Nat.eqb (imageCount html) 0
       then "No images found; consider adding supporting visuals."
       else "Contains imagery to break up text.")%string;
      (if Nat.eqb (headingCount html) 0
       then "No headings found; add subheadings to improve scanning."
       else "Has headings to guide the reader.")%string ].
Proof.
  unfold content_density_evaluator, density_notes. cbn [d_notes].
  destruct (Qgtb (avgParagraphLength html) 80);
    destruct (Nat.eqb (imageCount html) 0);
    destruct (Nat.eqb (headingCount html) 0); reflexivity.
Qed.

(** C1 fails as stated: on a page whose only paragraph has 90 words the
    paragraph note is the negative one although the average does not exceed
    100 and the penalty is not applied. *)
Lemma density_notes_threshold_counterexample :
  ~ (hd EmptyString (d_notes (content_density_evaluator (paragraph_of 90)))
     = "Paragraphs are long; consider splitting large blocks of text."%string
     <-> Qgtb (avgParagraphLength (paragraph_of 90)) 100 = true).
Proof.
  intros [H _].
  assert (E : Qgtb (avgParagraphLength (paragraph_of 90)) 100 = false)
    by (vm_compute; reflexivity).
  rewrite E in H. discriminate H. vm_compute. reflexivity.
Qed.

(** C2, as the code has it: the normalizer puts a space in place of every
    tag, then folds every run of white space into one space, then trims
    both ends. *)
Theorem stripTags_spec (s : str) : stripTags s = normalize_with space s.
Proof.
  unfold normalize_with, stripTags.
  rewrite replace_markup, replace_spaces.
  apply trim_ends.
Qed.

(** C2 fails as stated: deleting the tag of a<br>b leaves the one word ab,
    where the code returns the two words a b. *)
Lemma stripTags_deletion_counterexample :
  normalize_with [] (js "a<br>b") = js "ab"
  /\ stripTags (js "a<br>b") = js "a b"
  /\ stripTags (js "a<br>b") <> normalize_with [] (js "a<br>b").
Proof.
  split; [vm_compute; reflexivity|].
  split; [vm_compute; reflexivity|].
  vm_compute. discriminate.
Qed.

(** C8: the normalizer is idempotent. *)
Theorem stripTags_idempotent (s : str) : stripTags (stripTags s) = stripTags s.
Proof.
  rewrite (stripTags_scan (stripTags s)).
  set (t := stripTags s).
  assert (T : notag t = true).
  { subst t. rewrite stripTags_scan, trim_ends.
    apply notag_trim_end, notag_drop_space, notag_collapse_scan,
      notag_markup_scan. }
  assert (C : clean t = true).
  { subst t. rewrite stripTags_scan, trim_ends.
    apply clean_trim_end, clean_drop_space, clean_collapse_scan. }
  rewrite (markup_scan_notag space t T), (collapse_scan_clean t C).
  subst t. unfold stripTags. apply trim_idem.
Qed.

(** C5, as the code has it: [headingOrderIssues] is the number of pairs
    of neighbours (prev, curr) with curr - prev > 2 in the sequence of the
    levels of the heading elements, in document order: an element runs from
    an opening tag h1 to h6 to the first closing tag of the same level, and
    the search for the next one resumes after that closing tag.  Every
    level is one of 1 to 6; the headings h1, h2, h5 give one issue and h1,
    h2, h3 give none, as does a single heading. *)
Theorem headingOrderIssues_spec :
  (forall html,
      headingOrderIssues html
      = length (filter (fun pc => jump (fst pc) (snd pc))
                  (adjacent (headingLevels html)))
      /\ headingLevels html = heading_element_levels html
      /\ Forall is_level (headingLevels html))
  /\ (forall p c, jump (Some p) (Some c) = (c - p >? 2)%Z)
  /\ (forall l, adjacent [l] = [])
  /\ headingLevels headings_125 = [Some 1; Some 2; Some 5]%Z
  /\ headingOrderIssues headings_125 = 1%nat
  /\ headingLevels headings_123 = [Some 1; Some 2; Some 3]%Z
  /\ headingOrderIssues headings_123 = 0%nat.
Proof.
  split.
  - intros html. split; [|split].
    + unfold headingOrderIssues. apply count_jumps_adjacent.
    + apply headingLevels_scan.
    + apply headingLevels_valid.
  - repeat split; vm_compute; reflexivity.
Qed.

(** C5 fails as stated, on the levels of all the heading tags: the h3 of
    the first page is never closed and is left out, so that the code sees
    an h5 after an h1 and reports a jump where the tags h1, h3, h5 have
    none; the h5 of the second page lies inside the h1 element and is left
    out, so that the code reports no jump where the tags h1, h5 have one. *)
Lemma headingOrderIssues_tags_counterexample :
  heading_tag_levels headings_unclosed = [Some 1; Some 3; Some 5]%Z
  /\ jumps (heading_tag_levels headings_unclosed) = 0%nat
  /\ headingLevels headings_unclosed = [Some 1; Some 5]%Z
  /\ headingOrderIssues headings_unclosed = 1%nat
  /\ headingOrderIssues headings_unclosed
     <> jumps (heading_tag_levels headings_unclosed)
  /\ heading_tag_levels headings_nested = [Some 1; Some 5]%Z
  /\ jumps (heading_tag_levels headings_nested) = 1%nat
  /\ headingLevels headings_nested = [Some 1]%Z
  /\ headingOrderIssues headings_nested = 0%nat
  /\ headingOrderIssues headings_nested
     <> jumps (heading_tag_levels headings_nested).
Proof.
  repeat split; try (vm_compute; reflexivity); vm_compute; discriminate.
Qed.

(** What the loop over the img tags counts: the tags whose text has no
    token alt = value, in double or in single quotes and in any case of the
    letters, that starts at a word boundary, or has one with a value that is
    empty or white space only.  An image without alt and one with an empty
    alt count, one with the alt text cat does not. *)
Lemma imagesMissingAlt_tokens :
  (forall html,
      imagesMissingAlt html = length (filter lacks_alt (imgTags html)))
  /\ imagesMissingAlt img_no_alt = 1%nat
  /\ imagesMissingAlt img_empty_alt = 1%nat
  /\ imagesMissingAlt img_alt_cat = 0%nat
  /\ imagesMissingAlt (js "<IMG ALT = 'cat' SRC='a.png'/>") = 0%nat
  /\ imagesMissingAlt (js "<img src='a.png' alt='  '>") = 1%nat.
Proof.
  split; [|repeat split; vm_compute; reflexivity].
  intros html. unfold imagesMissingAlt. rewrite count_loop. simpl.
  f_equal. apply filter_ext. intros tag.
  unfold missing_alt, lacks_alt. rewrite altValue_attribute.
  destruct (attribute (js "alt") tag); [apply trim_blank|reflexivity].
Qed.

(** C6 does not hold of the code: the one img tag of this page has no
    attribute called alt, only a data-alt, and it should count as missing
    its alt text; the lookup reads the end of data-alt as the token alt,
    finds the value cat and does not count the tag. *)
Theorem imagesMissingAlt_data_alt :
  imgTags img_data_alt = [img_data_alt]
  /\ named_attribute (js "alt") img_data_alt = None
  /\ length (filter lacks_named_alt (imgTags img_data_alt)) = 1%nat
  /\ altValue img_data_alt = Some (js "cat")
  /\ imagesMissingAlt img_data_alt = 0%nat.
Proof.
  repeat split; vm_compute; reflexivity.
Qed.

(** What the loop over the button blocks counts: the blocks whose
    normalized inner text is empty (deleting the tags or putting a space
    for them makes no difference to that) and whose text has no token
    aria-label = value that starts at a word boundary, or has an empty one.
    An empty button counts, a button with an aria-label or with a text does
    not. *)
Lemma unlabeledButtons_tokens :
  (forall html,
      unlabeledButtons html = length (filter lacks_label (buttonBlocks html)))
  /\ (forall s,
        nonempty (normalize_with space s) = nonempty (normalize_with [] s))
  /\ unlabeledButtons button_empty = 1%nat
  /\ unlabeledButtons button_aria = 0%nat
  /\ unlabeledButtons button_text = 0%nat.
Proof.
  split; [|split; [apply normalize_with_empty_same|
                   repeat split; vm_compute; reflexivity]].
  intros html. unfold unlabeledButtons. rewrite count_loop. simpl.
  f_equal. apply filter_ext. intros block.
  unfold unlabeled, lacks_label, blank_or_null, blank, visibleText.
  fold (stripTags (innerHtml block)).
  rewrite stripTags_normalize, ariaVal_attribute.
  assert (B : forall v : str,
             negb (nonempty v) || Nat.eqb (length v) 0 = negb (nonempty v))
    by (intros [|y v]; reflexivity).
  rewrite B. destruct (attribute (js "aria-label") block); [|reflexivity].
  now rewrite B.
Qed.

(** C7 does not hold of the code: the one button of this page has no text
    and no attribute called aria-label, only a data-aria-label, and it
    should count as unlabeled; the lookup reads the end of data-aria-label
    as the token aria-label, finds the value Close and does not count the
    button. *)
Theorem unlabeledButtons_data_aria :
  buttonBlocks button_data_aria = [button_data_aria]
  /\ visibleText button_data_aria = []
  /\ named_attribute (js "aria-label") button_data_aria = None
  /\ length (filter lacks_named_label (buttonBlocks button_data_aria)) = 1%nat
  /\ ariaVal button_data_aria = Some (js "Close")
  /\ unlabeledButtons button_data_aria = 0%nat.
Proof.
  repeat split; vm_compute; reflexivity.
Qed.

(** C10: the lookup of alt accepts a token that starts after any word
    boundary, and a hyphen makes one: an img tag that has no attribute
    called alt, only a data-alt, is read as having the alt text cat and is
    not counted, where the same tag with data_alt is counted; likewise a
    data-aria-label labels a button. *)
Theorem word_boundary_attributes :
  (forall x s, at_boundary (Some (ch "-")) (x :: s) = is_word x)
  /\ (forall x s, at_boundary (Some (ch "_")) (x :: s) = negb (is_word x))
  /\ imgTags img_data_alt = [img_data_alt]
  /\ named_attribute (js "alt") img_data_alt = None
  /\ altValue img_data_alt = Some (js "cat")
  /\ imagesMissingAlt img_data_alt = 0%nat
  /\ imagesMissingAlt img_data_alt_underscore = 1%nat
  /\ buttonBlocks button_data_aria = [button_data_aria]
  /\ named_attribute (js "aria-label") button_data_aria = None
  /\ ariaVal button_data_aria = Some (js "Close")
  /\ unlabeledButtons button_data_aria = 0%nat.
Proof.
  split; [reflexivity|].
  split; [reflexivity|].
  repeat split; vm_compute; reflexivity.
Qed.

(** * Further properties of the code *)

(** ** Pages without markup *)

Lemma rsearch_no_first (ic : bool) (c : char) (r : regex) (s : str) :
  forall prev,
    forallb (fun x => negb (ceq ic c x)) s = true ->
    rsearch ic (One (CLit c) :: r) prev s = None.
Proof.
  induction s as [|x s IH]; intros prev H; [reflexivity|].
  simpl in H. apply andb_true_iff in H as [Hx H].
  apply negb_true_iff in Hx.
  cbn [rsearch rmatch cls_match]. rewrite Hx.
  now rewrite IH.
Qed.

Lemma exec_all_no_first (ic : bool) (c : char) (r : regex) (s : str) :
  forallb (fun x => negb (ceq ic c x)) s = true ->
  exec_all ic (One (CLit c) :: r) s = ([], s).
Proof.
  intros H. unfold exec_all. cbn [exec_loop].
  now rewrite rsearch_no_first.
Qed.

Lemma no_lt_ceq (ic : bool) (s : str) :
  has_lt s = false ->
  forallb (fun x => negb (ceq ic (ch "<") x)) s = true.
Proof.
  induction s as [|x s IH]; [reflexivity|].
  unfold has_lt. simpl. intros H. apply orb_false_iff in H as [Hx H].
  rewrite (IH H), andb_true_r. apply negb_true_iff.
  destruct ic.
  - rewrite ceq_plain by reflexivity. now rewrite N.eqb_sym.
  - unfold ceq. now rewrite N.eqb_sym.
Qed.

(** A page without any "<" has no paragraph, image, heading or button: the
    density is the record of the empty page, with the two penalties for no
    image and no heading, and the accessibility check finds no defect but
    the missing h1. *)
Theorem plain_text_page (html : str) :
  has_lt html = false ->
  content_density_evaluator html
  = mkDensity 0 0 0 0 60
      ["Paragraph length seems reasonable."%string;
       "No images found; consider adding supporting visuals."%string;
       "No headings found; add subheadings to improve scanning."%string]
  /\ accessibility_surface_check html = mkAccessibility 0 0 0 0 90.
Proof.
  intros H.
  assert (E : forall r, exec_all true (lit "<" :: r) html = ([], html))
    by (intros r; apply exec_all_no_first, no_lt_ceq, H).
  assert (P : paragraphTexts html = [])
    by (unfold paragraphTexts, getTagContents, tag_regex;
        cbn [app]; now rewrite E).
  assert (I : imgTags html = [])
    by (unfold imgTags, match_all, re_img; now rewrite E).
  assert (HC : headingCount html = 0%nat)
    by (unfold headingCount, match_all, re_heading_open; now rewrite E).
  assert (H1 : h1Count html = 0%nat)
    by (unfold h1Count, match_all, re_h1; now rewrite E).
  assert (B : buttonBlocks html = [])
    by (unfold buttonBlocks, re_button; now rewrite E).
  assert (L : headingLevels html = [])
    by (unfold headingLevels, re_heading; now rewrite E).
  split.
  - unfold content_density_evaluator, scanabilityScore, scanabilityPenalized,
      density_notes, avgParagraphLength, paragraphWordCounts, wordCount,
      imageCount.
    fold (imgTags html). rewrite P, I, HC. reflexivity.
  - unfold accessibility_surface_check, accessibilityScore, imagesMissingAlt,
      unlabeledButtons, headingOrderIssues.
    rewrite H1, I, B, L. reflexivity.
Qed.

Lemma plain_text_page_witness :
  has_lt (js "No markup here, only words.") = false
  /\ accessibilityScore (js "No markup here, only words.") = 90%Z.
Proof.
  split; [reflexivity|].
  pose proof (plain_text_page (js "No markup here, only words.") eq_refl)
    as [_ H].
  exact (f_equal a_accessibilityScore H).
Defined.

(** ** The normal forms of the normalizer *)

Lemma head_space_app_one (l : str) (x : char) :
  l <> [] -> head_space (l ++ [x]) = head_space l.
Proof. destruct l; [easy|reflexivity]. Qed.

Lemma rev_nonempty (l : str) : l <> [] -> rev l <> [].
Proof.
  destruct l as [|x l]; [easy|]. simpl. intros _ H.
  now apply app_eq_nil in H as [_ H].
Qed.

Lemma last_space_trim_end (s : str) : head_space (rev (trim_end s)) = false.
Proof.
  induction s as [|x s IH]; simpl; [reflexivity|].
  destruct (trim_end s) as [|y t] eqn:E.
  - destruct (is_space x) eqn:Ex; simpl; [reflexivity|exact Ex].
  - change (rev (x :: y :: t)) with (rev (y :: t) ++ [x]).
    rewrite head_space_app_one by (apply rev_nonempty; discriminate).
    exact IH.
Qed.

Lemma trim_end_id (t : str) : head_space (rev t) = false -> trim_end t = t.
Proof.
  induction t as [|x t IH]; simpl; [reflexivity|].
  destruct t as [|y t].
  - simpl. now intros ->.
  - intros H.
    rewrite head_space_app_one in H by (apply rev_nonempty; discriminate).
    now rewrite (IH H).
Qed.

Lemma stripTags_normal (s : str) : normal (stripTags s) = true.
Proof.
  unfold normal. rewrite stripTags_scan, trim_ends.
  rewrite notag_trim_end
    by apply notag_drop_space, notag_collapse_scan, notag_markup_scan.
  rewrite clean_trim_end by apply clean_drop_space, clean_collapse_scan.
  rewrite head_space_trim_end by apply head_space_drop.
  now rewrite last_space_trim_end.
Qed.

Lemma normal_fixed (t : str) : normal t = true -> stripTags t = t.
Proof.
  unfold normal. intros H.
  apply andb_true_iff in H as [H H4]. apply andb_true_iff in H as [H H3].
  apply andb_true_iff in H as [H1 H2].
  apply negb_true_iff in H3. apply negb_true_iff in H4.
  rewrite stripTags_scan, (markup_scan_notag space t H1),
    (collapse_scan_clean t H2), trim_ends, (drop_space_id t H3).
  now apply trim_end_id.
Qed.

(** Every output of the normalizer is a normal text: it holds no "<" that
    has a ">" after it, its white space is single spaces between words, and
    it neither starts nor ends with white space.  The texts the normalizer
    leaves unchanged are exactly the normal ones. *)
Theorem stripTags_normal_forms :
  (forall s, normal (stripTags s) = true)
  /\ (forall t, stripTags t = t <-> normal t = true).
Proof.
  split; [apply stripTags_normal|].
  intros t. split.
  - intros E. rewrite <- E. apply stripTags_normal.
  - apply normal_fixed.
Qed.

(** ** The two word counts *)

Lemma count_tokens_app_space (p r : str) :
  forall b,
    count_tokens b (p ++ space ++ r)
    = (count_tokens b p + count_tokens false r)%nat.
Proof.
  induction p as [|x p IH]; intros b.
  - reflexivity.
  - change ((x :: p) ++ space ++ r) with (x :: (p ++ space ++ r)).
    cbn [count_tokens]. destruct (is_space x).
    + apply IH.
    + rewrite (IH true). lia.
Qed.

Lemma token_count_join (ps : list str) :
  token_count (join space ps) = list_sum (map token_count ps).
Proof.
  unfold token_count.
  induction ps as [|p ps IH]; [reflexivity|].
  destruct ps as [|q ps].
  - simpl. lia.
  - change (join space (p :: q :: ps))
      with (p ++ space ++ join space (q :: ps)).
    rewrite count_tokens_app_space, IH. reflexivity.
Qed.

Lemma paragraphWordCounts_tokens (html : str) :
  paragraphWordCounts html = map token_count (paragraphTexts html).
Proof.
  unfold paragraphWordCounts. apply map_ext. apply words_count.
Qed.

Lemma wordCount_total (html : str) :
  wordCount html = sum (paragraphWordCounts html).
Proof.
  unfold wordCount. rewrite words_count, token_count_join.
  now rewrite sum_list_sum, paragraphWordCounts_tokens.
Qed.

(** The word count of the page, taken over the paragraphs joined by spaces,
    is the sum of the word counts of the paragraphs, so that the average
    paragraph length is the word count over the number of paragraphs. *)
Theorem wordCount_sum (html : str) :
  wordCount html = sum (paragraphWordCounts html)
  /\ avgParagraphLength html
     = match paragraphTexts html with
       | [] => 0%Q
       | _ :: _ =>
           (inject_Z (Z.of_nat (wordCount html))
            / inject_Z (Z.of_nat (length (paragraphTexts html))))%Q
       end.
Proof.
  pose proof (wordCount_total html) as W.
  split; [exact W|].
  unfold avgParagraphLength. rewrite <- W.
  unfold paragraphWordCounts. rewrite length_map.
  destruct (paragraphTexts html); reflexivity.
Qed.

(** A text that starts with a character other than white space has a
    word. *)
Lemma count_tokens_head (t : str) :
  nonempty t = true -> head_space t = false ->
  (1 <= count_tokens false t)%nat.
Proof.
  destruct t as [|x t]; [discriminate|].
  simpl. intros _ ->. lia.
Qed.

Lemma paragraphTexts_words (html : str) :
  Forall (fun p => (1 <= token_count p)%nat) (paragraphTexts html).
Proof.
  unfold paragraphTexts. apply Forall_forall. intros p Hp.
  apply filter_In in Hp as [Hin Hne].
  apply in_map_iff in Hin as (c & <- & _).
  apply count_tokens_head; [exact Hne|].
  pose proof (stripTags_normal c) as N. unfold normal in N.
  apply andb_true_iff in N as [N _]. apply andb_true_iff in N as [_ N].
  now apply negb_true_iff in N.
Qed.

Lemma list_sum_at_least (l : list nat) :
  Forall (fun n => (1 <= n)%nat) l -> (length l <= list_sum l)%nat.
Proof.
  induction 1 as [|n l Hn _ IH]; simpl; lia.
Qed.

Lemma Qdiv_ge_Z (a b c : Z) :
  (0 < b)%Z ->
  Qle_bool (inject_Z c) (inject_Z a / inject_Z b) = (c * b <=? a)%Z.
Proof.
  intros Hb. destruct b as [|p|p]; try lia.
  unfold Qle_bool, Qdiv, Qmult, Qinv, inject_Z. simpl.
  rewrite !Z.mul_1_r.
  reflexivity.
Qed.

(** Every paragraph that is kept has at least one word: the page has at
    least as many words as paragraphs, and the average paragraph length is
    at least 1 unless there is no paragraph, when it is 0. *)
Theorem paragraphs_have_words (html : str) :
  Forall (fun n => (1 <= n)%nat) (paragraphWordCounts html)
  /\ (length (paragraphTexts html) <= wordCount html)%nat
  /\ Qgtb 1 (avgParagraphLength html)
     = match paragraphTexts html with [] => true | _ :: _ => false end.
Proof.
  pose proof (paragraphTexts_words html) as F.
  assert (L : (length (paragraphTexts html)
               <= list_sum (map token_count (paragraphTexts html)))%nat).
  { pose proof (@list_sum_at_least (map token_count (paragraphTexts html))) as G.
    rewrite length_map in G. apply G. now apply Forall_map. }
  split; [|split].
  - rewrite paragraphWordCounts_tokens. now apply Forall_map.
  - rewrite (wordCount_total html), sum_list_sum.
    now rewrite paragraphWordCounts_tokens.
  - rewrite avgParagraphLength_mean.
    destruct (paragraphTexts html) as [|p ps] eqn:E; [reflexivity|].
    unfold Qgtb, mean. cbn [map].
    change 1%Q with (inject_Z 1).
    rewrite Qdiv_ge_Z by (simpl length; lia).
    apply negb_false_iff, Z.leb_le.
    cbn [map] in L. simpl length in *. rewrite length_map. lia.
Qed.

(** ** Bounds on the defect counts *)

Lemma filter_length_le (A : Type) (p : A -> bool) (l : list A) :
  (length (filter p l) <= length l)%nat.
Proof.
  induction l as [|x l IH]; simpl; [lia|].
  destruct (p x); simpl; lia.
Qed.

(** After a jump the level is at least 4, and no jump starts from there:
    no two jumps follow each other. *)
Lemma jumps_bound (l : list number) :
  Forall is_level l ->
  (2 * jumps l <= length l)%nat
  /\ (forall k t, l = Some k :: t -> (4 <= k)%Z ->
        (2 * jumps l + 1 <= length l)%nat).
Proof.
  induction 1 as [|x l Hx Hl IH].
  - split; [unfold jumps; simpl; lia|]. intros k t E. discriminate E.
  - destruct IH as [A B].
    destruct l as [|y l].
    + split; [unfold jumps; simpl; lia|].
      intros k t _ _. unfold jumps. simpl. lia.
    + destruct Hx as (p & -> & Hp).
      inversion Hl as [|? ? Hy _]; subst.
      destruct Hy as (c & -> & Hc).
      unfold jumps in *.
      change (adjacent (Some p :: Some c :: l))
        with ((Some p, Some c) :: adjacent (Some c :: l)).
      cbn [filter fst snd jump].
      destruct (c - p >? 2)%Z eqn:J.
      * apply Z.gtb_lt in J.
        specialize (B c l eq_refl ltac:(lia)).
        split; [simpl length in *; lia|].
        intros k t E Hk. injection E as <- _. lia.
      * split; [simpl length in *; lia|].
        intros k t _ _. simpl length in *. lia.
Qed.

(** The check never counts more images without alt text than the density
    evaluator counts images, nor more unlabeled buttons than there are
    button blocks; and since no two jumps of level follow each other, the
    heading-order issues are at most half the number of headings. *)
Theorem defect_counts_bounded (html : str) :
  (imagesMissingAlt html <= imageCount html)%nat
  /\ (unlabeledButtons html <= length (buttonBlocks html))%nat
  /\ (2 * headingOrderIssues html <= length (headingLevels html))%nat.
Proof.
  split; [|split].
  - unfold imagesMissingAlt, imageCount. rewrite count_loop. simpl.
    apply filter_length_le.
  - unfold unlabeledButtons. rewrite count_loop. simpl.
    apply filter_length_le.
  - unfold headingOrderIssues. rewrite count_jumps_adjacent.
    apply jumps_bound, headingLevels_valid.
Qed.

(** ** The accessibility score and its notes *)

Local Open Scope Z_scope.

Lemma accessibilityScore_perfect (html : str) :
  0 <= accessibilityScore html <= 100
  /\ (accessibilityScore html = 100
      <-> h1Count html = 1%nat /\ imagesMissingAlt html = 0%nat
          /\ unlabeledButtons html = 0%nat
          /\ headingOrderIssues html = 0%nat).
Proof.
  unfold accessibilityScore.
  destruct (Nat.eqb_spec (h1Count html) 0) as [E0|E0];
    destruct (Nat.ltb_spec 1 (h1Count html)) as [E1|E1];
    cbv zeta;
    match goal with
    | |- context [if (?a <? ?b) then _ else _] =>
        destruct (Z.ltb_spec a b) as [E|E]
    end; lia.
Qed.

Local Close Scope Z_scope.

(** The score lies between 0 and 100, and it is 100 exactly when the page
    has one h1, no image without alt text, no unlabeled button and no
    heading-order issue. *)
Theorem accessibilityScore_range :
  forall html,
    (0 <= accessibilityScore html <= 100)%Z
    /\ (accessibilityScore html = 100%Z
        <-> h1Count html = 1%nat /\ imagesMissingAlt html = 0%nat
            /\ unlabeledButtons html = 0%nat
            /\ headingOrderIssues html = 0%nat).
Proof.
  intros html. split; [apply accessibilityScore_perfect|].
  apply accessibilityScore_perfect.
Qed.

Lemma last_of_app (a b : str) : b <> [] -> last_of (a ++ b) = last_of b.
Proof.
  intros Hb. unfold last_of.
  induction a as [|x a IH]; [reflexivity|].
  simpl. destruct (a ++ b) eqn:E; [|exact IH].
  apply app_eq_nil in E as [_ E]. contradiction.
Qed.

(** The check gives four notes, for the h1, the images, the buttons and
    the heading order; a note ends with the check mark when its count is as
    it should be and with a full stop otherwise, so that the four notes all
    end with the check mark exactly when the score is 100. *)
Theorem accessibility_notes_score (html : str) :
  length (accessibility_notes html) = 4%nat
  /\ map last_of (accessibility_notes html)
     = [ (if Nat.eqb (h1Count html) 1 then check_mark else ch ".");
         (if Nat.eqb (imagesMissingAlt html) 0 then check_mark else ch ".");
         (if Nat.eqb (unlabeledButtons html) 0 then check_mark else ch ".");
         (if Nat.eqb (headingOrderIssues html) 0 then check_mark
          else ch ".") ]
  /\ (map last_of (accessibility_notes html)
      = [check_mark; check_mark; check_mark; check_mark]
      <-> accessibilityScore html = 100%Z).
Proof.
  assert (M : map last_of (accessibility_notes html)
     = [ (if Nat.eqb (h1Count html) 1 then check_mark else ch ".");
         (if Nat.eqb (imagesMissingAlt html) 0 then check_mark else ch ".");
         (if Nat.eqb (unlabeledButtons html) 0 then check_mark else ch ".");
         (if Nat.eqb (headingOrderIssues html) 0 then check_mark
          else ch ".") ]).
  { unfold accessibility_notes.
    destruct (h1Count html) as [|[|n]];
      destruct (imagesMissingAlt html) as [|a];
      destruct (unlabeledButtons html) as [|b];
      destruct (headingOrderIssues html) as [|c];
      cbn [Nat.eqb Nat.ltb Nat.leb app map];
      rewrite ?last_of_app by discriminate; reflexivity. }
  split; [|split; [exact M|]].
  - apply (f_equal (@length char)) in M. now rewrite length_map in M.
  - rewrite M.
    destruct (accessibilityScore_perfect html) as [_ P]. rewrite P.
    destruct (h1Count html) as [|[|n]];
      destruct (imagesMissingAlt html) as [|a];
      destruct (unlabeledButtons html) as [|b];
      destruct (headingOrderIssues html) as [|c];
      cbn [Nat.eqb]; split; intros H;
      try discriminate H; try (repeat split; reflexivity);
      try (destruct H as (H1 & H2 & H3 & H4); discriminate).
Qed.

(** ** What counts as an image *)

Local Open Scope N_scope.

(** Under the [i] flag a lower-case letter stands for itself and for its
    capital. *)
Lemma ceq_letter (c x : char) :
  in_range 97 122 c = true -> ceq true c x = true -> x = c \/ x = c - 32.
Proof.
  unfold ceq, canon, in_range. intros Hc. rewrite Hc.
  apply andb_true_iff in Hc as [C1 C2].
  apply N.leb_le in C1. apply N.leb_le in C2.
  destruct (97 <=? x) eqn:E1; destruct (x <=? 122) eqn:E2; cbn [andb];
    intros H; apply N.eqb_eq in H;
    try apply N.leb_le in E1; try apply N.leb_le in E2;
    try apply N.leb_gt in E1; try apply N.leb_gt in E2; lia.
Qed.

Lemma ceq_lt (x : char) : ceq true (ch "<") x = (x =? ch "<").
Proof. rewrite ceq_plain by reflexivity. apply N.eqb_sym. Qed.

Lemma ceq_gt (x : char) : ceq true (ch ">") x = (x =? ch ">").
Proof. rewrite ceq_plain by reflexivity. apply N.eqb_sym. Qed.

Local Close Scope N_scope.

(** [^>]*> under the [i] flag, before the rest [T] of a pattern: the text
    up to the first ">", then what [T] matches. *)
Lemma star_gt_then (T : regex) (s : str) :
  forall prev g w rest g',
    star_greedy true (CNot (ch ">")) (rmatch true (lit ">" :: T)) prev s g
    = Some (w, rest, g') ->
    exists a wT sT gT,
      w = a ++ ch ">" :: wT
      /\ (forall t, after_gt (a ++ ch ">" :: t) = Some t)
      /\ rmatch true T (Some (ch ">")) sT gT = Some (wT, rest, g').
Proof.
  induction s as [|x s IH]; intros prev g w rest g' H.
  - discriminate H.
  - cbn [star_greedy cls_match] in H. rewrite ceq_gt in H.
    assert (C : forall p, rmatch true (lit ">" :: T) p (x :: s) g
                = if (x =? ch ">")%N
                  then mcons x (rmatch true T (Some x) s (gpush x g))
                  else None).
    { intros p. cbn [rmatch lit cls_match]. now rewrite ceq_gt. }
    destruct (x =? ch ">")%N eqn:E; cbn [negb] in H.
    + rewrite C in H. rewrite ?E in H. apply N.eqb_eq in E. subst x.
      apply mcons_some in H as (wT & -> & H).
      exists [], wT, s, (gpush (ch ">") g).
      split; [reflexivity|]. split; [|exact H].
      intros t. reflexivity.
    + destruct (mcons x (star_greedy true (CNot (ch ">"))
                           (rmatch true (lit ">" :: T)) (Some x) s
                           (gpush x g))) as [r|] eqn:R.
      * injection H as ->.
        apply mcons_some in R as (w' & -> & R).
        apply IH in R as (a & wT & sT & gT & -> & A & R).
        exists (x :: a), wT, sT, gT.
        split; [reflexivity|]. split; [|exact R].
        intros t. simpl. rewrite E. apply A.
      * rewrite C in H. rewrite ?E in H. discriminate H.
Qed.

Lemma rmatch_img_shape (prev : option char) (s w rest : str) (g : groups) :
  rmatch true re_img prev s gnone = Some (w, rest, g) -> is_img_tag w = true.
Proof.
  unfold re_img. intros H.
  destruct s as [|x [|a [|b [|c s]]]];
    try (cbn [rmatch lit] in H;
         repeat match type of H with
                | context [cls_match true ?k ?y] =>
                    destruct (cls_match true k y); cbn [mcons] in H
                end; discriminate H).
  change (rmatch true
            [lit "<"; lit "i"; lit "m"; lit "g"; WordB;
             Star (CNot (ch ">")); lit ">"] prev (x :: a :: b :: c :: s)
            gnone)
    with (if ceq true (ch "<") x then
            mcons x (if ceq true (ch "i") a then
              mcons a (if ceq true (ch "m") b then
                mcons b (if ceq true (ch "g") c then
                  mcons c (if at_boundary (Some c) s then
                    star_greedy true (CNot (ch ">")) (rmatch true [lit ">"])
                      (Some c) s gnone
                    else None)
                  else None)
                else None)
              else None)
          else None) in H.
  destruct (ceq true (ch "<") x) eqn:Ex; [|discriminate H].
  destruct (ceq true (ch "i") a) eqn:Ea; [|discriminate H].
  destruct (ceq true (ch "m") b) eqn:Eb; [|discriminate H].
  destruct (ceq true (ch "g") c) eqn:Ec; [|discriminate H].
  destruct (at_boundary (Some c) s) eqn:B; [|discriminate H].
  apply mcons_some in H as (w1 & -> & H).
  apply mcons_some in H as (w2 & -> & H).
  apply mcons_some in H as (w3 & -> & H).
  apply mcons_some in H as (w4 & -> & H).
  pose proof (@star_greedy_splits true (CNot (ch ">")) _
                (@rmatch_splits true [lit ">"]) _ _ _ _ _ _ H) as S.
  apply star_gt_then in H as (body & wT & sT & gT & -> & A & H).
  cbn [rmatch] in H. injection H as <- _ _.
  unfold is_img_tag. rewrite Ea, Eb, Ec, A. rewrite ceq_lt in Ex. rewrite Ex.
  cbn [andb]. rewrite andb_true_r.
  assert (W : is_word c = true).
  { apply ceq_letter in Ec as [-> | ->]; reflexivity. }
  unfold at_boundary in B. rewrite W in B.
  subst s. destruct body as [|y body]; cbn [app head_word] in *.
  - apply negb_true_iff. now destruct (is_word (ch ">")).
  - now destruct (is_word y).
Qed.

(** Every tag that is counted as an image, by either tool, is a "<", the
    letters img in either case, then a character that is no letter, digit
    or underscore, and runs up to the first ">": a tag whose name only
    starts with img is not an image, nor is one that is never closed. *)
Theorem imgTags_shape (html : str) :
  forallb is_img_tag (imgTags html) = true
  /\ imageCount html = length (imgTags html)
  /\ imgTags (js "<imgx src='a'><img_x><img src='a'") = [].
Proof.
  split; [|split; [reflexivity|vm_compute; reflexivity]].
  apply forallb_forall. intros t Ht.
  unfold imgTags, match_all, exec_all in Ht.
  apply in_map_iff in Ht as (h & <- & Hh).
  assert (F : Forall (fun h => is_img_tag (h_whole h) = true)
                (fst (exec_loop (S (length html)) true re_img None [] html))).
  { apply (@exec_loop_hits true re_img (fun w _ => is_img_tag w = true)).
    intros prev s w rest g H. eapply rmatch_img_shape; eauto. }
  rewrite Forall_forall in F. apply F, Hh.
Qed.

(** ** The content of a paragraph *)

Lemma starts_close_app (t r : str) :
  (4 <= length t)%nat -> starts_close (t ++ r) = starts_close t.
Proof.
  destruct t as [|a [|b [|c [|d t]]]]; simpl; try lia. reflexivity.
Qed.

Lemma close_regex (prev : option char) (s : str) (g : groups) (acc : str) :
  g 1%nat = GRec acc ->
  match rmatch true re_close_p prev s g with
  | Some (w, rest, g') =>
      starts_close s = true /\ length w = 4%nat
      /\ gvalue g' 1 = Some (rev acc)
  | None => starts_close s = false
  end.
Proof.
  intros Hg. unfold re_close_p. cbn [rmatch]. rewrite Hg.
  destruct s as [|a [|b [|c [|d s]]]]; cbn [rmatch lit cls_match starts_close].
  - reflexivity.
  - destruct (ceq true (ch "<") a); reflexivity.
  - destruct (ceq true (ch "<") a); [|reflexivity].
    destruct (ceq true (ch "/") b); reflexivity.
  - destruct (ceq true (ch "<") a); [|reflexivity].
    destruct (ceq true (ch "/") b); [|reflexivity].
    destruct (ceq true (ch "p") c); reflexivity.
  - destruct (ceq true (ch "<") a); [|reflexivity].
    destruct (ceq true (ch "/") b); [|reflexivity].
    destruct (ceq true (ch "p") c); [|reflexivity].
    destruct (ceq true (ch ">") d); [|reflexivity].
    cbn [mcons andb length]. repeat split.
Qed.

(** The lazy star stops at the first closing tag. *)
Lemma lazy_close (s : str) :
  forall prev g acc w rest g',
    g 1%nat = GRec acc ->
    star_lazy true CAny (rmatch true re_close_p) prev s g
    = Some (w, rest, g') ->
    exists inner close,
      w = inner ++ close /\ length close = 4%nat
      /\ until_close w = Some (inner, close)
      /\ gvalue g' 1 = Some (rev acc ++ inner).
Proof.
  induction s as [|x s IH]; intros prev g acc w rest g' Hg H.
  - cbn [star_lazy] in H.
    pose proof (close_regex prev [] g Hg) as C.
    destruct (rmatch true re_close_p prev [] g) as [[[w0 r0] g0]|];
      [|discriminate H].
    destruct C as [C _]. discriminate C.
  - cbn [star_lazy] in H.
    pose proof (close_regex prev (x :: s) g Hg) as C.
    destruct (rmatch true re_close_p prev (x :: s) g)
      as [[[w0 r0] g0]|] eqn:E.
    + injection H as -> -> ->. destruct C as (C1 & C2 & C3).
      apply rmatch_splits in E.
      exists [], w. rewrite app_nil_r. repeat split; auto.
      rewrite E, starts_close_app in C1 by lia.
      destruct w as [|a w]; [discriminate C2|].
      cbn [until_close]. now rewrite C1.
    + cbn [cls_match] in H.
      apply mcons_some in H as (w' & -> & H).
      pose proof (@star_lazy_splits true CAny _ (@rmatch_splits true re_close_p)
                    _ _ _ _ _ _ H) as S.
      assert (Hg' : gpush x g 1%nat = GRec (x :: acc))
        by (unfold gpush; now rewrite Hg).
      destruct (IH _ _ _ _ _ _ Hg' H) as (inner & close & -> & L & U & G).
      exists (x :: inner), close. repeat split; auto.
      * assert (F : starts_close (x :: inner ++ close) = false).
        { rewrite <- C. rewrite S.
          change (x :: (inner ++ close) ++ rest)
            with ((x :: inner ++ close) ++ rest).
          symmetry. apply starts_close_app.
          simpl. rewrite length_app. lia. }
        change ((x :: inner) ++ close) with (x :: inner ++ close).
        cbn [until_close]. rewrite F, U. reflexivity.
      * rewrite G. simpl. now rewrite <- app_assoc.
Qed.

Lemma rmatch_paragraph (prev : option char) (s w rest : str) (g : groups) :
  rmatch true (tag_regex (js "p")) prev s gnone = Some (w, rest, g) ->
  exists inner, gvalue g 1 = Some inner /\ content_of w = Some inner.
Proof.
  change (tag_regex (js "p"))
    with (lit "<" :: lit "p" :: WordB :: Star (CNot (ch ">")) :: lit ">"
            :: GOpen 1 :: LazyStar CAny :: re_close_p).
  intros H.
  destruct s as [|x [|c s]];
    try (cbn [rmatch lit] in H;
         repeat match type of H with
                | context [cls_match true ?k ?y] =>
                    destruct (cls_match true k y); cbn [mcons] in H
                end; discriminate H).
  change (rmatch true
            (lit "<" :: lit "p" :: WordB :: Star (CNot (ch ">")) :: lit ">"
               :: GOpen 1 :: LazyStar CAny :: re_close_p)
            prev (x :: c :: s) gnone)
    with (if ceq true (ch "<") x then
            mcons x (if ceq true (ch "p") c then
              mcons c (if at_boundary (Some c) s then
                star_greedy true (CNot (ch ">"))
                  (rmatch true (lit ">" :: GOpen 1 :: LazyStar CAny
                                  :: re_close_p))
                  (Some c) s (gpush c (gpush x gnone))
                else None)
              else None)
          else None) in H.
  destruct (ceq true (ch "<") x) eqn:Ex; [|discriminate H].
  destruct (ceq true (ch "p") c) eqn:Ec; [|discriminate H].
  destruct (at_boundary (Some c) s); [|discriminate H].
  apply mcons_some in H as (w1 & -> & H).
  apply mcons_some in H as (w2 & -> & H).
  apply star_gt_then in H as (a & wT & sT & gT & -> & A & H).
  change (rmatch true (GOpen 1 :: LazyStar CAny :: re_close_p)
            (Some (ch ">")) sT gT)
    with (star_lazy true CAny (rmatch true re_close_p) (Some (ch ">")) sT
            (gset 1 (GRec []) gT)) in H.
  apply (@lazy_close sT _ _ []) in H as (inner & close & -> & L & U & G);
    [|reflexivity].
  exists inner. split; [exact G|].
  unfold content_of.
  rewrite ceq_lt in Ex. apply N.eqb_eq in Ex. subst x.
  assert (Hc : (c =? ch ">")%N = false)
    by (apply ceq_letter in Ec as [-> | ->]; reflexivity).
  cbn [after_gt]. change (ch "<" =? ch ">")%N with false. cbv iota.
  rewrite Hc, A, U.
  destruct close as [|c1 [|c2 [|c3 [|c4 [|c5 close]]]]]; try discriminate L.
  reflexivity.
Qed.

(** The content that [getTagContents] returns for a paragraph is what lies
    between the first ">" of the element and the first closing tag after
    it: the element ends at the first closing tag, whatever paragraphs are
    opened inside it. *)
Theorem getTagContents_first_close (html : str) :
  map Some (getTagContents html (js "p"))
  = map content_of (match_all true (tag_regex (js "p")) html)
  /\ getTagContents (js "<p>a<p>b</p>c</p>") (js "p") = [js "a<p>b"].
Proof.
  split; [|vm_compute; reflexivity].
  unfold getTagContents, match_all, exec_all. rewrite !map_map.
  assert (F : Forall (fun h => exists inner,
                        h_group h 1%nat = Some inner
                        /\ content_of (h_whole h) = Some inner)
                (fst (exec_loop (S (length html)) true (tag_regex (js "p"))
                        None [] html))).
  { apply (@exec_loop_hits true (tag_regex (js "p"))
             (fun w grp => exists inner,
                  grp 1%nat = Some inner /\ content_of w = Some inner)).
    intros prev s w rest g H. eapply rmatch_paragraph; eauto. }
  induction F as [|h hs (inner & G & E) _ IH]; [reflexivity|].
  simpl. rewrite IH. f_equal.
  unfold group1. now rewrite G, E.
Qed.

(** ** Words of a normal text *)

Lemma last_space_tail (x : char) (s : str) :
  head_space (rev (x :: s)) = false -> head_space (rev s) = false.
Proof.
  destruct s as [|y s]; [reflexivity|].
  change (rev (x :: y :: s)) with (rev (y :: s) ++ [x]).
  now rewrite head_space_app_one by (apply rev_nonempty; discriminate).
Qed.

Lemma join_cons (a : str) (l : list str) :
  l <> [] -> join space (a :: l) = a ++ space ++ join space l.
Proof. destruct l; [easy|reflexivity]. Qed.

Lemma pieces_join (s : str) :
  forall prev sk,
    clean s = true -> head_space (rev s) = false ->
    (sk = [] -> head_space s = false) ->
    join space (filter nonempty (pieces (exec_from false re_spaces prev sk s)))
    = sk ++ s.
Proof.
  induction s as [s IH] using length_induction. intros prev sk Hc Hl Hsk.
  pose proof (rmatch_spaces prev s gnone) as H.
  destruct (rmatch false re_spaces prev s gnone) as [[[w rest] g']|] eqn:E.
  - destruct H as (Hw & x & s' & -> & Hx & ->).
    rewrite (@exec_from_hit false re_spaces prev sk _ w _ g' E Hw).
    unfold pieces. cbn [fst snd map app h_pre].
    fold (pieces (exec_from false re_spaces (last_char prev w) []
                    (drop_space s'))).
    simpl in Hc. rewrite Hx in Hc.
    apply andb_true_iff in Hc as [Hc1 Hc2].
    apply andb_true_iff in Hc1 as [Hx32 Hs'].
    apply N.eqb_eq in Hx32. apply negb_true_iff in Hs'. subst x.
    rewrite (drop_space_id s' Hs').
    assert (Hne : s' <> []).
    { intros ->. simpl in Hl. discriminate Hl. }
    assert (Hskne : nonempty sk = true).
    { destruct sk; [|reflexivity].
      specialize (Hsk eq_refl). simpl in Hsk. discriminate Hsk. }
    cbn [filter]. rewrite Hskne.
    assert (R : join space
                  (filter nonempty
                     (pieces (exec_from false re_spaces (last_char prev w)
                                [] s'))) = s').
    { apply (IH s'); [simpl; lia|exact Hc2| |auto].
      now apply last_space_tail in Hl. }
    rewrite join_cons.
    + rewrite R. reflexivity.
    + intros Z. rewrite Z in R. simpl in R. now subst s'.
  - destruct s as [|x s].
    + rewrite exec_from_nil by assumption.
      unfold pieces. simpl. rewrite app_nil_r.
      destruct sk; reflexivity.
    + rewrite exec_from_skip by assumption.
      simpl in Hc. rewrite H in Hc. simpl in Hc.
      rewrite IH; [now rewrite <- app_assoc|simpl; lia|exact Hc| |].
      * now apply last_space_tail in Hl.
      * intros Z. now apply app_eq_nil in Z as [_ Z].
Qed.

(** Splitting a normalized text into its words and joining the words with
    single spaces gives the text back. *)
Theorem words_join_normalized (s : str) :
  join space (words (stripTags s)) = stripTags s.
Proof.
  unfold words. rewrite split_re_pieces.
  pose proof (stripTags_normal s) as N. unfold normal in N.
  apply andb_true_iff in N as [N H4]. apply andb_true_iff in N as [N H3].
  apply andb_true_iff in N as [_ H2].
  apply negb_true_iff in H3. apply negb_true_iff in H4.
  now rewrite pieces_join.
Qed.

(** ** Headings of the two tools *)

Lemma star_gt_some (s : str) :
  forall prev g,
    has_gt s = true ->
    star_greedy true (CNot (ch ">")) (rmatch true [lit ">"]) prev s g <> None.
Proof.
  induction s as [|x s IH]; intros prev g H; [discriminate H|].
  cbn [star_greedy cls_match]. rewrite ceq_gt.
  unfold has_gt in H. simpl in H.
  destruct (x =? ch ">")%N eqn:E; cbn [negb].
  - cbn [rmatch lit cls_match]. rewrite ceq_gt, E. discriminate.
  - simpl in H. specialize (IH (Some x) (gpush x g) H).
    destruct (star_greedy true (CNot (ch ">")) (rmatch true [lit ">"])
                (Some x) s (gpush x g)) as [[[w rest] g']|];
      [discriminate|contradiction].
Qed.

Lemma star_gt_has (T : regex) (prev : option char) (s : str) (g : groups) :
  star_greedy true (CNot (ch ">")) (rmatch true (lit ">" :: T)) prev s g
  <> None -> has_gt s = true.
Proof.
  destruct (star_greedy true (CNot (ch ">")) (rmatch true (lit ">" :: T))
              prev s g) as [[[w rest] g']|] eqn:H; [|easy].
  intros _.
  pose proof (@star_greedy_splits true (CNot (ch ">")) _
                (@rmatch_splits true (lit ">" :: T)) _ _ _ _ _ _ H) as S.
  apply star_gt_then in H as (a & wT & sT & gT & -> & A & _).
  rewrite has_gt_after, S, <- app_assoc. simpl. now rewrite A.
Qed.

Lemma opens_heading_open (prev : option char) (s : str) :
  rmatch true re_heading_open prev s gnone = None -> opens_heading s = false.
Proof.
  unfold re_heading_open, opens_heading.
  destruct s as [|x [|c1 [|c2 s]]]; try reflexivity.
  change (rmatch true
            [lit "<"; lit "h"; One (CRange (ch "1") (ch "6")); WordB;
             Star (CNot (ch ">")); lit ">"] prev (x :: c1 :: c2 :: s) gnone)
    with (if ceq true (ch "<") x then
            mcons x (if ceq true (ch "h") c1 then
              mcons c1 (if cls_match true (CRange (ch "1") (ch "6")) c2 then
                mcons c2 (if at_boundary (Some c2) s then
                  star_greedy true (CNot (ch ">")) (rmatch true [lit ">"])
                    (Some c2) s gnone
                  else None)
                else None)
              else None)
          else None).
  destruct (ceq true (ch "<") x); [|reflexivity].
  destruct (ceq true (ch "h") c1); [|reflexivity].
  destruct (cls_match true (CRange (ch "1") (ch "6")) c2); [|reflexivity].
  destruct (at_boundary (Some c2) s); [|reflexivity].
  cbn [andb]. destruct (has_gt s) eqn:G; [|reflexivity].
  pose proof (@star_gt_some s (Some c2) gnone G) as N.
  destruct (star_greedy true (CNot (ch ">")) (rmatch true [lit ">"])
              (Some c2) s gnone) as [[[w rest] g']|]; [|contradiction].
  discriminate.
Qed.

Lemma mcons_none (x : char) (r : option mres) : mcons x r = None -> r = None.
Proof. destruct r as [[[w rest] g]|]; [discriminate|reflexivity]. Qed.

Lemma opens_heading_h1 (prev : option char) (s : str) :
  opens_heading s = false -> rmatch true re_h1 prev s gnone = None.
Proof.
  unfold re_h1, opens_heading.
  destruct s as [|x [|c1 [|c2 s]]];
    try (intros _; cbn [rmatch lit];
         repeat match goal with
                | |- context [cls_match true ?k ?y] =>
                    destruct (cls_match true k y); cbn [mcons]
                end; reflexivity).
  set (T := [GOpen 1; LazyStar CAny; GClose 1; lit "<"; lit "/"; lit "h";
             lit "1"; lit ">"]).
  change (rmatch true _ prev (x :: c1 :: c2 :: s) gnone)
    with (if ceq true (ch "<") x then
            mcons x (if ceq true (ch "h") c1 then
              mcons c1 (if ceq true (ch "1") c2 then
                mcons c2 (if at_boundary (Some c2) s then
                  star_greedy true (CNot (ch ">")) (rmatch true (lit ">" :: T))
                    (Some c2) s gnone
                  else None)
                else None)
              else None)
          else None).
  intros H.
  destruct (ceq true (ch "<") x); [|reflexivity].
  destruct (ceq true (ch "h") c1); [|reflexivity].
  destruct (ceq true (ch "1") c2) eqn:E2; [|reflexivity].
  assert (R : cls_match true (CRange (ch "1") (ch "6")) c2 = true).
  { rewrite ceq_plain in E2 by reflexivity. apply N.eqb_eq in E2.
    subst c2. reflexivity. }
  rewrite R in H.
  destruct (at_boundary (Some c2) s); [|reflexivity].
  cbn [andb] in H.
  destruct (star_greedy true (CNot (ch ">")) (rmatch true (lit ">" :: T))
              (Some c2) s gnone) as [r|] eqn:G; [|reflexivity].
  assert (G' : has_gt s = true) by (eapply star_gt_has; rewrite G; discriminate).
  congruence.
Qed.

Lemma opens_heading_element (prev : option char) (s : str) :
  opens_heading s = false -> rmatch true re_heading prev s gnone = None.
Proof.
  unfold re_heading, opens_heading.
  destruct s as [|x [|c1 [|c2 s]]];
    try (intros _; cbn [rmatch lit];
         repeat match goal with
                | |- context [cls_match true ?k ?y] =>
                    destruct (cls_match true k y); cbn [mcons]
                end; reflexivity).
  set (T := [GOpen 2; LazyStar CAny; GClose 2; lit "<"; lit "/"; Backref 1;
             lit ">"]).
  change (rmatch true _ prev (x :: c1 :: c2 :: s) gnone)
    with (if ceq true (ch "<") x then
            mcons x (if ceq true (ch "h") c1 then
              mcons c1 (if cls_match true (CRange (ch "1") (ch "6")) c2 then
                mcons c2 (if at_boundary (Some c2) s then
                  star_greedy true (CNot (ch ">")) (rmatch true (lit ">" :: T))
                    (Some c2) s
                    (gset 1 (GDone [c1; c2])
                       (gpush c2 (gpush c1 (gset 1 (GRec []) (gpush x gnone)))))
                  else None)
                else None)
              else None)
          else None).
  intros H.
  destruct (ceq true (ch "<") x); [|reflexivity].
  destruct (ceq true (ch "h") c1); [|reflexivity].
  destruct (cls_match true (CRange (ch "1") (ch "6")) c2); [|reflexivity].
  destruct (at_boundary (Some c2) s); [|reflexivity].
  cbn [andb] in H.
  match goal with
  | |- mcons _ (mcons _ (mcons _ ?t)) = None => destruct t as [r|] eqn:G
  end; [|reflexivity].
  assert (G' : has_gt s = true) by (eapply star_gt_has; rewrite G; discriminate).
  congruence.
Qed.

Lemma rsearch_none_mono (ic : bool) (r1 r2 : regex) (s : str) :
  (forall prev t, rmatch ic r1 prev t gnone = None ->
                  rmatch ic r2 prev t gnone = None) ->
  forall prev, rsearch ic r1 prev s = None -> rsearch ic r2 prev s = None.
Proof.
  intros M. induction s as [|x s IH]; intros prev H; cbn [rsearch] in *.
  - destruct (rmatch ic r1 prev [] gnone) as [[[w rest] g]|] eqn:E;
      [discriminate H|]. now rewrite (M _ _ E).
  - destruct (rmatch ic r1 prev (x :: s) gnone) as [[[w rest] g]|] eqn:E;
      [discriminate H|]. rewrite (M _ _ E).
    destruct (rsearch ic r1 (Some x) s) eqn:R; [discriminate H|].
    now rewrite (IH _ R).
Qed.

Lemma match_all_none (ic : bool) (r : regex) (s : str) :
  match_all ic r s = [] -> rsearch ic r None s = None.
Proof.
  unfold match_all, exec_all. cbn [exec_loop].
  destruct (rsearch ic r None s) as [h|]; [|reflexivity].
  destruct (h_whole h); destruct (h_rest h);
    try (intros H; discriminate H);
    match goal with
    | |- context [exec_loop ?f ic r ?p ?k ?t] =>
        destruct (exec_loop f ic r p k t)
    end; intros H; discriminate H.
Qed.

Lemma exec_all_none (ic : bool) (r : regex) (s : str) :
  rsearch ic r None s = None -> exec_all ic r s = ([], s).
Proof. intros H. unfold exec_all. cbn [exec_loop]. now rewrite H. Qed.

(** A page on which the density evaluator counts no heading has no h1 and
    no heading level for the accessibility check: an element starts with an
    opening tag.  The check then reports no heading-order issue and takes
    the 10 points of the missing h1. *)
Theorem no_heading_no_h1 (html : str) :
  headingCount html = 0%nat ->
  h1Count html = 0%nat /\ headingLevels html = []
  /\ headingOrderIssues html = 0%nat
  /\ (accessibilityScore html <= 90)%Z.
Proof.
  intros H.
  assert (N : rsearch true re_heading_open None html = None).
  { apply match_all_none. unfold headingCount in H.
    now destruct (match_all true re_heading_open html). }
  assert (N1 : rsearch true re_h1 None html = None).
  { revert N. apply rsearch_none_mono. intros prev t E.
    now apply opens_heading_h1, opens_heading_open with (prev := prev). }
  assert (N2 : rsearch true re_heading None html = None).
  { revert N. apply rsearch_none_mono. intros prev t E.
    now apply opens_heading_element, opens_heading_open with (prev := prev). }
  assert (H1 : h1Count html = 0%nat)
    by (unfold h1Count, match_all; now rewrite exec_all_none).
  assert (L : headingLevels html = [])
    by (unfold headingLevels; now rewrite exec_all_none).
  assert (I : headingOrderIssues html = 0%nat)
    by (unfold headingOrderIssues; now rewrite L).
  repeat split; auto.
  destruct (accessibilityScore_perfect html) as [[A B] _].
  unfold accessibilityScore in *. rewrite H1, I in *. cbn [Nat.eqb Nat.ltb Nat.leb] in *.
  cbv zeta in *.
  match goal with
  | |- context [if (?a <? ?b)%Z then _ else _] =>
      destruct (Z.ltb_spec a b)
  end; lia.
Qed.

Lemma no_heading_no_h1_witness :
  headingCount (js "<p>Only text.</p>") = 0%nat
  /\ h1Count (js "<p>Only text.</p>") = 0%nat.
Proof.
  split; [reflexivity|].
  exact (proj1 (no_heading_no_h1 (js "<p>Only text.</p>") eq_refl)).
Defined.

(** ** sgc_greeting *)



(** ** getDaySegment *)

(** The cascade of tests gives the hours of the comments of the type: for
    every hour of the day the segment of the table, night exactly before 4
    and from 23 on, and night also for the hour of an invalid date. *)
Theorem getDaySegment_hours :
  (forall h : Z, (0 <= h <= 23)%Z ->
     getDaySegment (Some h) = nth (Z.to_nat h) segment_table night)
  /\ (forall h : Z,
        getDaySegment (Some h) = night <-> (h < 4 \/ 23 <= h)%Z)
  /\ getDaySegment None = night.
Proof.
  split; [|split; [|reflexivity]].
  - intros h H.
    assert (C : (h = 0 \/ h = 1 \/ h = 2 \/ h = 3 \/ h = 4 \/ h = 5
                \/ h = 6 \/ h = 7 \/ h = 8 \/ h = 9 \/ h = 10 \/ h = 11
                \/ h = 12 \/ h = 13 \/ h = 14 \/ h = 15 \/ h = 16
                \/ h = 17 \/ h = 18 \/ h = 19 \/ h = 20 \/ h = 21
                \/ h = 22 \/ h = 23)%Z) by lia.
    repeat (destruct C as [C|C]; [subst h; reflexivity|]).
    subst h; reflexivity.
  - intros h. cbv beta iota zeta delta [getDaySegment].
    repeat match goal with
           | |- context [if (?a <=? ?b)%Z && _ then _ else _] =>
               destruct (Z.leb_spec a b); cbn [andb]
           | |- context [if (?a <? ?b)%Z then _ else _] =>
               destruct (Z.ltb_spec a b)
           end;
      (split; [intros E; try discriminate E; lia
              |intros E; try reflexivity; lia]).
Qed.

(** ** formatGreeting *)

Lemma strip_prefix_app (p b : str) : strip_prefix p (p ++ b) = Some b.
Proof.
  induction p as [|c p IH]; [reflexivity|].
  cbn [strip_prefix app]. now rewrite N.eqb_refl.
Qed.

Lemma find_first_here (pat s rest : str) :
  strip_prefix pat s = Some rest -> find_first pat s = Some ([], rest).
Proof. intros H. destruct s; cbn [find_first]; now rewrite H. Qed.

Lemma strip_prefix_other (c x : char) (p s : str) :
  (x =? c)%N = false -> strip_prefix (c :: p) (x :: s) = None.
Proof.
  intros H. cbn [strip_prefix]. now rewrite N.eqb_sym, H.
Qed.

Lemma find_first_placeholder (a b : str) :
  has_char (ch "{") a = false ->
  find_first (js "{name}") (a ++ js "{name}" ++ b) = Some (a, b).
Proof.
  induction a as [|x a IH]; intros H.
  - apply find_first_here. exact (strip_prefix_app (js "{name}") b).
  - unfold has_char in H. cbn [existsb] in H.
    apply orb_false_iff in H as [X H].
    change ((x :: a) ++ js "{name}" ++ b) with (x :: (a ++ js "{name}" ++ b)).
    cbn [find_first].
    change (js "{name}") with (ch "{" :: js "name}") at 1.
    rewrite (@strip_prefix_other _ _ _ _ X).
    now rewrite (IH H).
Qed.

Lemma find_first_absent (tpl : str) :
  has_char (ch "{") tpl = false -> find_first (js "{name}") tpl = None.
Proof.
  induction tpl as [|x t IH]; intros H; [reflexivity|].
  unfold has_char in H. cbn [existsb] in H.
  apply orb_false_iff in H as [X H].
  cbn [find_first].
  change (js "{name}") with (ch "{" :: js "name}") at 1.
  rewrite (@strip_prefix_other _ _ _ _ X).
  now rewrite (IH H).
Qed.

Lemma substitution_plain (matched before after rep : str) :
  has_char (ch "$") rep = false ->
  substitution matched before after rep = rep.
Proof.
  induction rep as [|c rep IH]; intros H; [reflexivity|].
  unfold has_char in H. cbn [existsb] in H.
  apply orb_false_iff in H as [X H].
  cbn [substitution]. rewrite X. now rewrite (IH H).
Qed.

(** A name without a dollar sign replaces the first placeholder of the
    template as it is written; a second placeholder stays; a template
    without a brace comes back unchanged. *)
Theorem formatGreeting_inserts (a b name : str) :
  has_char (ch "{") a = false ->
  has_char (ch "$") name = false ->
  formatGreeting (a ++ js "{name}" ++ b) name = a ++ name ++ b
  /\ formatGreeting (a ++ js "{name}" ++ b ++ js "{name}") name
     = a ++ name ++ b ++ js "{name}"
  /\ formatGreeting a name = a.
Proof.
  intros A D. unfold formatGreeting, replace_first.
  rewrite !find_first_placeholder by exact A.
  rewrite !substitution_plain by exact D.
  rewrite find_first_absent by exact A.
  repeat split.
Qed.

Lemma formatGreeting_inserts_witness :
  formatGreeting (js "Good morning, {name}!") (js "Ada")
  = js "Good morning, Ada!".
Proof.
  exact (proj1 (@formatGreeting_inserts (js "Good morning, ") (js "!")
                  (js "Ada") eq_refl eq_refl)).
Defined.

(** A dollar sign of the name is read as a replacement pattern: the name
    "$&" leaves the placeholder in the greeting, "$$" greets a single
    dollar sign, and the names of a dollar sign with a backquote or an
    apostrophe repeat the text before or after the placeholder. *)
Theorem formatGreeting_dollar (a b : str) :
  has_char (ch "{") a = false ->
  formatGreeting (a ++ js "{name}" ++ b) (js "$&") = a ++ js "{name}" ++ b
  /\ formatGreeting (a ++ js "{name}" ++ b) (js "$$") = a ++ js "$" ++ b
  /\ formatGreeting (a ++ js "{name}" ++ b) (js "$`") = a ++ a ++ b
  /\ formatGreeting (a ++ js "{name}" ++ b) (js "$'") = a ++ b ++ b.
Proof.
  intros A. unfold formatGreeting, replace_first.
  rewrite !find_first_placeholder by exact A.
  repeat split; cbn [substitution js map list_ascii_of_string];
    rewrite ?app_nil_r; reflexivity.
Qed.

Lemma formatGreeting_dollar_witness :
  formatGreeting (js "Hello, {name}!") (js "$&") = js "Hello, {name}!".
Proof.
  exact (proj1 (@formatGreeting_dollar (js "Hello, ") (js "!") eq_refl)).
Defined.

(** ** A match depends on the text matched alone *)

Section QuantifierConsumes.
Variable ic : bool.
Variable k : cls.
Variable cont : option char -> str -> groups -> option mres.
Hypothesis Hcont : consumes cont.

Lemma star_greedy_consumes : consumes (star_greedy ic k cont).
Proof.
  intros prev s; revert prev.
  induction s as [|x s IH]; intros prev g w rest g' H; cbn [star_greedy] in H.
  - eapply Hcont; eauto.
  - destruct (cls_match ic k x); [|eapply Hcont; eauto].
    destruct (mcons x (star_greedy ic k cont (Some x) s (gpush x g)))
      as [r|] eqn:E; [|eapply Hcont; eauto].
    injection H as ->. apply mcons_some in E as (w' & -> & _). discriminate.
Qed.

Lemma star_lazy_consumes : consumes (star_lazy ic k cont).
Proof.
  intros prev s g w rest g' H.
  destruct s as [|x s]; cbn [star_lazy] in H.
  - destruct (cont prev [] g) as [r|] eqn:E; [|discriminate H].
    injection H as ->. eapply Hcont; eauto.
  - destruct (cont prev (x :: s) g) as [r|] eqn:E.
    + injection H as ->. eapply Hcont; eauto.
    + destruct (cls_match ic k x); [|discriminate H].
      apply mcons_some in H as (w' & -> & _). discriminate.
Qed.

Lemma backref_consumes (v : str) : consumes (backref ic cont v).
Proof.
  intros prev s g w rest g' H.
  destruct v as [|c v]; cbn [backref] in H; [eapply Hcont; eauto|].
  destruct s as [|x s]; [discriminate H|].
  destruct (ceq ic c x); [|discriminate H].
  apply mcons_some in H as (w' & -> & _). discriminate.
Qed.
End QuantifierConsumes.

Lemma rmatch_consumes (ic : bool) (r : regex) :
  consuming r = true -> consumes (rmatch ic r).
Proof.
  induction r as [|a r IH]; intros C; [discriminate C|].
  intros prev s g w rest g' H.
  destruct a as [k|k|k| |n|n|n]; cbn [rmatch] in H;
    try (change (consuming r = true) in C; specialize (IH C)).
  - destruct s as [|x s]; [discriminate H|].
    destruct (cls_match ic k x); [|discriminate H].
    apply mcons_some in H as (w' & -> & _). discriminate.
  - eapply star_greedy_consumes; eauto.
  - eapply star_lazy_consumes; eauto.
  - destruct (at_boundary prev s); [eapply IH; eauto|discriminate H].
  - eapply IH; eauto.
  - destruct (g n); eapply IH; eauto.
  - destruct (g n) as [|a|v]; try (eapply IH; eassumption).
    exact (@backref_consumes ic (rmatch ic r) IH v _ _ _ _ _ _ H).
Qed.

Lemma length_zero (w : str) : (length w <= 0)%nat -> w = [].
Proof. destruct w; simpl; [reflexivity|lia]. Qed.

Section QuantifierLocal.
Variable ic : bool.
Variable k : cls.
Variable cont : option char -> str -> groups -> option mres.
Hypothesis Hcont : local cont.

Lemma star_greedy_falls_back (prev : option char) (s : str) (g : groups) :
  cont prev s g <> None -> star_greedy ic k cont prev s g <> None.
Proof.
  destruct s as [|x s]; cbn [star_greedy]; auto.
  destruct (cls_match ic k x); auto.
  destruct (mcons x (star_greedy ic k cont (Some x) s (gpush x g)));
    [discriminate|auto].
Qed.

Lemma star_lazy_first (prev : option char) (s : str) (g : groups) :
  cont prev s g <> None -> star_lazy ic k cont prev s g <> None.
Proof.
  intros H. destruct s as [|x s]; cbn [star_lazy];
    destruct (cont prev _ g); try discriminate; contradiction.
Qed.

Lemma star_greedy_local : local (star_greedy ic k cont).
Proof.
  intros prev s1; revert prev.
  induction s1 as [|x s1 IH]; intros prev s2 g.
  - destruct (Hcont prev [] s2 g) as [C1 C2]. cbn [app] in *. split.
    + intros w rest g' H L. apply length_zero in L. subst w.
      cbn [star_greedy]. apply (C1 [] rest g'); [|simpl; lia].
      destruct s2 as [|y s2]; cbn [star_greedy] in H; [exact H|].
      destruct (cls_match ic k y); [|exact H].
      destruct (mcons y (star_greedy ic k cont (Some y) s2 (gpush y g)))
        as [r|] eqn:E; [|exact H].
      injection H as ->. apply mcons_some in E as (w' & W & _).
      discriminate W.
    + intros H. apply star_greedy_falls_back. apply C2. exact H.
  - destruct (IH (Some x) s2 (gpush x g)) as [I1 I2].
    destruct (Hcont prev (x :: s1) s2 g) as [C1 C2].
    change ((x :: s1) ++ s2) with (x :: (s1 ++ s2)) in *.
    cbn [star_greedy].
    destruct (cls_match ic k x); [|split; assumption].
    destruct (star_greedy ic k cont (Some x) (s1 ++ s2) (gpush x g))
      as [[[wf rf] gf]|] eqn:F.
    + cbn [mcons]. split; [|discriminate].
      intros w rest g' H L. injection H as <- <- <-. simpl in L.
      destruct (I1 _ _ _ eq_refl) as (t & T); [lia|].
      rewrite T. cbn [mcons]. eauto.
    + destruct (star_greedy ic k cont (Some x) s1 (gpush x g)) as [r|] eqn:T.
      * exfalso. apply I2; [discriminate|reflexivity].
      * cbn [mcons]. split; assumption.
Qed.

Lemma star_lazy_local : local (star_lazy ic k cont).
Proof.
  intros prev s1; revert prev.
  induction s1 as [|x s1 IH]; intros prev s2 g.
  - destruct (Hcont prev [] s2 g) as [C1 C2]. cbn [app] in *. split.
    + intros w rest g' H L. apply length_zero in L. subst w.
      assert (C : cont prev s2 g = Some ([], rest, g')).
      { destruct s2 as [|y s2]; cbn [star_lazy] in H.
        - destruct (cont prev [] g); [exact H|discriminate H].
        - destruct (cont prev (y :: s2) g); [exact H|].
          destruct (cls_match ic k y); [|discriminate H].
          apply mcons_some in H as (w' & W & _). discriminate W. }
      destruct (C1 _ _ _ C) as (t & T); [simpl; lia|].
      cbn [star_lazy]. rewrite T. eauto.
    + intros H. apply star_lazy_first. apply C2.
      cbn [star_lazy] in H. destruct (cont prev [] g);
        [discriminate|contradiction].
  - destruct (IH (Some x) s2 (gpush x g)) as [I1 I2].
    destruct (Hcont prev (x :: s1) s2 g) as [C1 C2].
    change ((x :: s1) ++ s2) with (x :: (s1 ++ s2)) in *.
    cbn [star_lazy].
    destruct (cont prev (x :: s1 ++ s2) g) as [[[wf rf] gf]|] eqn:F.
    + split.
      * intros w rest g' H L. injection H as <- <- <-.
        destruct (C1 _ _ _ eq_refl L) as (t & T). rewrite T. eauto.
      * intros _. discriminate.
    + destruct (cont prev (x :: s1) g) as [r|] eqn:T.
      * exfalso. apply C2; [discriminate|reflexivity].
      * destruct (cls_match ic k x); [|split; [discriminate|auto]].
        destruct (star_lazy ic k cont (Some x) (s1 ++ s2) (gpush x g))
          as [[[wi ri] gi]|] eqn:Fi.
        -- cbn [mcons]. split; [|discriminate].
           intros w rest g' H L. injection H as <- <- <-. simpl in L.
           destruct (I1 _ _ _ eq_refl) as (t & Ti); [lia|].
           rewrite Ti. cbn [mcons]. eauto.
        -- destruct (star_lazy ic k cont (Some x) s1 (gpush x g))
             as [r|] eqn:Ti.
           ++ exfalso. apply I2; [discriminate|reflexivity].
           ++ cbn [mcons]. split; [discriminate|auto].
Qed.

Lemma backref_local (v : str) : local (backref ic cont v).
Proof.
  induction v as [|c v IH]; intros prev s1 s2 g; [apply Hcont|].
  destruct s1 as [|x s1].
  - cbn [app backref]. split; [|intros H; contradiction].
    intros w rest g' H L. apply length_zero in L. subst w.
    destruct s2 as [|y s2]; [discriminate H|].
    destruct (ceq ic c y); [|discriminate H].
    apply mcons_some in H as (w' & W & _). discriminate W.
  - change ((x :: s1) ++ s2) with (x :: (s1 ++ s2)). cbn [backref].
    destruct (IH (Some x) s1 s2 (gpush x g)) as [I1 I2].
    destruct (ceq ic c x); [|split; [discriminate|auto]].
    split.
    + intros w rest g' H L. apply mcons_some in H as (w' & -> & H).
      simpl in L. destruct (I1 _ _ _ H) as (t & T); [lia|].
      rewrite T. cbn [mcons]. eauto.
    + intros H.
      destruct (backref ic cont v (Some x) s1 (gpush x g)) as [r|] eqn:T;
        [|contradiction].
      destruct (backref ic cont v (Some x) (s1 ++ s2) (gpush x g))
        as [[[wf rf] gf]|] eqn:F; [discriminate|].
      exfalso. apply I2; [discriminate|reflexivity].
Qed.
End QuantifierLocal.

Lemma rmatch_local (ic : bool) (r : regex) :
  safe r = true -> local (rmatch ic r).
Proof.
  induction r as [|a r IH]; intros S.
  - intros prev s1 s2 g. cbn [rmatch]. split; [|discriminate].
    intros w rest g' H _. injection H as <- <- <-. eauto.
  - destruct a as [k|k|k| |n|n|n];
      try (change (safe r = true) in S; specialize (IH S)).
    + intros prev s1 s2 g. destruct s1 as [|x s1].
      * cbn [app rmatch]. split; [|intros H; contradiction].
        intros w rest g' H L. apply length_zero in L. subst w.
        destruct s2 as [|y s2]; [discriminate H|].
        destruct (cls_match ic k y); [|discriminate H].
        apply mcons_some in H as (w' & W & _). discriminate W.
      * change ((x :: s1) ++ s2) with (x :: (s1 ++ s2)). cbn [rmatch].
        destruct (IH (Some x) s1 s2 (gpush x g)) as [I1 I2].
        destruct (cls_match ic k x); [|split; [discriminate|auto]].
        split.
        -- intros w rest g' H L. apply mcons_some in H as (w' & -> & H).
           simpl in L. destruct (I1 _ _ _ H) as (t & T); [lia|].
           rewrite T. cbn [mcons]. eauto.
        -- intros H.
           destruct (rmatch ic r (Some x) s1 (gpush x g)) as [r0|] eqn:T;
             [|contradiction].
           destruct (rmatch ic r (Some x) (s1 ++ s2) (gpush x g))
             as [[[wf rf] gf]|] eqn:F; [discriminate|].
           exfalso. apply I2; [discriminate|reflexivity].
    + cbn [rmatch]. apply star_greedy_local, IH.
    + cbn [rmatch]. apply star_lazy_local, IH.
    + cbn [safe] in S. apply andb_true_iff in S as [C S].
      specialize (IH S). pose proof (@rmatch_consumes ic r C) as N.
      intros prev s1 s2 g. cbn [rmatch]. destruct s1 as [|x s1].
      * cbn [app]. split.
        -- intros w rest g' H L. apply length_zero in L. subst w.
           destruct (at_boundary prev s2); [|discriminate H].
           now apply N in H.
        -- intros H. exfalso.
           destruct (at_boundary prev []); [|contradiction].
           destruct (rmatch ic r prev [] g) as [[[w t] g']|] eqn:E;
             [|contradiction].
           pose proof E as P. apply rmatch_splits in P.
           apply N in E. destruct w; [contradiction|discriminate P].
      * change (at_boundary prev ((x :: s1) ++ s2))
          with (at_boundary prev (x :: s1)).
        destruct (at_boundary prev (x :: s1)); [apply IH|].
        split; [discriminate|auto].
    + intros prev s1 s2 g. cbn [rmatch]. apply IH.
    + intros prev s1 s2 g. cbn [rmatch]. destruct (g n); apply IH.
    + intros prev s1 s2 g. cbn [rmatch].
      destruct (g n); try apply IH. now apply backref_local.
Qed.

(** What the pattern matched in a text, it matches again in the match
    itself, from its first character to its last and with the same
    groups. *)
Lemma rmatch_again (ic : bool) (k : cls) (r : regex) :
  safe r = true ->
  forall prev s w rest g,
    rmatch ic (One k :: r) prev s gnone = Some (w, rest, g) ->
    rsearch ic (One k :: r) None w = Some (mkHit [] w [] (gvalue g)).
Proof.
  intros S prev s w rest g H.
  pose proof H as P. apply rmatch_splits in P. subst s.
  destruct (@rmatch_local ic (One k :: r) S prev w rest gnone) as [L _].
  destruct (L _ _ _ H (Nat.le_refl _)) as (t & T).
  pose proof T as P. apply rmatch_splits in P.
  assert (t = []).
  { rewrite <- (app_nil_r w) in P at 1. now apply app_inv_head in P. }
  subst t.
  assert (T' : rmatch ic (One k :: r) None w gnone = Some (w, [], g))
    by (destruct w; exact T).
  destruct w; cbn [rsearch]; now rewrite T'.
Qed.

(** ** The inner HTML of a button *)

(** The second search of the loop over the buttons always succeeds, and
    it finds for every block the inner HTML that [buttonRegex] had
    captured in [html]: the empty inner HTML of a failed search is never
    used. *)
Theorem innerHtml_of_block (html : str) :
  map innerHtml (buttonBlocks html)
  = map group1 (fst (exec_all true re_button html))
  /\ Forall (fun block => rsearch true re_button None block <> None)
       (buttonBlocks html).
Proof.
  assert (F : Forall (fun h => rsearch true re_button None (h_whole h)
                               = Some (mkHit [] (h_whole h) [] (h_group h)))
                (fst (exec_all true re_button html))).
  { apply (@exec_loop_hits true re_button
             (fun w grp => rsearch true re_button None w
                           = Some (mkHit [] w [] grp))).
    intros prev s w rest g H.
    apply (@rmatch_again true (CLit (ch "<")) (tl re_button) eq_refl
             prev s w rest g H). }
  unfold buttonBlocks. rewrite map_map, Forall_map.
  split.
  - induction F as [|h hs E _ IH]; [reflexivity|].
    cbn [map]. rewrite IH. f_equal. unfold innerHtml. now rewrite E.
  - eapply Forall_impl; [|exact F]. intros h E. rewrite E. discriminate.
Qed.

(** ** The average that is returned *)

Lemma round_quotient (a : Z) (p : positive) :
  round (inject_Z a / inject_Z (Zpos p)) = ((2 * a + Zpos p) / (2 * Zpos p))%Z.
Proof.
  unfold round, Qfloor, Qplus, Qdiv, Qmult, Qinv, inject_Z.
  cbn [Qnum Qden]. f_equal; lia.
Qed.

(** The [avgParagraphLength] of the result is the word count of the result
    over the number of paragraphs that are kept, rounded to the nearest
    integer with a half going up; it is 0 for a page without such a
    paragraph, which has no word, and at least 1 for every other page. *)
Theorem avgParagraphLength_returned (html : str) :
  let r := content_density_evaluator html in
  let P := Z.of_nat (length (paragraphTexts html)) in
  let W := Z.of_nat (d_wordCount r) in
  let avg := d_avgParagraphLength r in
  (P = 0 -> avg = 0 /\ W = 0)%Z
  /\ (0 < P -> 2 * P * avg <= 2 * W + P < 2 * P * (avg + 1) /\ 1 <= avg)%Z.
Proof.
  cbv zeta. cbn [d_wordCount d_avgParagraphLength content_density_evaluator].
  assert (L : (length (paragraphTexts html)
               <= list_sum (map token_count (paragraphTexts html)))%nat).
  { pose proof (@list_sum_at_least (map token_count (paragraphTexts html))) as G.
    rewrite length_map in G. apply G. apply Forall_map.
    apply paragraphTexts_words. }
  rewrite avgParagraphLength_mean.
  rewrite (wordCount_total html), sum_list_sum, paragraphWordCounts_tokens.
  rewrite <- (length_map token_count (paragraphTexts html)) in *.
  destruct (map token_count (paragraphTexts html)) as [|c l];
    [split; [split; reflexivity|simpl; lia]|].
  unfold mean.
  set (W := list_sum (c :: l)) in *.
  set (n := length (c :: l)) in *.
  assert (N : (0 < n)%nat) by (subst n; simpl; lia).
  destruct (Z.of_nat n) as [|q|q] eqn:Q; try lia.
  rewrite round_quotient.
  assert (LZ : (Zpos q <= Z.of_nat W)%Z) by lia.
  split; [lia|]. intros _.
  pose proof (Z.div_mod (2 * Z.of_nat W + Zpos q) (2 * Zpos q)) as D.
  pose proof (Z.mod_pos_bound (2 * Z.of_nat W + Zpos q) (2 * Zpos q)) as B.
  assert (1 <= (2 * Z.of_nat W + Zpos q) / (2 * Zpos q))%Z
    by (apply Z.div_le_lower_bound; lia).
  nia.
Qed.
